(** * Aegis Crypto-Watch: the logic engine (LogicEngine), embedded in Rocq

    The engine is a JavaScript module.  Its numbers are IEEE 754 binary64
    values, modelled by Rocq's primitive floats (the same format, the same
    rounding, one NaN); its strings are [string]; its arrays are lists; the
    [Map] built by [detectNewSignals] is a [gmap]; the module-level variable
    [previousAnalyzedData] is threaded explicitly through [processData], and
    the jQuery events it triggers are returned as a list.

    The API client (APIClient) and the page stream (UIStream) are embedded
    as far as they work on data: the selection of the pairs, the count of
    the retries and the polling of the client, with the timers of the window
    and the answers of the network as inputs; the classes, the panel of the
    logs and the chart of the page stream, with the elements of the page as
    records and lists. *)

From Stdlib Require Import ZArith List Bool Ascii String Lia Floats Reals Lra Psatz Uint63.
From Stdlib Require Import Sorting.Sorted.
From stdpp Require Import base gmap strings list.

Local Open Scope Z_scope.
Set Warnings "-inexact-float".

(** ** Numbers: the parts of the [Math] object the engine calls *)

Abbreviation number := float.

Module Math.

(** [Math.abs]. *)
Definition abs (x : number) : number := PrimFloat.abs x.

(** [Math.max(a, b)]: NaN as soon as one argument is NaN; [+0] is larger
    than [-0]. *)
Definition max (a b : number) : number :=
  if is_nan a || is_nan b then nan
  else if (a <? b)%float then b
  else if (b <? a)%float then a
  else if get_sign a then b else a.

(** [Math.min(a, b)]: NaN as soon as one argument is NaN; [-0] is smaller
    than [+0]. *)
Definition min (a b : number) : number :=
  if is_nan a || is_nan b then nan
  else if (a <? b)%float then a
  else if (b <? a)%float then b
  else if get_sign a then a else b.

(** For a finite [x = (-1)^s * m * 2^e] with [e < 0], the integer
    [floor (x + 1/2)]: the integer closest to [x], ties going up. *)
Definition round_half_up (s : bool) (m : positive) (e : Z) : Z :=
  (2 * (if s then Z.neg m else Z.pos m) + 2 ^ (- e)) / 2 ^ (1 - e).

(** [Math.round(x)]: NaN, the infinities, the zeros and the integral values
    are returned as they are; a value that rounds to zero keeps the sign
    of [x]. *)
Definition round (x : number) : number :=
  match Prim2SF x with
  | S754_finite s m e =>
      if 0 <=? e then x
      else
        let n := round_half_up s m e in
        if n =? 0 then (if s then neg_zero else zero)
        else if 0 <? n then of_uint63 (Uint63.of_Z n)
        else (- of_uint63 (Uint63.of_Z (- n)))%float
  | _ => x
  end.

End Math.

(** ** Strings and arrays: the methods the engine calls *)

Fixpoint string_drop (n : nat) (s : string) : string :=
  match n, s with
  | O, _ => s
  | S n', String _ s' => string_drop n' s'
  | S _, EmptyString => EmptyString
  end.

(** [s.replace(pat, rep)] for a string pattern and a replacement without [$]:
    the leftmost occurrence of [pat] is replaced, the rest is untouched. *)
Fixpoint String_replace (pat rep s : string) : string :=
  if String.prefix pat s then (rep +:+ string_drop (String.length pat) s)%string
  else
    match s with
    | EmptyString => EmptyString
    | String c s' => String c (String_replace pat rep s')
    end.

(** [s.endsWith(suffix)]: [suffix] is [s] or ends what follows the first
    character of [s]. *)
Fixpoint String_endsWith (s suffix : string) : bool :=
  String.eqb s suffix ||
  match s with
  | EmptyString => false
  | String _ s' => String_endsWith s' suffix
  end.

(** [a.slice(0, end)] for an integral [end]: a negative [end] counts from the
    end of the array. *)
Definition Array_slice0 {A} (l : list A) (stop : Z) : list A :=
  let len := Z.of_nat (length l) in
  let final := if stop <? 0 then Z.max (len + stop) 0 else Z.min stop len in
  firstn (Z.to_nat final) l.

Section ArraySort.
Context {A : Type}.
Variable comparefn : A -> A -> number.

(** [x] goes before the first element it compares strictly less than (a
    comparator result that is NaN counts as 0, as in the language's
    SortCompare). *)
Fixpoint sort_insert (x : A) (sorted : list A) : list A :=
  match sorted with
  | [] => [x]
  | y :: rest =>
      if (comparefn x y <? 0)%float then x :: y :: rest
      else y :: sort_insert x rest
  end.

Fixpoint sort_from (sorted todo : list A) : list A :=
  match todo with
  | [] => sorted
  | x :: rest => sort_from (sort_insert x sorted) rest
  end.

(** [a.sort(comparefn)]: the elements are inserted one by one, from left
    to right, each after the elements it does not precede (the sort of
    the language is stable). *)
Definition Array_sort (l : list A) : list A := sort_from [] l.
End ArraySort.

(** ** The engine *)

Record Config := {
  WHALE_THRESHOLD_PRICE_CHANGE : number;
  WHALE_THRESHOLD_VOLUME : number;
  PANIC_THRESHOLD_PRICE_CHANGE : number;
  VOLATILITY_HIGH_THRESHOLD : number;
  VOLATILITY_MEDIUM_THRESHOLD : number
}.

Definition CONFIG : Config := {|
  WHALE_THRESHOLD_PRICE_CHANGE := 3.0;
  WHALE_THRESHOLD_VOLUME := 1000000;
  PANIC_THRESHOLD_PRICE_CHANGE := -3.0;
  VOLATILITY_HIGH_THRESHOLD := 5.0;
  VOLATILITY_MEDIUM_THRESHOLD := 2.0
|}.

(** SIGNAL_TYPES. *)
Inductive SignalType := WHALE_ACTIVITY | PANIC_SELL | NEUTRAL.

Global Instance SignalType_eq_dec : EqDecision SignalType.
Proof. solve_decision. Defined.

(** The levels ['low'], ['medium'], ['high'] of a volatility, and the
    priorities ['low'], ['high'] of a signal. *)
Inductive Level := low | medium | high.

Global Instance Level_eq_dec : EqDecision Level.
Proof. solve_decision. Defined.

Record Volatility := { score : number; level : Level }.

Record Signal := { type : SignalType; message : string; priority : Level }.

(** A ticker as the API delivers it: every numeric field is text. *)
Module Raw.
Record Ticker := {
  symbol : string;
  lastPrice : string;
  priceChange : string;
  priceChangePercent : string;
  volume : string;
  quoteVolume : string;
  highPrice : string;
  lowPrice : string
}.
End Raw.

(** The object [analyzeTicker] returns. *)
Record AnalyzedTicker := {
  symbol : string;
  baseAsset : string;
  price : number;
  priceChange : number;
  priceChangePercent : number;
  volume : number;
  quoteVolume : number;
  highPrice : number;
  lowPrice : number;
  volatility : Volatility;
  signal : Signal;
  raw : Raw.Ticker
}.

Definition calculateVolatilityScore (priceChangePercent : number) : Volatility :=
  let absChange := Math.abs priceChangePercent in
  let '(score, level) :=
    if (VOLATILITY_HIGH_THRESHOLD CONFIG <=? absChange)%float then
      (Math.min 100 (Math.round ((absChange / 10) * 100)%float), high)
    else if (VOLATILITY_MEDIUM_THRESHOLD CONFIG <=? absChange)%float then
      (Math.round ((absChange / VOLATILITY_HIGH_THRESHOLD CONFIG) * 70)%float, medium)
    else
      (Math.round ((absChange / VOLATILITY_MEDIUM_THRESHOLD CONFIG) * 30)%float, low) in
  {| score := Math.min 100 (Math.max 0 score); level := level |}.

(** The [filter] and [sort] steps of [getTopGainers], before its [slice]. *)
Definition rankedGainers (analyzedData : list AnalyzedTicker) : list AnalyzedTicker :=
  Array_sort (fun a b => (priceChangePercent b - priceChangePercent a)%float)
    (filter (fun item => (0 <? priceChangePercent item)%float = true) analyzedData).

(** [limit] is [None] when the argument is left out: the default is 5. *)
Definition getTopGainers (analyzedData : list AnalyzedTicker) (limit : option Z)
  : list AnalyzedTicker :=
  let limit := default 5 limit in
  Array_slice0 (rankedGainers analyzedData) limit.

Definition getActiveSignals (analyzedData : list AnalyzedTicker) : list AnalyzedTicker :=
  filter (fun item => type (signal item) ≠ NEUTRAL) analyzedData.

(** The [Map] filled by the [forEach] over [previousData]: a later entry of
    a symbol overwrites an earlier one. *)
Definition previousSignals_of (previousData : list AnalyzedTicker) : gmap string SignalType :=
  foldl (fun m item =>
           if decide (type (signal item) ≠ NEUTRAL)
           then <[symbol item := type (signal item)]> m
           else m)
        ∅ previousData.

(** [previousData] is [None] for [null] and [undefined]. *)
Definition detectNewSignals (previousData : option (list AnalyzedTicker))
    (currentData : list AnalyzedTicker) : list AnalyzedTicker :=
  match previousData with
  | None | Some [] => getActiveSignals currentData
  | Some previousData =>
      let previousSignals := previousSignals_of previousData in
      foldl (fun newSignals item =>
               if decide (type (signal item) ≠ NEUTRAL) then
                 match previousSignals !! symbol item with
                 | None => newSignals ++ [item]
                 | Some previousSignal =>
                     if decide (previousSignal ≠ type (signal item))
                     then newSignals ++ [item]
                     else newSignals
                 end
               else newSignals)
            [] currentData
  end.

(** The events [processData] triggers on the document. *)
Inductive Event :=
  | dataAnalyzed (analyzedData : list AnalyzedTicker)
  | topGainersUpdated (topGainers : list AnalyzedTicker)
  | newSignalsDetected (newSignals : list AnalyzedTicker).

Section Engine.
(** The global [parseFloat] of the host: text to number, NaN when the text
    does not start with a numeral. *)
Variable parseFloat : string -> number.

Definition detectSignal (tickerData : Raw.Ticker) : Signal :=
  let priceChangePercent := parseFloat (Raw.priceChangePercent tickerData) in
  let volume := parseFloat (Raw.quoteVolume tickerData) in
  if (WHALE_THRESHOLD_PRICE_CHANGE CONFIG <? priceChangePercent)%float
     && (WHALE_THRESHOLD_VOLUME CONFIG <? volume)%float
  then {| type := WHALE_ACTIVITY;
          message := "WHALE ACTIVITY - Strong Buy Signal";
          priority := high |}
  else if (priceChangePercent <? PANIC_THRESHOLD_PRICE_CHANGE CONFIG)%float
  then {| type := PANIC_SELL;
          message := "PANIC SELL - Market Downturn";
          priority := high |}
  else {| type := NEUTRAL;
          message := "Normal Market Activity";
          priority := low |}.

Definition analyzeTicker (tickerData : Raw.Ticker) : AnalyzedTicker :=
  let priceChangePercent := parseFloat (Raw.priceChangePercent tickerData) in
  let volatility := calculateVolatilityScore priceChangePercent in
  let signal := detectSignal tickerData in
  {| symbol := Raw.symbol tickerData;
     baseAsset := String_replace "USDT" "" (Raw.symbol tickerData);
     price := parseFloat (Raw.lastPrice tickerData);
     priceChange := parseFloat (Raw.priceChange tickerData);
     priceChangePercent := priceChangePercent;
     volume := parseFloat (Raw.volume tickerData);
     quoteVolume := parseFloat (Raw.quoteVolume tickerData);
     highPrice := parseFloat (Raw.highPrice tickerData);
     lowPrice := parseFloat (Raw.lowPrice tickerData);
     volatility := volatility;
     signal := signal;
     raw := tickerData |}.

Definition analyzeTickerArray (tickerDataArray : list Raw.Ticker) : list AnalyzedTicker :=
  map analyzeTicker tickerDataArray.

(** [processData] reads and replaces [previousAnalyzedData]; the events are
    listed in the order they are triggered. *)
Definition processData (previousAnalyzedData : list AnalyzedTicker)
    (tickerDataArray : list Raw.Ticker) : list AnalyzedTicker * list Event :=
  let analyzedData := analyzeTickerArray tickerDataArray in
  let newSignals := detectNewSignals (Some previousAnalyzedData) analyzedData in
  let topGainers := getTopGainers analyzedData (Some 5) in
  (analyzedData,
   [dataAnalyzed analyzedData; topGainersUpdated topGainers]
     ++ (if (0 <? length newSignals)%nat then [newSignalsDetected newSignals] else [])).
End Engine.


(** ** The page: the methods of jQuery the modules call on an element *)

(** An element of the page, as far as the modules touch it: the class
    names of its [class] attribute, in order, and its inner markup. *)
Record Element := { classes : list string; innerHTML : string }.

(** [$el.removeClass(names)] for a list of names separated by spaces:
    every occurrence of each name is removed. *)
Definition removeClass (names : list string) (el : Element) : Element :=
  {| classes := filter (fun c => c ∉ names) (classes el); innerHTML := innerHTML el |}.

(** [$el.addClass(name)]: the name is appended unless it is there. *)
Definition addClass (name : string) (el : Element) : Element :=
  if decide (name ∈ classes el) then el
  else {| classes := classes el ++ [name]; innerHTML := innerHTML el |}.

(** [$el.html(markup)]. *)
Definition html (markup : string) (el : Element) : Element :=
  {| classes := classes el; innerHTML := markup |}.

(** The timers of the window: the handles of the intervals that are set,
    and the handle the next [setInterval] returns (a positive integer that
    no timer has). *)
Record Timers := { intervals : list positive; nextHandle : positive }.

Definition setInterval (timers : Timers) : positive * Timers :=
  (nextHandle timers,
   {| intervals := intervals timers ++ [nextHandle timers];
      nextHandle := Pos.succ (nextHandle timers) |}).

Definition clearInterval (handle : positive) (timers : Timers) : Timers :=
  {| intervals := filter (fun h => h ≠ handle) (intervals timers);
     nextHandle := nextHandle timers |}.

(** * The API client (APIClient) *)

Module APIClient.

Record Config := {
  API_URL : string;
  POLL_INTERVAL : Z;
  RETRY_DELAY : Z;
  MAX_RETRIES : Z
}.

Definition CONFIG : Config := {|
  API_URL := "https://api.binance.com/api/v3/ticker/24hr";
  POLL_INTERVAL := 5000;
  RETRY_DELAY := 3000;
  MAX_RETRIES := 3
|}.

(** The variables of the module ([retryCount] is a count, kept as an
    integer). *)
Record State := {
  pollingInterval : option positive;
  retryCount : Z;
  isPolling : bool
}.

Definition initialState : State :=
  {| pollingInterval := None; retryCount := 0; isPolling := false |}.

(** The errors [fetchTickerData] throws on. *)
Inductive Error :=
  | HTTPError (status : Z)
  | Rejected (reason : string).

(** What the two [await]s of a call meet: [fetch] rejects; the response
    is not ok; [response.json()] rejects (a body that is not an array of
    tickers, on which the pipeline throws, counts here); or the body is
    delivered. *)
Inductive Fetched :=
  | fetchRejected (reason : string)
  | responseNotOk (status : Z)
  | jsonRejected (reason : string)
  | responseJson (data : list Raw.Ticker).

(** What a call leaves on the page and in the window, in order (the
    lines written to the console are left out). *)
Inductive Effect :=
  | connectionStatus (status : string)
  | retryTimeout
  | processTickerDataCalled
  | lastUpdateText
  | tickerDataReceived (tickerData : list Raw.Ticker)
  | tickerDataError (error : Error).

(** [quote] is the double quote of the markup. *)
Definition quote : string := String "034" EmptyString.

Definition updateConnectionStatus (status : string) (element : Element) : Element :=
  let element :=
    removeClass ["status-connected"; "status-connecting"; "status-error"] element in
  if String.eqb status "connected" then
    html ("<span id=" +:+ quote +:+ "statusIndicator" +:+ quote +:+ ">●</span> Connected")
      (addClass "status-connected" element)
  else if String.eqb status "connecting" then
    html ("<span id=" +:+ quote +:+ "statusIndicator" +:+ quote +:+ ">●</span> Connecting...")
      (addClass "status-connecting" element)
  else if String.eqb status "error" then
    html ("<span id=" +:+ quote +:+ "statusIndicator" +:+ quote +:+ ">●</span> Connection Error")
      (addClass "status-error" element)
  else element.

Section Fetch.
Variable parseFloat : string -> number.

(** The pipeline of [fetchTickerData]: the pairs against USDT, by
    decreasing quote volume, the first 100 of them.  (Where a volume is not
    a number the comparator is not consistent, and the order the host
    leaves the array in is its own; the theorems on the order are about
    volumes that are numbers.) *)
Definition usdtPairs (data : list Raw.Ticker) : list Raw.Ticker :=
  Array_slice0
    (Array_sort
       (fun a b => (parseFloat (Raw.quoteVolume b) - parseFloat (Raw.quoteVolume a))%float)
       (filter (fun item => String_endsWith (Raw.symbol item) "USDT" = true) data))
    100.

(** The [catch] block of [fetchTickerData]. *)
Definition fetchFailed (error : Error) (state : State)
  : State * list Effect * (Error + list Raw.Ticker) :=
  let retryCount := retryCount state + 1 in
  ({| pollingInterval := pollingInterval state;
      retryCount := retryCount;
      isPolling := isPolling state |},
   [connectionStatus "error"]
     ++ (if retryCount <? MAX_RETRIES CONFIG then [retryTimeout] else []),
   inl error).

(** [fetchTickerData], from the answer of the network on: the new state,
    what is left on the page, and the value the promise settles with (the
    error is thrown again). *)
Definition fetchTickerData (fetched : Fetched) (state : State)
  : State * list Effect * (Error + list Raw.Ticker) :=
  match fetched with
  | fetchRejected reason => fetchFailed (Rejected reason) state
  | responseNotOk status => fetchFailed (HTTPError status) state
  | jsonRejected reason => fetchFailed (Rejected reason) state
  | responseJson data =>
      let usdtPairs := usdtPairs data in
      ({| pollingInterval := pollingInterval state;
          retryCount := 0;
          isPolling := isPolling state |},
       [connectionStatus "connected"],
       inr usdtPairs)
  end.

Definition processTickerData (fetched : Fetched) (state : State) : State * list Effect :=
  match fetchTickerData fetched state with
  | (state, effects, inr tickerData) =>
      (state, effects ++ [lastUpdateText; tickerDataReceived tickerData])
  | (state, effects, inl error) =>
      (state, effects ++ [tickerDataError error])
  end.

(** The callback of the retry timer calls [fetchTickerData] and drops what
    it settles with. *)
Definition retryCallback (fetched : Fetched) (state : State) : State * list Effect :=
  let '(state, effects, _) := fetchTickerData fetched state in (state, effects).
End Fetch.

Definition startPolling (state : State) (timers : Timers) : State * Timers * list Effect :=
  if isPolling state then (state, timers, [])
  else
    let '(handle, timers) := setInterval timers in
    ({| pollingInterval := Some handle;
        retryCount := retryCount state;
        isPolling := true |},
     timers,
     [connectionStatus "connecting"; processTickerDataCalled]).

Definition stopPolling (state : State) (timers : Timers) : State * Timers :=
  let timers :=
    match pollingInterval state with
    | Some handle => clearInterval handle timers
    | None => timers
    end in
  ({| pollingInterval := None; retryCount := retryCount state; isPolling := false |}, timers).

Definition isPollingActive (state : State) : bool := isPolling state.

(** What happens to the module, one thing at a time: a call of its public
    functions, or the completion of a request that the interval or a retry
    timer has started. *)
Inductive Step :=
  | callStartPolling
  | callStopPolling
  | pollCompletes (fetched : Fetched)
  | retryCompletes (fetched : Fetched).

Definition step (parseFloat : string -> number) (s : Step) (st : State * Timers)
  : State * Timers * list Effect :=
  let '(state, timers) := st in
  match s with
  | callStartPolling => startPolling state timers
  | callStopPolling => (stopPolling state timers, [])
  | pollCompletes fetched =>
      let '(state, effects) := processTickerData parseFloat fetched state in
      (state, timers, effects)
  | retryCompletes fetched =>
      let '(state, effects) := retryCallback parseFloat fetched state in
      (state, timers, effects)
  end.

(** A run: the steps in order, with everything they leave. *)
Fixpoint run (parseFloat : string -> number) (steps : list Step) (st : State * Timers)
  : State * Timers * list Effect :=
  match steps with
  | [] => (st, [])
  | s :: steps =>
      let '(st, effects) := step parseFloat s st in
      let '(st, effects') := run parseFloat steps st in
      (st, effects ++ effects')
  end.

End APIClient.

(** * The page stream (UIStream): the parts that work on data *)

Module UIStream.

Definition getPriceChangeClass (priceChangePercent : number) : string :=
  if (0 <? priceChangePercent)%float then "price-up"
  else if (priceChangePercent <? 0)%float then "price-down"
  else "price-neutral".

(** The class of the message of a log entry, in [addSignalLog]. *)
Definition signalClass (cryptoData : AnalyzedTicker) : string :=
  if decide (type (signal cryptoData) = WHALE_ACTIVITY)
  then "signal-log-whale" else "signal-log-panic".

(** The children of the panel of the logs: the line that tells that a
    signal is awaited (the only one of class [text-center]) and the log
    entries, each made from the time and the entry it is added for. *)
Inductive LogNode :=
  | waiting
  | logItem (timeStr : string) (cryptoData : AnalyzedTicker).

Global Instance LogNode_waiting_dec (node : LogNode) : Decision (node = waiting).
Proof. destruct node; [left; reflexivity|right; discriminate]. Defined.

(** [addSignalLog]: the awaiting line is removed, the entry is put first,
    and the log entries from the 51st on are removed. *)
Definition addSignalLog (timeStr : string) (cryptoData : AnalyzedTicker)
    (signalLogs : list LogNode) : list LogNode :=
  let signalLogs := filter (fun node => node ≠ waiting) signalLogs in
  let signalLogs := logItem timeStr cryptoData :: signalLogs in
  if (50 <? length signalLogs)%nat then take 50 signalLogs else signalLogs.

(** The handler of the button that clears the logs. *)
Definition clearLogs (signalLogs : list LogNode) : list LogNode := [waiting].

(** The handler of [newSignalsDetected]: one call of [addSignalLog] per
    signal, in order, each at its own time. *)
Definition onNewSignalsDetected (newSignals : list (string * AnalyzedTicker))
    (signalLogs : list LogNode) : list LogNode :=
  foldl (fun signalLogs '(timeStr, signalData) => addSignalLog timeStr signalData signalLogs)
    signalLogs newSignals.

(** The chart of the top gainers, as far as the module writes it: the
    labels and the data of its only dataset. *)
Record Chart := { labels : list string; data : list number }.

(** [initializeChart]: without the canvas on the page nothing is made. *)
Definition initializeChart (canvas : bool) (chartInstance : option Chart) : option Chart :=
  if canvas then Some {| labels := []; data := [] |} else chartInstance.

Definition updateChart (canvas : bool) (topGainers : list AnalyzedTicker)
    (chartInstance : option Chart) : option Chart :=
  let chartInstance :=
    match chartInstance with
    | None => initializeChart canvas chartInstance
    | Some _ => chartInstance
    end in
  match chartInstance with
  | None => None
  | Some _ =>
      let labels := baseAsset <$> topGainers in
      let data := priceChangePercent <$> topGainers in
      Some {| labels := labels; data := data |}
  end.

End UIStream.


(** ** Sample data *)

Definition digit_of (c : ascii) : option Z :=
  let n := Z.of_nat (nat_of_ascii c) in
  if (48 <=? n) && (n <=? 57) then Some (n - 48) else None.

(** The digits of a numeral as an integer [m] and the number [k] of digits
    after the point: the numeral stands for [m / 10^k]. *)
Fixpoint read_decimal (s : string) (seen_dot : bool) (m k : Z) (any : bool)
  : option (Z * Z) :=
  match s with
  | EmptyString => if any then Some (m, k) else None
  | String c s' =>
      match digit_of c with
      | Some d => read_decimal s' seen_dot (10 * m + d) (if seen_dot then k + 1 else k) true
      | None =>
          if Ascii.eqb c "." && negb seen_dot then read_decimal s' true m k any else None
      end
  end.

(** A [parseFloat] for plain decimal numerals (a sign, digits, a fraction),
    NaN on any other text; it stands for the host's function where the
    engine is run on sample data. *)
Definition parseDecimal (s : string) : number :=
  let '(neg, body) :=
    match s with
    | String "-" s' => (true, s')
    | _ => (false, s)
    end in
  match read_decimal body false 0 0 false with
  | Some (m, k) =>
      let x := (of_uint63 (Uint63.of_Z m) / of_uint63 (Uint63.of_Z (10 ^ k)))%float in
      if neg then (- x)%float else x
  | None => nan
  end.

Definition sampleTicker (sym pct vol : string) : Raw.Ticker :=
  {| Raw.symbol := sym; Raw.lastPrice := "1.00"; Raw.priceChange := "0.01";
     Raw.priceChangePercent := pct; Raw.volume := "1000"; Raw.quoteVolume := vol;
     Raw.highPrice := "1.10"; Raw.lowPrice := "0.90" |}.

Definition samplePrevious : list AnalyzedTicker :=
  analyzeTickerArray parseDecimal
    [sampleTicker "BTCUSDT" "3.5" "2000000";
     sampleTicker "ETHUSDT" "0.5" "500000"].

Definition sampleSnapshot : list AnalyzedTicker :=
  analyzeTickerArray parseDecimal
    [sampleTicker "BTCUSDT" "4.99" "2000000";
     sampleTicker "ETHUSDT" "-3.5" "500000";
     sampleTicker "BNBUSDT" "1.5" "1000"].


(** ** The values of the numbers

    The theorems about the scores and the ranking need the order and the
    rounding of binary64 numbers; they are stated on the real number a
    datum stands for. *)

(** [2^e] as a real number. *)
Definition pow2 (e : Z) : R := powerRZ 2 e.

(** The real number a binary64 datum stands for; the infinities are placed
    at [2^emax] and [-2^emax], beyond every finite number, so that the order
    of the non-NaN numbers is the order of their values. *)
Definition SF2R (x : spec_float) : R :=
  match x with
  | S754_zero _ | S754_nan => 0%R
  | S754_infinity s => if s then (- pow2 emax)%R else pow2 emax
  | S754_finite s m e =>
      if s then (- (IZR (Z.pos m) * pow2 e))%R else (IZR (Z.pos m) * pow2 e)%R
  end.

Definition F2R (x : number) : R := SF2R (Prim2SF x).

(** The nonnegative numbers: [+0], the positive finite numbers and
    [+Infinity]. *)
Definition nonneg (x : number) : Prop :=
  match Prim2SF x with
  | S754_zero false | S754_finite false _ _ | S754_infinity false => True
  | _ => False
  end.

(** A positive finite number: the constants of the engine are such. *)
Definition positive_finite (c : number) : Prop :=
  match Prim2SF c with
  | S754_finite false _ _ => True
  | _ => False
  end.

(** [u] lies in [[m, m + 1)], at the place the location [l] tells: on [m],
    in the lower half, in the middle, in the upper half. *)
Definition located (u : R) (m : Z) (l : location) : Prop :=
  match l with
  | loc_Exact => u = IZR m
  | loc_Inexact Lt => (IZR m < u < IZR m + 1 / 2)%R
  | loc_Inexact Eq => u = (IZR m + 1 / 2)%R
  | loc_Inexact Gt => (IZR m + 1 / 2 < u < IZR m + 1)%R
  end.

Definition located_record (u : R) (mrs : shr_record) : Prop :=
  located u (shr_m mrs) (loc_of_shr_record mrs).

(** The values of the nonnegative finite numbers of the format. *)
Definition representable (w : R) : Prop :=
  w = 0%R \/
  exists (m : positive) (e : Z),
    valid_binary (S754_finite false m e) = true /\ w = (IZR (Z.pos m) * pow2 e)%R.

(** No nonnegative number of the format is closer to [v] than [r] is. *)
Definition nearest (v r : R) : Prop :=
  forall w, representable w -> (Rabs (r - v) <= Rabs (w - v))%R.

(** [r] is what the nonnegative real [v] is rounded to: a nonnegative
    number of the format that is as close to [v] as can be, or the
    infinity when [v] is large. *)
Definition rounds_to (v : R) (r : spec_float) : Prop :=
  match r with
  | S754_zero false => nearest v 0
  | S754_finite false m e => nearest v (IZR (Z.pos m) * pow2 e)
  | S754_infinity false => (pow2 971 <= v)%R
  | _ => False
  end.

(** The nonnegative finite data: [+0] and the positive finite numbers. *)
Definition nonneg_finite (x : spec_float) : Prop :=
  match x with
  | S754_zero false | S754_finite false _ _ => True
  | _ => False
  end.

(** A list in the order [sort] leaves it in: the keys do not increase. *)
Definition descending {A} (key : A -> R) : list A -> Prop :=
  StronglySorted (fun a b => (key b <= key a)%R).

(** ** The diff of the signals, as the specification words it *)

(** An entry is reported when its signal is not NEUTRAL and its symbol has no
    entry with a signal in the previous set, or has one of another type. *)
Definition reported_as_new (previousSet : list AnalyzedTicker) (item : AnalyzedTicker) : Prop :=
  type (signal item) ≠ NEUTRAL ∧
  (Forall (λ p, symbol p = symbol item → type (signal p) = NEUTRAL) previousSet ∨
   Exists (λ p, symbol p = symbol item ∧ type (signal p) ≠ NEUTRAL ∧
                type (signal p) ≠ type (signal item)) previousSet).

Global Instance reported_as_new_dec previousSet item :
  Decision (reported_as_new previousSet item).
Proof. unfold reported_as_new. apply _. Defined.


(** ** Auxiliary predicates *)

(** The test of the second loop of [detectNewSignals], for the map
    [previousSignals]: the entry is pushed. *)
Definition pushed (previousSignals : gmap string SignalType) (item : AnalyzedTicker) : Prop :=
  type (signal item) ≠ NEUTRAL ∧
  previousSignals !! symbol item ≠ Some (type (signal item)).

Global Instance pushed_dec previousSignals item : Decision (pushed previousSignals item).
Proof. unfold pushed. apply _. Defined.

(** The test of the filter of [getTopGainers]. *)
Definition gains (item : AnalyzedTicker) : Prop := (0 <? priceChangePercent item)%float = true.

(** The completion of a request that failed. *)
Definition failure (s : APIClient.Step) : Prop :=
  match s with
  | APIClient.pollCompletes (APIClient.responseJson _)
  | APIClient.retryCompletes (APIClient.responseJson _) => False
  | APIClient.pollCompletes _ | APIClient.retryCompletes _ => True
  | _ => False
  end.

(** The number of retry timers among the effects of a run. *)
Definition retriesScheduled (effects : list APIClient.Effect) : nat :=
  length (List.filter
            (fun e => match e with APIClient.retryTimeout => true | _ => false end) effects).

(** The payloads of the [tickerDataReceived] events among the effects of
    a run, in order. *)
Definition received (effects : list APIClient.Effect) : list (list Raw.Ticker) :=
  omap (fun e => match e with APIClient.tickerDataReceived d => Some d | _ => None end) effects.

(** What the polls of a run that succeed deliver, in order. *)
Definition delivered (parseFloat : string -> number) (steps : list APIClient.Step)
  : list (list Raw.Ticker) :=
  omap (fun s => match s with
                 | APIClient.pollCompletes (APIClient.responseJson data) =>
                     Some (APIClient.usdtPairs parseFloat data)
                 | _ => None
                 end) steps.

(** The interval the module holds, if it holds one. *)
Definition ownInterval (state : APIClient.State) : list positive :=
  match APIClient.pollingInterval state with
  | Some handle => [handle]
  | None => []
  end.

(** The three classes of the connection status. *)
Definition statusClasses : list string :=
  ["status-connected"; "status-connecting"; "status-error"].

(** What every step of the client keeps: the intervals of the window are
    those that were there at first, followed by the one the module holds;
    the module holds one exactly when it is polling; its handle is newer
    than the intervals that were there. *)
Definition polling_inv (timers0 : Timers) (st : APIClient.State * Timers) : Prop :=
  intervals st.2 = intervals timers0 ++ ownInterval st.1 /\
  (APIClient.isPolling st.1 = true <-> APIClient.pollingInterval st.1 <> None) /\
  (nextHandle timers0 <= nextHandle st.2)%positive /\
  (forall h, APIClient.pollingInterval st.1 = Some h ->
     (nextHandle timers0 <= h < nextHandle st.2)%positive).


(** * Theory of the numbers *)

(** The specification of the format is written with the integer operations
    of the core library; they are read here as the ones of [ZArith]. *)
Ltac std_names :=
  change IntDef.Z.compare with Z.compare in *;
  change IntDef.Z.add with Z.add in *;
  change IntDef.Z.sub with Z.sub in *;
  change IntDef.Z.mul with Z.mul in *;
  change IntDef.Z.opp with Z.opp in *;
  change IntDef.Z.max with Z.max in *;
  change IntDef.Z.min with Z.min in *;
  change IntDef.Z.leb with Z.leb in *;
  change IntDef.Z.ltb with Z.ltb in *;
  change IntDef.Z.eqb with Z.eqb in *;
  change IntDef.Z.even with Z.even in *;
  change IntDef.Z.div_eucl with Z.div_eucl in *;
  change IntDef.Z.shiftl with Z.shiftl in *;
  change PosDef.Pos.compare_cont with Pos.compare_cont in *;
  change PosDef.Pos.mul with Pos.mul in *;
  change PosDef.Pos.succ with Pos.succ in *;
  change @PosDef.Pos.iter with @Pos.iter in *.


Section Pow2.
Local Open Scope R_scope.

Lemma pow2_pos (e : Z) : 0 < pow2 e.
Proof. apply powerRZ_lt. lra. Qed.

Lemma pow2_add (a b : Z) : pow2 (a + b) = pow2 a * pow2 b.
Proof. apply powerRZ_add. lra. Qed.

Lemma pow2_IZR (e : Z) : (0 <= e)%Z -> pow2 e = IZR (2 ^ e).
Proof.
  intros He. destruct e as [|p|p]; [reflexivity| |lia].
  unfold pow2. rewrite <- Z.pow_pos_fold, Zpower_pos_powerRZ. reflexivity.
Qed.

Lemma pow2_0 : pow2 0 = 1.
Proof. reflexivity. Qed.

Lemma pow2_1 : pow2 1 = 2.
Proof. exact (powerRZ_1 2). Qed.

Lemma pow2_succ (e : Z) : pow2 (e + 1) = 2 * pow2 e.
Proof. rewrite pow2_add, pow2_1. lra. Qed.

Lemma pow2_ge_1 (e : Z) : (0 <= e)%Z -> 1 <= pow2 e.
Proof.
  intros He. rewrite pow2_IZR by exact He. apply IZR_le.
  pose proof (Z.pow_pos_nonneg 2 e). lia.
Qed.

Lemma pow2_le (a b : Z) : (a <= b)%Z -> pow2 a <= pow2 b.
Proof.
  intros H. replace b with (a + (b - a))%Z by lia. rewrite pow2_add.
  pose proof (pow2_pos a). pose proof (pow2_ge_1 (b - a) ltac:(lia)). nra.
Qed.

Lemma pow2_lt (a b : Z) : (a < b)%Z -> pow2 a < pow2 b.
Proof.
  intros H. pose proof (pow2_le (a + 1) b ltac:(lia)) as H0. rewrite pow2_succ in H0.
  pose proof (pow2_pos a). lra.
Qed.
End Pow2.

Global Opaque pow2.

(** ** Valid data *)

Lemma digits2_bounds (m : positive) :
  2 ^ (Z.pos (digits2_pos m) - 1) <= Z.pos m < 2 ^ Z.pos (digits2_pos m).
Proof.
  induction m as [m IH|m IH|]; cbn [digits2_pos]; std_names.
  - rewrite Pos2Z.inj_succ, (Pos2Z.inj_xI m).
    replace (Z.succ (Z.pos (digits2_pos m)) - 1) with (Z.succ (Z.pos (digits2_pos m) - 1)) by lia.
    rewrite !Z.pow_succ_r by lia. lia.
  - rewrite Pos2Z.inj_succ, (Pos2Z.inj_xO m).
    replace (Z.succ (Z.pos (digits2_pos m)) - 1) with (Z.succ (Z.pos (digits2_pos m) - 1)) by lia.
    rewrite !Z.pow_succ_r by lia. lia.
  - cbn. lia.
Qed.

Lemma Zdigits2_bounds (m : Z) :
  0 < m -> 2 ^ (Zdigits2 m - 1) <= m < 2 ^ Zdigits2 m.
Proof. destruct m; try lia. intros _. apply digits2_bounds. Qed.

Lemma Zdigits2_nonneg (m : Z) : 0 <= Zdigits2 m.
Proof. destruct m; simpl; lia. Qed.

(** The number of digits is fixed by the powers of two around the number. *)
Lemma Zdigits2_unique (m d : Z) :
  2 ^ (d - 1) <= m < 2 ^ d -> 0 < m -> Zdigits2 m = d.
Proof.
  intros H Hm. pose proof (Zdigits2_bounds m Hm) as Hb.
  pose proof (Zdigits2_nonneg m) as Hn.
  assert (0 < d). { destruct (Z.ltb_spec 0 d); [lia|]. rewrite (Z.pow_neg_r 2 d) in H by (destruct (Z.eq_dec d 0); [subst d|lia]; lia).  lia. }
  destruct (Z.lt_trichotomy (Zdigits2 m) d) as [Hlt|[Heq|Hgt]]; [|exact Heq|].
  - assert (2 ^ Zdigits2 m <= 2 ^ (d - 1)) by (apply Z.pow_le_mono_r; lia). lia.
  - assert (2 ^ d <= 2 ^ (Zdigits2 m - 1)) by (apply Z.pow_le_mono_r; lia). lia.
Qed.

Lemma fexp_eq (e : Z) : fexp prec emax e = Z.max (e - 53) (-1074).
Proof. reflexivity. Qed.

Lemma valid_finite (s : bool) (m : positive) (e : Z) :
  valid_binary (S754_finite s m e) = true <->
  e = Z.max (Z.pos (digits2_pos m) + e - 53) (-1074) /\ e <= 971.
Proof.
  unfold SpecFloat.valid_binary, SpecFloat.bounded, SpecFloat.canonical_mantissa. std_names.
  rewrite andb_true_iff, Z.eqb_eq, Z.leb_le, fexp_eq.
  change (emax - prec) with 971. intuition lia.
Qed.

Section Values.
Local Open Scope R_scope.

(** A valid finite number is below [2^emax]. *)
Lemma valid_finite_lt (s : bool) (m : positive) (e : Z) :
  valid_binary (S754_finite s m e) = true ->
  0 < IZR (Z.pos m) * pow2 e < pow2 1024.
Proof.
  intros [He Hb]%valid_finite.
  pose proof (digits2_bounds m) as [_ Hm]. pose proof (pow2_pos e) as Hp.
  assert (Hm' : IZR (Z.pos m) < pow2 53).
  { rewrite pow2_IZR by lia. apply IZR_lt.
    eapply Z.lt_le_trans; [exact Hm|]. apply Z.pow_le_mono_r; lia. }
  assert (0 < IZR (Z.pos m)) by (apply IZR_lt; lia).
  split; [nra|].
  replace 1024%Z with (53 + 971)%Z by lia. rewrite pow2_add.
  pose proof (pow2_le e 971 Hb). pose proof (pow2_pos 53). nra.
Qed.

(** Of two valid positive numbers, the one with the smaller exponent is
    the smaller one. *)
Lemma valid_exponent_lt (m1 m2 : positive) (e1 e2 : Z) :
  valid_binary (S754_finite false m1 e1) = true ->
  valid_binary (S754_finite false m2 e2) = true ->
  (e1 < e2)%Z -> IZR (Z.pos m1) * pow2 e1 < IZR (Z.pos m2) * pow2 e2.
Proof.
  intros [H1 _]%valid_finite [H2 _]%valid_finite Hlt.
  pose proof (digits2_bounds m1) as [_ Hm1]. pose proof (digits2_bounds m2) as [Hm2 _].
  assert (Hd2 : Z.pos (digits2_pos m2) = 53%Z) by lia. rewrite Hd2 in Hm2.
  assert (Hm1' : IZR (Z.pos m1) < pow2 53).
  { rewrite pow2_IZR by lia. apply IZR_lt.
    eapply Z.lt_le_trans; [exact Hm1|]. apply Z.pow_le_mono_r; lia. }
  assert (Hm2' : pow2 52 <= IZR (Z.pos m2)).
  { rewrite pow2_IZR by lia. apply IZR_le. exact Hm2. }
  pose proof (pow2_le (e1 + 1) e2 ltac:(lia)) as Hle. rewrite pow2_succ in Hle.
  pose proof (pow2_pos e1). pose proof (pow2_pos e2).
  change 53%Z with (52 + 1)%Z in Hm1'. rewrite pow2_succ in Hm1'.
  pose proof (pow2_pos 52). nra.
Qed.
End Values.

Section Order.
Local Open Scope R_scope.

Lemma valid_exponent_lt' (s1 s2 : bool) (m1 m2 : positive) (e1 e2 : Z) :
  valid_binary (S754_finite s1 m1 e1) = true ->
  valid_binary (S754_finite s2 m2 e2) = true ->
  (e1 < e2)%Z -> IZR (Z.pos m1) * pow2 e1 < IZR (Z.pos m2) * pow2 e2.
Proof. intros H1 H2. apply valid_exponent_lt; assumption. Qed.

(** The order the format gives to two valid numbers is the order of
    their values. *)
Lemma SFcompare_SF2R (x y : spec_float) :
  valid_binary x = true -> valid_binary y = true ->
  x <> S754_nan -> y <> S754_nan ->
  exists c, SFcompare x y = Some c /\
    match c with
    | Lt => SF2R x < SF2R y
    | Eq => SF2R x = SF2R y
    | Gt => SF2R y < SF2R x
    end.
Proof.
  intros Vx Vy Nx Ny. pose proof (pow2_pos 1024) as Hinf.
  change (pow2 emax) with (pow2 1024) in *.
  destruct x as [sx|sx| |sx mx ex], y as [sy|sy| |sy my ey]; try congruence;
    try pose proof (valid_finite_lt _ _ _ Vx) as Bx;
    try pose proof (valid_finite_lt _ _ _ Vy) as By;
    cbn [SFcompare SF2R]; change (pow2 emax) with (pow2 1024).
  - exists Eq. split; [reflexivity|lra].
  - exists (if sy then Gt else Lt). split; [reflexivity|]. destruct sy; lazy iota; lra.
  - exists (if sy then Gt else Lt). split; [reflexivity|]. destruct sy; lazy iota; lra.
  - exists (if sx then Lt else Gt). split; [reflexivity|]. destruct sx; lazy iota; lra.
  - destruct sx, sy; eexists; (split; [reflexivity|]); lazy iota; lra.
  - exists (if sx then Lt else Gt). split; [reflexivity|]. destruct sx, sy; lazy iota; lra.
  - exists (if sx then Lt else Gt). split; [reflexivity|]. destruct sx; lazy iota; lra.
  - exists (if sy then Gt else Lt). split; [reflexivity|]. destruct sx, sy; lazy iota; lra.
  - std_names. rewrite !Pos.compare_cont_spec. cbn [Pos.switch_Eq].
    assert (Hcmp : forall c, (ex ?= ey)%Z = c ->
      match c with
      | Lt => IZR (Z.pos mx) * pow2 ex < IZR (Z.pos my) * pow2 ey
      | Gt => IZR (Z.pos my) * pow2 ey < IZR (Z.pos mx) * pow2 ex
      | Eq => ex = ey
      end).
    { intros [] Hc.
      - apply Z.compare_eq in Hc. exact Hc.
      - apply (valid_exponent_lt' sx sy); [assumption..|]. apply Hc.
      - apply (valid_exponent_lt' sy sx); [assumption..|]. apply Z.compare_gt_iff in Hc. lia. }
    specialize (Hcmp _ eq_refl).
    assert (Hm : forall c, (mx ?= my)%positive = c -> ex = ey ->
      match c with
      | Lt => IZR (Z.pos mx) * pow2 ex < IZR (Z.pos my) * pow2 ey
      | Gt => IZR (Z.pos my) * pow2 ey < IZR (Z.pos mx) * pow2 ex
      | Eq => IZR (Z.pos mx) * pow2 ex = IZR (Z.pos my) * pow2 ey
      end).
    { intros c Hc <-. pose proof (pow2_pos ex). destruct c.
      - apply Pos.compare_eq in Hc. subst. reflexivity.
      - apply Rmult_lt_compat_r; [assumption|]. apply IZR_lt. apply Hc.
      - apply Rmult_lt_compat_r; [assumption|]. apply IZR_lt.
        apply Pos.compare_gt_iff in Hc. lia. }
    specialize (Hm _ eq_refl).
    destruct sx, sy; eexists; (split; [reflexivity|]); revert Hcmp Hm;
      destruct (ex ?= ey)%Z; intros Hcmp Hm; try specialize (Hm Hcmp); revert Hm;
      try destruct (mx ?= my)%positive; cbn [CompOpp Pos.switch_Eq]; lazy iota; lra.
Qed.
End Order.

Lemma SFcompare_antisym (x y : spec_float) (c : comparison) :
  SFcompare x y = Some c -> SFcompare y x = Some (CompOpp c).
Proof.
  destruct x as [sx|sx| |sx mx ex], y as [sy|sy| |sy my ey]; simpl;
    try discriminate; intros [= <-];
    try (destruct sx; reflexivity); try (destruct sy; reflexivity);
    try (destruct sx, sy; reflexivity).
  pose proof (Pos.compare_cont_antisym mx my Eq) as H; simpl in H.
  destruct sx, sy; try reflexivity;
    rewrite (Z.compare_antisym ex ey); destruct (ex ?= ey); simpl; try reflexivity;
    rewrite <- H; destruct (Pos.compare_cont Eq mx my); reflexivity.
Qed.

Lemma SFcompare_refl (x : spec_float) :
  x <> S754_nan -> SFcompare x x = Some Eq.
Proof.
  destruct x as [s|s| |s m e]; simpl; try congruence; intros _; std_names.
  - destruct s; reflexivity.
  - destruct s; rewrite Z.compare_refl, Pos.compare_cont_refl; reflexivity.
Qed.

Lemma is_nan_Prim2SF (x : number) : is_nan x = true <-> Prim2SF x = S754_nan.
Proof.
  unfold is_nan. rewrite FloatAxioms.eqb_spec. unfold SFeqb. split.
  - intros H. destruct (Prim2SF x) eqn:E; try reflexivity;
      rewrite SFcompare_refl in H by discriminate; discriminate.
  - intros ->. reflexivity.
Qed.

Lemma is_nan_eq (x : number) : is_nan x = true -> x = nan.
Proof.
  intros H. apply is_nan_Prim2SF in H. apply Prim2SF_inj. rewrite H. reflexivity.
Qed.

Lemma ltb_nan (x y : number) :
  is_nan x = true -> (x <? y)%float = false /\ (y <? x)%float = false.
Proof.
  intros H. apply is_nan_Prim2SF in H. rewrite !FloatAxioms.ltb_spec, H. unfold SFltb.
  split; [reflexivity|]. destruct (Prim2SF y); reflexivity.
Qed.

Lemma eqb_not_ltb (x y : number) :
  (x =? y)%float = true -> (x <? y)%float = false /\ (y <? x)%float = false.
Proof.
  rewrite FloatAxioms.eqb_spec, !FloatAxioms.ltb_spec. unfold SFeqb, SFltb.
  destruct (SFcompare (Prim2SF x) (Prim2SF y)) as [[]|] eqn:E; try discriminate.
  intros _. rewrite (SFcompare_antisym _ _ _ E). split; reflexivity.
Qed.


Lemma is_nan_false (x : number) : is_nan x = false <-> Prim2SF x <> S754_nan.
Proof.
  rewrite <- is_nan_Prim2SF. destruct (is_nan x); split; congruence.
Qed.

Section FloatOrder.
Local Open Scope R_scope.

Lemma compare_F2R (x y : number) :
  is_nan x = false -> is_nan y = false ->
  exists c, SFcompare (Prim2SF x) (Prim2SF y) = Some c /\
    match c with
    | Lt => F2R x < F2R y
    | Eq => F2R x = F2R y
    | Gt => F2R y < F2R x
    end.
Proof.
  intros Hx%is_nan_false Hy%is_nan_false.
  apply SFcompare_SF2R; auto using Prim2SF_valid.
Qed.

Lemma ltb_F2R (x y : number) :
  is_nan x = false -> is_nan y = false ->
  (x <? y)%float = true <-> F2R x < F2R y.
Proof.
  intros Hx Hy. destruct (compare_F2R x y Hx Hy) as (c & Hc & Hr).
  rewrite FloatAxioms.ltb_spec. unfold SFltb. rewrite Hc.
  destruct c; split; intros H; try discriminate; try reflexivity; try lra.
Qed.

Lemma leb_F2R (x y : number) :
  is_nan x = false -> is_nan y = false ->
  (x <=? y)%float = true <-> F2R x <= F2R y.
Proof.
  intros Hx Hy. destruct (compare_F2R x y Hx Hy) as (c & Hc & Hr).
  rewrite FloatAxioms.leb_spec. unfold SFleb. rewrite Hc.
  destruct c; split; intros H; try discriminate; try reflexivity; try lra.
Qed.

Lemma ltb_false_F2R (x y : number) :
  is_nan x = false -> is_nan y = false ->
  (x <? y)%float = false <-> F2R y <= F2R x.
Proof.
  intros Hx Hy. pose proof (ltb_F2R x y Hx Hy) as H.
  destruct (x <? y)%float; split; intros H'; try discriminate; try reflexivity.
  - assert (F2R x < F2R y) by (apply H; reflexivity). lra.
  - apply Rnot_lt_le. intros Hlt. apply H in Hlt. discriminate.
Qed.

Lemma leb_false_F2R (x y : number) :
  is_nan x = false -> is_nan y = false ->
  (x <=? y)%float = false <-> F2R y < F2R x.
Proof.
  intros Hx Hy. pose proof (leb_F2R x y Hx Hy) as H.
  destruct (x <=? y)%float; split; intros H'; try discriminate; try reflexivity.
  - assert (F2R x <= F2R y) by (apply H; reflexivity). lra.
  - apply Rnot_le_lt. intros Hlt. apply H in Hlt. discriminate.
Qed.

Lemma leb_nan (x y : number) :
  is_nan x = true -> (x <=? y)%float = false /\ (y <=? x)%float = false.
Proof.
  intros H. apply is_nan_Prim2SF in H. rewrite !FloatAxioms.leb_spec, H. unfold SFleb.
  split; [reflexivity|]. destruct (Prim2SF y); reflexivity.
Qed.
End FloatOrder.

Section Shift.
Local Open Scope R_scope.

Lemma located_bounds (u : R) (m : Z) (l : location) :
  located u m l -> IZR m <= u < IZR m + 1.
Proof. destruct l as [|[]]; cbn; lra. Qed.

Lemma located_record_of_loc (u : R) (m : Z) (l : location) :
  located u m l -> located_record u (shr_record_of_loc m l).
Proof. destruct l as [|[]]; cbn; auto. Qed.

(** One step to the right halves the number. *)
Lemma shr_1_located (u u' : R) (mrs : shr_record) :
  (0 <= shr_m mrs)%Z -> located_record u mrs -> 2 * u' = u ->
  located_record u' (shr_1 mrs) /\ (0 <= shr_m (shr_1 mrs))%Z.
Proof.
  destruct mrs as [m r s]. unfold located_record. cbn [shr_m].
  intros Hm Hu Hu'.
  destruct m as [|p|p]; [|destruct p as [p|p|]|lia];
    try (pose proof (Pos2Z.inj_xI p) as HpI; apply (f_equal IZR) in HpI;
         rewrite plus_IZR, mult_IZR in HpI);
    try (pose proof (Pos2Z.inj_xO p) as HpO; apply (f_equal IZR) in HpO;
         rewrite mult_IZR in HpO);
    destruct r, s; cbn in Hu |- *; split; try lia; lra.
Qed.

Lemma iter_pos_shr_1_located (p : positive) :
  forall (u u' : R) (mrs : shr_record),
    (0 <= shr_m mrs)%Z -> located_record u mrs -> u' * pow2 (Z.pos p) = u ->
    located_record u' (SpecFloat.iter_pos shr_1 p mrs) /\ (0 <= shr_m (SpecFloat.iter_pos shr_1 p mrs))%Z.
Proof.
  induction p as [p IH|p IH|]; intros u u' mrs Hm Hu Hu'; cbn [SpecFloat.iter_pos].
  - rewrite Pos2Z.inj_xI, Z.add_comm, pow2_add in Hu'.
    replace (2 * Z.pos p)%Z with (Z.pos p + Z.pos p)%Z in Hu' by lia.
    rewrite pow2_add in Hu'. rewrite pow2_1 in Hu'.
    destruct (shr_1_located u (u' * pow2 (Z.pos p) * pow2 (Z.pos p)) mrs Hm Hu) as [H1 H1']; [lra|].
    destruct (IH _ (u' * pow2 (Z.pos p)) _ H1' H1 eq_refl) as [H2 H2'].
    apply (IH _ u' _ H2' H2 eq_refl).
  - rewrite Pos2Z.inj_xO in Hu'.
    replace (2 * Z.pos p)%Z with (Z.pos p + Z.pos p)%Z in Hu' by lia.
    rewrite pow2_add in Hu'.
    destruct (IH u (u' * pow2 (Z.pos p)) mrs Hm Hu) as [H1 H1']; [lra|].
    apply (IH _ u' _ H1' H1 eq_refl).
  - rewrite pow2_1 in Hu'. apply (shr_1_located u u' mrs Hm Hu). lra.
Qed.

(** [shr_fexp] brings the exponent up to the one the format gives to a
    number of that size, and keeps the exponent that is already as large. *)
Lemma shr_fexp_located (v u : R) (m E : Z) (l : location) :
  (0 <= m)%Z -> located u m l -> v = u * pow2 E ->
  exists mrs1 u1,
    shr_fexp prec emax m E l = (mrs1, Z.max E (fexp prec emax (Zdigits2 m + E))) /\
    v = u1 * pow2 (Z.max E (fexp prec emax (Zdigits2 m + E))) /\
    located_record u1 mrs1 /\ (0 <= shr_m mrs1)%Z /\
    ((fexp prec emax (Zdigits2 m + E) <= E)%Z -> mrs1 = shr_record_of_loc m l /\ u1 = u).
Proof.
  intros Hm Hu Hv. unfold shr_fexp, shr. std_names.
  set (f := fexp prec emax (Zdigits2 m + E)).
  pose proof (located_record_of_loc u m l Hu) as Hr.
  assert (Hm' : (0 <= shr_m (shr_record_of_loc m l))%Z) by (destruct l as [|[]]; exact Hm).
  destruct (f - E)%Z as [|p|p] eqn:En.
  - exists (shr_record_of_loc m l), u. rewrite Z.max_l by lia. repeat split; auto.
  - assert (Hu1 : (u * / pow2 (Z.pos p)) * pow2 (Z.pos p) = u).
    { pose proof (pow2_pos (Z.pos p)). field. lra. }
    destruct (iter_pos_shr_1_located p u _ _ Hm' Hr Hu1) as [H1 H2].
    exists (SpecFloat.iter_pos shr_1 p (shr_record_of_loc m l)), (u * / pow2 (Z.pos p)).
    rewrite Z.max_r by lia. replace (E + Z.pos p)%Z with f by lia.
    split; [reflexivity|]. split.
    { replace f with (Z.pos p + E)%Z by lia. rewrite pow2_add, Hv.
      pose proof (pow2_pos (Z.pos p)). field. lra. }
    split; [exact H1|]. split; [exact H2|]. lia.
  - exists (shr_record_of_loc m l), u. rewrite Z.max_l by lia. repeat split; auto.
Qed.
End Shift.

Section Rounding.
Local Open Scope R_scope.

Ltac split_Rabs :=
  unfold Rabs in *; repeat (destruct Rcase_abs); try lra.

Lemma round_nearest_even_located (u : R) (m : Z) (l : location) :
  located u m l ->
  (m <= round_nearest_even m l <= m + 1)%Z /\
  - (1 / 2) <= IZR (round_nearest_even m l) - u <= 1 / 2 /\
  (l = loc_Exact -> round_nearest_even m l = m).
Proof.
  intros Hu. destruct l as [|[]]; cbn in Hu |- *; std_names.
  - split; [lia|]. split; [lra|reflexivity].
  - destruct (Z.even m); rewrite ?plus_IZR; split; try lia; (split; [lra|discriminate]).
  - split; [lia|]. split; [lra|discriminate].
  - rewrite plus_IZR. split; [lia|]. split; [lra|discriminate].
Qed.

Lemma nearest_integer (u : R) (n k : Z) :
  - (1 / 2) <= IZR n - u <= 1 / 2 -> Rabs (IZR n - u) <= Rabs (IZR k - u).
Proof.
  intros Hn. destruct (Z.eq_dec k n) as [->|Hne]; [lra|].
  assert (Hk : IZR k <= IZR n - 1 \/ IZR n + 1 <= IZR k).
  { destruct (Z_lt_le_dec k n).
    - left. rewrite <- minus_IZR. apply IZR_le. lia.
    - right. rewrite <- plus_IZR. apply IZR_le. lia. }
  split_Rabs.
Qed.

Lemma Zdigits2_pow2 (m : Z) : (0 <= m)%Z -> IZR m + 1 <= pow2 (Zdigits2 m).
Proof.
  intros Hm. rewrite pow2_IZR by apply Zdigits2_nonneg. rewrite <- plus_IZR.
  apply IZR_le. destruct (Z.eq_dec m 0%Z) as [->|Hne]; [cbn; lia|].
  pose proof (Zdigits2_bounds m ltac:(lia)). lia.
Qed.

Lemma Zdigits2_le (m k : Z) : (0 <= m < 2 ^ k)%Z -> (0 <= k)%Z -> (Zdigits2 m <= k)%Z.
Proof.
  intros Hm Hk. destruct (Z.eq_dec m 0%Z) as [->|Hne]; [cbn; lia|].
  pose proof (Zdigits2_bounds m ltac:(lia)) as [Hb _].
  destruct (Z_lt_le_dec k (Zdigits2 m)); [|lia].
  assert (2 ^ k <= 2 ^ (Zdigits2 m - 1))%Z by (apply Z.pow_le_mono_r; lia). lia.
Qed.

(** The second shift of [binary_round_aux] takes back the digit a carry
    has added, and changes nothing otherwise. *)
Lemma second_shift (m2 e1 : Z) :
  (0 <= m2 <= 2 ^ 53)%Z -> (-1074 <= e1)%Z ->
  exists mrs3 e3,
    shr_fexp prec emax m2 e1 loc_Exact = (mrs3, e3) /\
    IZR (shr_m mrs3) * pow2 e3 = IZR m2 * pow2 e1 /\
    (0 <= shr_m mrs3)%Z /\ (shr_m mrs3 = 0%Z <-> m2 = 0%Z) /\ (e1 <= e3 <= e1 + 1)%Z.
Proof.
  intros Hm He. destruct (Z.eq_dec m2 (2 ^ 53)%Z) as [->|Hne].
  - exists {| shr_m := 2 ^ 52; shr_r := false; shr_s := false |}, (e1 + 1)%Z.
    split; [|split; [|split; [|split]]].
    + unfold shr_fexp. change (Zdigits2 (2 ^ 53)) with 54%Z. rewrite fexp_eq.
      replace (Z.max (54 + e1 - 53) (-1074) - e1)%Z with 1%Z by lia. reflexivity.
    + cbn [shr_m]. rewrite pow2_succ. change (2 ^ 53)%Z with (2 * 2 ^ 52)%Z.
      rewrite mult_IZR. lra.
    + cbn. lia.
    + cbn. split; intros H; discriminate H.
    + lia.
  - destruct (shr_fexp_located (IZR m2 * pow2 e1) (IZR m2) m2 e1 loc_Exact)
      as (mrs3 & u3 & Hs & Hv & Hl & Hn & Hsame); [lia|reflexivity|reflexivity|].
    assert (Hd : (Zdigits2 m2 <= 53)%Z) by (apply Zdigits2_le; lia).
    rewrite fexp_eq in Hs, Hv, Hsame.
    destruct Hsame as [-> ->]; [lia|].
    rewrite Z.max_l in Hs by lia.
    exists (shr_record_of_loc m2 loc_Exact), e1. cbn [shr_record_of_loc shr_m].
    split; [exact Hs|]. split; [reflexivity|]. split; [lia|]. split; [tauto|lia].
Qed.
End Rounding.

Section RoundingSpec.
Local Open Scope R_scope.

Lemma Zdigits2_pow2_le (m : Z) : (0 < m)%Z -> pow2 (Zdigits2 m - 1) <= IZR m.
Proof.
  intros Hm. pose proof (Zdigits2_bounds m Hm) as [Hb _].
  assert (0 < Zdigits2 m)%Z by (destruct m; cbn; lia).
  rewrite pow2_IZR by lia. apply IZR_le. exact Hb.
Qed.

(** What [binary_round_aux] returns for a nonnegative real [v], given by a
    mantissa, an exponent and the place of [v] between that mantissa and
    the next one: the sign is the one asked for; a finite result is as
    close to [v] as a number of the format can be; the result is infinite
    for large [v] only; it is never NaN. *)
Theorem binary_round_aux_nearest (s : bool) (m E : Z) (l : location) (u v : R) :
  (0 <= m)%Z -> located u m l -> v = u * pow2 E ->
  (l = loc_Exact \/ (E <= fexp prec emax (Zdigits2 m + E))%Z) ->
  match binary_round_aux prec emax s m E l with
  | S754_zero s' => s' = s /\ nearest v 0
  | S754_finite s' m' e' => s' = s /\ nearest v (IZR (Z.pos m') * pow2 e')
  | S754_infinity s' => s' = s /\ pow2 971 <= v
  | S754_nan => False
  end.
Proof.
  intros Hm Hu Hv Hcase.
  destruct (shr_fexp_located v u m E l Hm Hu Hv) as (mrs1 & u1 & Hs1 & Hv1 & Hl1 & Hn1 & Hsame).
  pose proof (fexp_eq (Zdigits2 m + E)) as Hf.
  pose proof (Zdigits2_nonneg m) as Hd0.
  pose proof (Zdigits2_pow2 m Hm) as Hdu.
  assert (Hd1 : (0 < m)%Z -> pow2 (Zdigits2 m - 1) <= IZR m) by apply Zdigits2_pow2_le.
  assert (Hdz : m = 0%Z -> Zdigits2 m = 0%Z) by (intros ->; reflexivity).
  revert Hs1 Hv1 Hsame Hcase Hf Hd0 Hdu Hd1 Hdz.
  generalize (Zdigits2 m). intros d. generalize (fexp prec emax (d + E)). intros f.
  intros Hs1 Hv1 Hsame Hcase Hf Hd0 Hdu Hd1 Hdz.
  set (e1 := Z.max E f) in *.
  unfold located_record in Hl1.
  destruct (round_nearest_even_located u1 _ _ Hl1) as (Hm2 & Hr2 & Hex2).
  pose proof (located_bounds _ _ _ Hl1) as Hb1.
  pose proof (located_bounds _ _ _ Hu) as Hbu.
  pose proof (pow2_pos E) as HpE. pose proof (pow2_pos e1) as Hpe1.
  assert (He1 : (-1074 <= e1)%Z) by lia.
  assert (Hu1 : u1 < pow2 53).
  { assert (Hle : pow2 (d + E) <= pow2 (e1 + 53)) by (apply pow2_le; lia).
    rewrite !pow2_add in Hle. pose proof (pow2_pos 53).
    assert (u * pow2 E < pow2 d * pow2 E) by nra. nra. }
  assert (Hm1 : (shr_m mrs1 < 2 ^ 53)%Z).
  { apply lt_IZR. rewrite <- pow2_IZR by lia. lra. }
  destruct (second_shift (round_nearest_even (shr_m mrs1) (loc_of_shr_record mrs1)) e1)
    as (mrs3 & e3 & Hs3 & Hv3 & Hn3 & Hz3 & He3); [lia|lia|].
  unfold binary_round_aux. rewrite Hs1, Hs3.
  revert Hm2 Hr2 Hex2 Hs3 Hv3 Hz3.
  generalize (round_nearest_even (shr_m mrs1) (loc_of_shr_record mrs1)). intros m2.
  intros Hm2 Hr2 Hex2 Hs3 Hv3 Hz3.
  assert (Hb : (E <= f)%Z \/ ((f < E)%Z /\ l = loc_Exact)).
  { destruct Hcase as [->|H]; [|left; exact H].
    destruct (Z_le_gt_dec E f); [left; assumption|right; split; [lia|reflexivity]]. }
  (* the number is a positive one as soon as the exponent is above the least one *)
  assert (Hpos : (E <= f)%Z -> (-1074 < f)%Z ->
            (0 < m)%Z /\ f = (d + E - 53)%Z /\ pow2 (f + 52) <= v).
  { intros HEf Hfe. assert (Hmp : (0 < m)%Z).
    { destruct (Z.eq_dec m 0%Z) as [Hz|Hnz]; [|lia]. specialize (Hdz Hz). lia. }
    split; [exact Hmp|]. split; [lia|].
    replace (f + 52)%Z with ((d - 1) + E)%Z by lia. rewrite pow2_add.
    specialize (Hd1 Hmp). rewrite Hv. pose proof (pow2_pos (d - 1)). nra. }
  (* no number of the format is closer *)
  assert (Hnear : nearest v (IZR m2 * pow2 e1)).
  { intros w Hw. destruct Hb as [HEf|[HfE ->]].
    - assert (e1 = f) by lia.
      assert (Hgrid : forall k : Z,
                Rabs (IZR m2 * pow2 e1 - v) <= Rabs (IZR k * pow2 e1 - v)).
      { intros k.
        replace (IZR m2 * pow2 e1 - v) with ((IZR m2 - u1) * pow2 e1) by (rewrite Hv1; ring).
        replace (IZR k * pow2 e1 - v) with ((IZR k - u1) * pow2 e1) by (rewrite Hv1; ring).
        rewrite !Rabs_mult. apply Rmult_le_compat_r; [apply Rabs_pos|].
        apply nearest_integer. exact Hr2. }
      destruct Hw as [->|(mw & ew & Vw & ->)].
      { specialize (Hgrid 0%Z). replace (IZR 0 * pow2 e1) with 0 in Hgrid by ring.
        exact Hgrid. }
      apply valid_finite in Vw as [Hw1 Hw2].
      pose proof (digits2_bounds mw) as [_ Hmw].
      destruct (Z_le_gt_dec e1 ew) as [Hge|Hlt].
      + (* a multiple of the same unit *)
        assert (HW : IZR (Z.pos mw) * pow2 ew = IZR (Z.pos mw * 2 ^ (ew - e1)) * pow2 e1).
        { rewrite mult_IZR, <- pow2_IZR by lia.
          replace ew with ((ew - e1) + e1)%Z at 1 by lia. rewrite pow2_add. ring. }
        rewrite HW. apply Hgrid.
      + (* a number of a lower binade *)
        destruct (Hpos HEf ltac:(lia)) as (Hmp & Hfd & Hvl).
        replace (f + 52)%Z with (52 + e1)%Z in Hvl by lia. rewrite pow2_add in Hvl.
        pose proof (pow2_pos 52) as Hp52.
        assert (Hu52 : pow2 52 <= u1) by nra.
        assert (Hm1' : (2 ^ 52 <= shr_m mrs1)%Z).
        { assert (IZR (2 ^ 52) < IZR (shr_m mrs1 + 1)).
          { rewrite plus_IZR, <- pow2_IZR by lia. lra. }
          apply lt_IZR in H0. lia. }
        assert (Hm2' : pow2 52 <= IZR m2).
        { rewrite pow2_IZR by lia. apply IZR_le. lia. }
        assert (Hmw' : IZR (Z.pos mw) <= 2 * pow2 52 - 1).
        { replace (2 * pow2 52) with (pow2 (52 + 1)) by apply pow2_succ.
          rewrite pow2_IZR by lia. rewrite <- minus_IZR. apply IZR_le.
          assert (2 ^ Z.pos (digits2_pos mw) <= 2 ^ 53)%Z by (apply Z.pow_le_mono_r; lia).
          change (52 + 1)%Z with 53%Z. lia. }
        assert (Hew : 2 * pow2 ew <= pow2 e1).
        { rewrite <- pow2_succ. apply pow2_le. lia. }
        pose proof (pow2_pos ew) as Hpew.
        assert (0 < IZR (Z.pos mw)) by (apply IZR_lt; lia).
        assert (HW : IZR (Z.pos mw) * pow2 ew <= pow2 52 * pow2 e1 - pow2 e1 / 2) by nra.
        assert (HR : - (pow2 e1 / 2) <= IZR m2 * pow2 e1 - v <= pow2 e1 / 2).
        { rewrite Hv1. nra. }
        assert (HR' : pow2 52 * pow2 e1 <= IZR m2 * pow2 e1) by nra.
        unfold Rabs. repeat destruct Rcase_abs; lra.
    - (* the number is given exactly, and is kept *)
      destruct Hsame as [-> ->]; [lia|].
      cbn [shr_record_of_loc loc_of_shr_record shr_m] in *.
      specialize (Hex2 eq_refl). subst m2. cbn in Hu. subst u.
      replace e1 with E by lia. rewrite Hv.
      replace (IZR m * pow2 E - IZR m * pow2 E) with 0 by ring.
      rewrite Rabs_R0. apply Rabs_pos. }
  destruct (shr_m mrs3) as [|m3|m3] eqn:Em3.
  - split; [reflexivity|]. assert (Hz : m2 = 0%Z) by (apply Hz3; reflexivity).
    rewrite Hz in Hnear. replace (0 * pow2 e1) with 0 in Hnear by ring. exact Hnear.
  - std_names. change (emax - prec)%Z with 971%Z.
    destruct (Z.leb_spec e3 971) as [Hfin|Hov].
    + split; [reflexivity|]. rewrite Hv3. exact Hnear.
    + split; [reflexivity|].
      destruct Hb as [HEf|[HfE ->]].
      * destruct (Hpos HEf ltac:(lia)) as (Hmp & Hfd & Hvl).
        assert (pow2 971 <= pow2 (f + 52)) by (apply pow2_le; lia). lra.
      * destruct Hsame as [-> ->]; [lia|].
        cbn [shr_record_of_loc loc_of_shr_record shr_m] in *.
        specialize (Hex2 eq_refl). subst m2. cbn in Hu. subst u.
        assert (Hmp : (0 < m)%Z).
        { destruct (Z.eq_dec m 0%Z) as [Hz|Hnz]; [|lia].
          apply Hz3 in Hz. discriminate Hz. }
        assert (1 <= IZR m) by (apply IZR_le; lia).
        assert (pow2 971 <= pow2 E) by (apply pow2_le; lia). nra.
  - lia.
Qed.
End RoundingSpec.

Section RoundsTo.
Local Open Scope R_scope.

Lemma representable_range (w : R) : representable w -> 0 <= w < pow2 1024.
Proof.
  intros [->|(m & e & V & ->)].
  - pose proof (pow2_pos 1024). lra.
  - pose proof (valid_finite_lt _ _ _ V). lra.
Qed.

Lemma representable_SF2R (x : spec_float) :
  valid_binary x = true -> nonneg_finite x -> representable (SF2R x).
Proof.
  destruct x as [[]|[]| |[] m e]; cbn; try contradiction; intros V _.
  - left. reflexivity.
  - right. exists m, e. split; [exact V|reflexivity].
Qed.

Lemma nearest_refl (v : R) : 0 <= v -> nearest v v.
Proof.
  intros _ w _. replace (v - v) with 0 by ring. rewrite Rabs_R0. apply Rabs_pos.
Qed.

Lemma binary_round_aux_rounds_to (m E : Z) (l : location) (u v : R) :
  (0 <= m)%Z -> located u m l -> v = u * pow2 E ->
  (l = loc_Exact \/ (E <= fexp prec emax (Zdigits2 m + E))%Z) ->
  rounds_to v (binary_round_aux prec emax false m E l).
Proof.
  intros Hm Hu Hv Hc.
  pose proof (binary_round_aux_nearest false m E l u v Hm Hu Hv Hc) as H.
  destruct (binary_round_aux prec emax false m E l) as [s|s| |s m' e'];
    try contradiction; destruct H as [-> H]; exact H.
Qed.

(** A rounding of [v] is not below a number of the format that is not
    above [v]. *)
Lemma rounds_to_ge (v w : R) (r : spec_float) :
  rounds_to v r -> representable w -> w <= v -> w <= SF2R r.
Proof.
  intros Hr Hw Hle. pose proof (representable_range w Hw) as Hrange.
  destruct r as [[]|[]| |[] m e]; cbn in Hr |- *; try contradiction.
  - specialize (Hr w Hw). unfold Rabs in Hr. repeat destruct Rcase_abs; lra.
  - change (pow2 emax) with (pow2 1024). lra.
  - specialize (Hr w Hw). unfold Rabs in Hr. repeat destruct Rcase_abs; lra.
Qed.

(** A rounding of [v] is not above a number of the format that is not
    below [v]. *)
Lemma rounds_to_le (v w : R) (r : spec_float) :
  rounds_to v r -> representable w -> v <= w -> w < pow2 971 -> SF2R r <= w.
Proof.
  intros Hr Hw Hle Hb. pose proof (representable_range w Hw) as Hrange.
  destruct r as [[]|[]| |[] m e]; cbn in Hr |- *; try contradiction.
  - lra.
  - lra.
  - specialize (Hr w Hw). unfold Rabs in Hr. repeat destruct Rcase_abs; lra.
Qed.

Lemma rounds_to_finite (v : R) (r : spec_float) :
  rounds_to v r -> v < pow2 971 -> nonneg_finite r /\ nearest v (SF2R r).
Proof.
  intros Hr Hv. destruct r as [[]|[]| |[] m e]; cbn in Hr |- *; try contradiction;
    try lra; split; auto.
Qed.

(** A number of the format is rounded to itself. *)
Lemma rounds_to_exact (v : R) (r : spec_float) :
  rounds_to v r -> representable v -> v < pow2 971 -> SF2R r = v.
Proof.
  intros Hr Hv Hb. destruct (rounds_to_finite v r Hr Hb) as [_ Hn].
  specialize (Hn v Hv). replace (v - v) with 0 in Hn by ring. rewrite Rabs_R0 in Hn.
  unfold Rabs in Hn. destruct Rcase_abs; lra.
Qed.

(** Rounding keeps the order. *)
Lemma rounds_to_mono (v v' : R) (r r' : spec_float) :
  rounds_to v r -> rounds_to v' r' ->
  valid_binary r = true -> valid_binary r' = true ->
  v < v' -> v' < pow2 971 -> SF2R r <= SF2R r'.
Proof.
  intros Hr Hr' V V' Hlt Hb.
  destruct (rounds_to_finite v r Hr ltac:(lra)) as [Hf Hn].
  destruct (rounds_to_finite v' r' Hr' Hb) as [Hf' Hn'].
  specialize (Hn _ (representable_SF2R r' V' Hf')).
  specialize (Hn' _ (representable_SF2R r V Hf)).
  unfold Rabs in Hn, Hn'. repeat destruct Rcase_abs; lra.
Qed.

(** The product of two nonnegative finite numbers. *)
Lemma SFmul_rounds_to (x y : spec_float) :
  nonneg_finite x -> nonneg_finite y ->
  rounds_to (SF2R x * SF2R y) (SF64mul x y).
Proof.
  destruct x as [[]|[]| |[] mx ex], y as [[]|[]| |[] my ey]; cbn [nonneg_finite];
    try contradiction; intros _ _; cbn [SF64mul SFmul SF2R xorb rounds_to];
    try (replace (0 * _) with 0 by ring); try (replace (_ * 0) with 0 by ring);
    try (apply nearest_refl; lra).
  unfold SF64mul, SFmul. cbn [xorb]. std_names.
  apply (binary_round_aux_rounds_to _ _ _ (IZR (Z.pos (mx * my)))).
  - lia.
  - reflexivity.
  - rewrite Pos2Z.inj_mul, mult_IZR, pow2_add. ring.
  - left. reflexivity.
Qed.
End RoundsTo.

Section Division.
Local Open Scope R_scope.

(** The place of [q + r / d] between [q] and [q + 1], as the division
    computes it from the remainder [r] and the divisor [d]. *)
Lemma new_location_located (d q r : Z) :
  (0 <= r < d)%Z -> located (IZR q + IZR r / IZR d) q (new_location d r).
Proof.
  intros Hr. assert (Hd : 0 < IZR d) by (apply IZR_lt; lia).
  assert (Hr0 : 0 <= IZR r) by (apply IZR_le; lia).
  assert (Hrd : IZR r < IZR d) by (apply IZR_lt; lia).
  assert (Hfrac : forall c : R, (IZR r / IZR d < c <-> IZR r < c * IZR d) /\
                           (c < IZR r / IZR d <-> c * IZR d < IZR r)).
  { intros c. unfold Rdiv. split; split; intros H.
    - apply (Rmult_lt_compat_r (IZR d)) in H; [|exact Hd].
      rewrite Rmult_assoc, Rinv_l, Rmult_1_r in H by lra. exact H.
    - apply (Rmult_lt_reg_r (IZR d)); [exact Hd|].
      rewrite Rmult_assoc, Rinv_l, Rmult_1_r by lra. exact H.
    - apply (Rmult_lt_compat_r (IZR d)) in H; [|exact Hd].
      rewrite (Rmult_assoc (IZR r)), Rinv_l, Rmult_1_r in H by lra. exact H.
    - apply (Rmult_lt_reg_r (IZR d)); [exact Hd|].
      rewrite (Rmult_assoc (IZR r)), Rinv_l, Rmult_1_r by lra. exact H. }
  pose proof (Hfrac (1 / 2)) as [Hhalf1 Hhalf2]. pose proof (Hfrac 1) as [Hone _].
  pose proof (Hfrac 0) as [_ Hzero].
  unfold new_location, new_location_even, new_location_odd. std_names.
  destruct (Z.even d) eqn:Ev; cbv beta; destruct (Z.eqb_spec r 0) as [->|Hne];
    cbn [located]; try (unfold Rdiv; rewrite Rmult_0_l; lra).
  - assert (Hrp : 0 < IZR r) by (apply IZR_lt; lia).
    destruct (Z.compare_spec (2 * r) d) as [Heq|Hlt|Hgt]; cbn [located].
    + apply (f_equal IZR) in Heq. rewrite mult_IZR in Heq.
      assert (IZR r / IZR d = 1 / 2) by (rewrite <- Heq; field; lra). lra.
    + apply IZR_lt in Hlt. rewrite mult_IZR in Hlt.
      assert (IZR r / IZR d < 1 / 2) by (apply Hhalf1; lra).
      assert (0 < IZR r / IZR d) by (apply Hzero; lra). lra.
    + apply IZR_lt in Hgt. rewrite mult_IZR in Hgt.
      assert (1 / 2 < IZR r / IZR d) by (apply Hhalf2; lra).
      assert (IZR r / IZR d < 1) by (apply Hone; lra). lra.
  - assert (Hrp : 0 < IZR r) by (apply IZR_lt; lia).
    assert (Hodd : (2 * r <> d)%Z).
    { intros <-. rewrite Z.even_mul in Ev. discriminate Ev. }
    destruct (Z.compare_spec (2 * r + 1) d) as [Heq|Hlt|Hgt]; cbn [located].
    + assert (Hlt : (2 * r < d)%Z) by lia.
      apply IZR_lt in Hlt. rewrite mult_IZR in Hlt.
      assert (IZR r / IZR d < 1 / 2) by (apply Hhalf1; lra).
      assert (0 < IZR r / IZR d) by (apply Hzero; lra). lra.
    + assert (Hlt' : (2 * r < d)%Z) by lia.
      apply IZR_lt in Hlt'. rewrite mult_IZR in Hlt'.
      assert (IZR r / IZR d < 1 / 2) by (apply Hhalf1; lra).
      assert (0 < IZR r / IZR d) by (apply Hzero; lra). lra.
    + assert (Hgt' : (d < 2 * r)%Z) by lia.
      apply IZR_lt in Hgt'. rewrite mult_IZR in Hgt'.
      assert (1 / 2 < IZR r / IZR d) by (apply Hhalf2; lra).
      assert (IZR r / IZR d < 1) by (apply Hone; lra). lra.
Qed.

(** The quotient of two mantissas, as [SFdiv_core_binary] prepares it for
    the rounding. *)
Lemma SFdiv_core_binary_located (m1 m2 : positive) (e1 e2 : Z) :
  exists q e' l,
    SFdiv_core_binary prec emax (Z.pos m1) e1 (Z.pos m2) e2 = (q, e', l) /\
    (0 <= q)%Z /\
    (exists u, located u q l /\
       IZR (Z.pos m1) * pow2 e1 / (IZR (Z.pos m2) * pow2 e2) = u * pow2 e') /\
    (e' <= fexp prec emax (Zdigits2 q + e'))%Z.
Proof.
  unfold SFdiv_core_binary. std_names.
  pose proof (digits2_bounds m1) as Hd1. pose proof (digits2_bounds m2) as Hd2.
  cbn [Zdigits2]. rewrite !fexp_eq.
  set (d1 := Z.pos (digits2_pos m1)) in *. set (d2 := Z.pos (digits2_pos m2)) in *.
  set (e' := Z.min (Z.max (d1 + e1 - (d2 + e2) - 53) (-1074)) (e1 - e2)).
  set (s := (e1 - e2 - e')%Z).
  assert (Hs : (0 <= s)%Z) by lia.
  assert (Hm' : match s with
                | Z.pos _ => Z.shiftl (Z.pos m1) s
                | 0%Z => Z.pos m1
                | Z.neg _ => 0%Z
                end = (Z.pos m1 * 2 ^ s)%Z).
  { destruct s as [|p|p] eqn:Es; [cbn; lia| |lia].
    rewrite Z.shiftl_mul_pow2 by lia. reflexivity. }
  rewrite Hm'. clear Hm'.
  assert (Hpow : (0 < 2 ^ s)%Z) by (apply Z.pow_pos_nonneg; lia).
  pose proof (Z_div_mod (Z.pos m1 * 2 ^ s) (Z.pos m2) ltac:(lia)) as Hdiv.
  destruct (Z.div_eucl (Z.pos m1 * 2 ^ s) (Z.pos m2)) as [q r].
  destruct Hdiv as [Hqr Hr].
  assert (Hq : (0 <= q)%Z) by nia.
  exists q, e', (new_location (Z.pos m2) r).
  split; [reflexivity|]. split; [exact Hq|]. split.
  - exists (IZR q + IZR r / IZR (Z.pos m2)). split.
    + apply new_location_located. exact Hr.
    + assert (H2 : 0 < IZR (Z.pos m2)) by (apply IZR_lt; lia).
      pose proof (pow2_pos e2). pose proof (pow2_pos e'). pose proof (pow2_pos s).
      apply (f_equal IZR) in Hqr. rewrite plus_IZR, !mult_IZR, <- pow2_IZR in Hqr by lia.
      replace e1 with (s + e' + e2)%Z at 1 by lia. rewrite !pow2_add.
      field_simplify; [|lra|lra].
      replace (IZR (Z.pos m1) * pow2 s * pow2 e') with
        ((IZR (Z.pos m2) * IZR q + IZR r) * pow2 e') by (rewrite <- Hqr; ring).
      field. lra.
  - rewrite fexp_eq.
    assert (Hdq : (d1 + s - d2 <= Zdigits2 q)%Z).
    { assert (Hq1 : (q + 1 <= 2 ^ Zdigits2 q)%Z).
      { destruct (Z.eq_dec q 0%Z) as [->|Hne]; [cbn; lia|].
        pose proof (Zdigits2_bounds q ltac:(lia)). lia. }
      pose proof (Zdigits2_nonneg q) as Hdq0.
      destruct (Z_lt_le_dec (Zdigits2 q) (d1 + s - d2)) as [Hlt|]; [exfalso|lia].
      assert (Hup : (Z.pos m1 * 2 ^ s < 2 ^ (Zdigits2 q + d2))%Z).
      { rewrite Z.pow_add_r by lia. nia. }
      assert (Hlow : (2 ^ (d1 - 1 + s) <= Z.pos m1 * 2 ^ s)%Z).
      { rewrite Z.pow_add_r by lia. nia. }
      assert (2 ^ (Zdigits2 q + d2) <= 2 ^ (d1 - 1 + s))%Z
        by (apply Z.pow_le_mono_r; lia).
      lia. }
    lia.
Qed.

(** The quotient of a nonnegative finite number by a positive finite one. *)
Lemma SFdiv_rounds_to (x : spec_float) (my : positive) (ey : Z) :
  nonneg_finite x ->
  rounds_to (SF2R x / SF2R (S754_finite false my ey))
    (SF64div x (S754_finite false my ey)).
Proof.
  destruct x as [[]|[]| |[] mx ex]; cbn [nonneg_finite]; try contradiction; intros _.
  - cbn [SF64div SFdiv SF2R xorb rounds_to]. unfold Rdiv. rewrite Rmult_0_l.
    apply nearest_refl. lra.
  - unfold SF64div, SFdiv. cbn [xorb SF2R].
    destruct (SFdiv_core_binary_located mx my ex ey)
      as (q & e' & l & -> & Hq & (u & Hu & Hv) & He).
    apply (binary_round_aux_rounds_to _ _ _ u); auto.
Qed.
End Division.

Section Normalize.
Local Open Scope R_scope.

Lemma shl_align_value (mx : positive) (ex ex' : Z) :
  IZR (Z.pos (fst (shl_align mx ex ex'))) * pow2 (snd (shl_align mx ex ex'))
    = IZR (Z.pos mx) * pow2 ex.
Proof.
  unfold shl_align. std_names. destruct (ex' - ex)%Z as [|p|p] eqn:E; cbn [fst snd]; try reflexivity.
  pose proof (shift_pos_correct p mx) as Hs. unfold shift_pos in Hs.
  rewrite Hs, Z.pow_pos_fold, mult_IZR, <- pow2_IZR by lia.
  replace (pow2 ex) with (pow2 (Z.pos p + ex')) by (f_equal; lia). rewrite pow2_add. ring.
Qed.

(** [binary_round] rounds the exact value it is given. *)
Lemma binary_round_nearest (s : bool) (m : positive) (e : Z) :
  match binary_round prec emax s m e with
  | S754_zero s' => s' = s /\ nearest (IZR (Z.pos m) * pow2 e) 0
  | S754_finite s' m' e' => s' = s /\ nearest (IZR (Z.pos m) * pow2 e) (IZR (Z.pos m') * pow2 e')
  | S754_infinity s' => s' = s /\ pow2 971 <= IZR (Z.pos m) * pow2 e
  | S754_nan => False
  end.
Proof.
  unfold binary_round.
  pose proof (shl_align_value m e (fexp prec emax (Z.pos (digits2_pos m) + e))) as Hv.
  destruct (shl_align m e (fexp prec emax (Z.pos (digits2_pos m) + e))) as [mz ez].
  cbn [fst snd] in Hv.
  apply (binary_round_aux_nearest s (Z.pos mz) ez loc_Exact (IZR (Z.pos mz))).
  - lia.
  - reflexivity.
  - symmetry. exact Hv.
  - left. reflexivity.
Qed.

Lemma valid_least : valid_binary (S754_finite false 1 (-1074)) = true.
Proof. reflexivity. Qed.

(** What is at least the least positive number of the format is not
    rounded to zero. *)
Lemma binary_round_not_zero (s s' : bool) (m : positive) (e : Z) :
  (-1074 <= e)%Z -> binary_round prec emax s m e <> S754_zero s'.
Proof.
  intros He Hz. pose proof (binary_round_nearest s m e) as H. rewrite Hz in H.
  destruct H as [_ H].
  assert (Hw : representable (IZR 1 * pow2 (-1074))).
  { right. exists 1%positive, (-1074)%Z. split; [exact valid_least|reflexivity]. }
  specialize (H _ Hw).
  assert (1 <= IZR (Z.pos m)) by (apply IZR_le; lia).
  pose proof (pow2_le (-1074) e He). pose proof (pow2_pos (-1074)).
  assert (pow2 (-1074) <= IZR (Z.pos m) * pow2 e) by nra.
  unfold Rabs in H. repeat destruct Rcase_abs; lra.
Qed.

(** The integers below [2^53] are numbers of the format. *)
Lemma representable_integer (n : Z) : (0 <= n < 2 ^ 53)%Z -> representable (IZR n).
Proof.
  intros Hn. destruct (Z.eq_dec n 0%Z) as [->|Hne]; [left; reflexivity|right].
  pose proof (Zdigits2_bounds n ltac:(lia)) as Hb.
  pose proof (Zdigits2_le n 53 ltac:(lia) ltac:(lia)) as Hd.
  assert (Hd0 : (0 < Zdigits2 n)%Z) by (destruct n; cbn; lia).
  set (d := Zdigits2 n) in *.
  assert (Hp : (0 < 2 ^ (53 - d))%Z) by (apply Z.pow_pos_nonneg; lia).
  assert (Hm : (2 ^ 52 <= n * 2 ^ (53 - d) < 2 ^ 53)%Z).
  { assert (E52 : (2 ^ 52 = 2 ^ (d - 1) * 2 ^ (53 - d))%Z)
      by (rewrite <- Z.pow_add_r by lia; f_equal; lia).
    assert (E53 : (2 ^ 53 = 2 ^ d * 2 ^ (53 - d))%Z)
      by (rewrite <- Z.pow_add_r by lia; f_equal; lia).
    rewrite E52, E53. nia. }
  exists (Z.to_pos (n * 2 ^ (53 - d))), (d - 53)%Z. split.
  - apply valid_finite.
    assert (Hdig : Z.pos (digits2_pos (Z.to_pos (n * 2 ^ (53 - d)))) = 53%Z).
    { pose proof (Zdigits2_unique (n * 2 ^ (53 - d)) 53 Hm ltac:(lia)) as Hu.
      destruct (n * 2 ^ (53 - d))%Z as [|p|p] eqn:Ep; try lia. exact Hu. }
    rewrite Hdig. lia.
  - rewrite Z2Pos.id by lia. rewrite mult_IZR, <- pow2_IZR by lia.
    rewrite Rmult_assoc, <- pow2_add. replace (53 - d + (d - 53))%Z with 0%Z by lia.
    rewrite pow2_0. ring.
Qed.

(** [binary_normalize] of a positive integer below [2^53] is that integer. *)
Lemma binary_normalize_integer (n : Z) :
  (0 < n < 2 ^ 53)%Z ->
  nonneg_finite (binary_normalize prec emax n 0 false) /\
  SF2R (binary_normalize prec emax n 0 false) = IZR n.
Proof.
  intros Hn. destruct n as [|p|p]; try lia. cbn [binary_normalize].
  pose proof (binary_round_nearest false p 0) as H.
  pose proof (binary_round_not_zero false false p 0 ltac:(lia)) as Hnz.
  rewrite pow2_0, Rmult_1_r in H.
  assert (Hb : IZR (Z.pos p) < pow2 971).
  { assert (pow2 53 <= pow2 971) by (apply pow2_le; lia).
    assert (IZR (Z.pos p) < pow2 53) by (rewrite pow2_IZR by lia; apply IZR_lt; lia). lra. }
  assert (Hr : rounds_to (IZR (Z.pos p)) (binary_round prec emax false p 0)).
  { destruct (binary_round prec emax false p 0) as [s'|s'| |s' m' e'];
      try contradiction; destruct H as [-> H]; exact H. }
  split.
  - apply (rounds_to_finite _ _ Hr Hb).
  - apply rounds_to_exact; [exact Hr| |exact Hb].
    apply representable_integer. lia.
Qed.
End Normalize.

Section Numbers.
Local Open Scope R_scope.

Lemma nonneg_not_nan (x : number) : nonneg x -> is_nan x = false.
Proof.
  unfold nonneg. intros H. apply is_nan_false. intros E. rewrite E in H. exact H.
Qed.

Lemma nonneg_F2R (x : number) : nonneg x -> 0 <= F2R x <= pow2 1024.
Proof.
  unfold nonneg, F2R. pose proof (Prim2SF_valid x) as V. pose proof (pow2_pos 1024).
  destruct (Prim2SF x) as [[]|[]| |[] m e]; cbn [SF2R]; try contradiction; intros _;
    change (pow2 emax) with (pow2 1024); try lra.
  pose proof (valid_finite_lt _ _ _ V). lra.
Qed.

Lemma nonneg_finite_iff (x : number) :
  nonneg x -> (nonneg_finite (Prim2SF x) <-> F2R x < pow2 1024).
Proof.
  unfold nonneg, F2R. pose proof (Prim2SF_valid x) as V. pose proof (pow2_pos 1024).
  destruct (Prim2SF x) as [[]|[]| |[] m e]; cbn [SF2R nonneg_finite]; try contradiction;
    intros _; change (pow2 emax) with (pow2 1024); split; try tauto; try lra.
  pose proof (valid_finite_lt _ _ _ V). lra.
Qed.

Lemma nonneg_infinite (x : number) :
  nonneg x -> ~ F2R x < pow2 1024 -> Prim2SF x = S754_infinity false.
Proof.
  intros Hn Hx. pose proof (nonneg_finite_iff x Hn) as Hi. unfold nonneg in Hn.
  destruct (Prim2SF x) as [[]|[]| |[] m e]; cbn in Hn, Hi; try contradiction;
    try reflexivity; tauto.
Qed.

(** Two nonnegative numbers with the same value are the same number. *)
Lemma nonneg_inj (x y : number) : nonneg x -> nonneg y -> F2R x = F2R y -> x = y.
Proof.
  intros Hx Hy Hv. apply Prim2SF_inj.
  destruct (compare_F2R x y (nonneg_not_nan x Hx) (nonneg_not_nan y Hy)) as (c & Hc & Hr).
  assert (c = Eq) by (destruct c; [reflexivity|lra|lra]). subst c. clear Hr Hv.
  unfold nonneg in Hx, Hy.
  destruct (Prim2SF x) as [[]|[]| |[] mx ex], (Prim2SF y) as [[]|[]| |[] my ey];
    try contradiction; cbn in Hc; try discriminate; try reflexivity.
  std_names. destruct (Z.compare_spec ex ey) as [->| |]; try discriminate.
  rewrite Pos.compare_cont_spec in Hc. cbn in Hc.
  destruct (Pos.compare_spec mx my) as [->| |]; try discriminate. reflexivity.
Qed.

Lemma abs_nonneg (x : number) : is_nan x = false -> nonneg (Math.abs x).
Proof.
  intros H%is_nan_false. unfold nonneg, Math.abs. rewrite FloatAxioms.abs_spec.
  destruct (Prim2SF x) as [[]|[]| |[] m e]; cbn; auto.
Qed.

Lemma rounds_to_nonneg (v : R) (r : number) : rounds_to v (Prim2SF r) -> nonneg r.
Proof.
  unfold nonneg. destruct (Prim2SF r) as [[]|[]| |[] m e]; cbn; auto.
Qed.
End Numbers.

Section Operations.
Local Open Scope R_scope.

Lemma positive_finite_F2R (c : number) : positive_finite c -> 0 < F2R c.
Proof.
  unfold positive_finite, F2R. pose proof (Prim2SF_valid c) as V.
  destruct (Prim2SF c) as [[]|[]| |[] m e]; try contradiction. intros _.
  pose proof (valid_finite_lt _ _ _ V). cbn [SF2R]. lra.
Qed.

(** The quotient of a nonnegative number by a positive constant. *)
Lemma div_rounds_to (x c : number) :
  nonneg x -> positive_finite c ->
  nonneg (x / c) /\
  (F2R x < pow2 1024 -> rounds_to (F2R x / F2R c) (Prim2SF (x / c))) /\
  (~ F2R x < pow2 1024 -> Prim2SF (x / c) = S754_infinity false).
Proof.
  intros Hx Hc.
  assert (Hfin : F2R x < pow2 1024 -> rounds_to (F2R x / F2R c) (Prim2SF (x / c))).
  { intros Hlt. apply (nonneg_finite_iff x Hx) in Hlt.
    rewrite FloatAxioms.div_spec. unfold positive_finite in Hc. unfold F2R.
    destruct (Prim2SF c) as [[]|[]| |[] mc ec]; try contradiction.
    apply SFdiv_rounds_to. exact Hlt. }
  assert (Hinf : ~ F2R x < pow2 1024 -> Prim2SF (x / c) = S754_infinity false).
  { intros Hnlt. rewrite FloatAxioms.div_spec, (nonneg_infinite x Hx Hnlt).
    unfold positive_finite in Hc.
    destruct (Prim2SF c) as [[]|[]| |[] mc ec]; try contradiction. reflexivity. }
  split; [|split; assumption].
  destruct (Rlt_dec (F2R x) (pow2 1024)) as [Hlt|Hnlt].
  - apply (rounds_to_nonneg _ _ (Hfin Hlt)).
  - unfold nonneg. rewrite (Hinf Hnlt). exact I.
Qed.

(** The product of a nonnegative number and a positive constant. *)
Lemma mul_rounds_to (x c : number) :
  nonneg x -> positive_finite c ->
  nonneg (x * c) /\
  (F2R x < pow2 1024 -> rounds_to (F2R x * F2R c) (Prim2SF (x * c))) /\
  (~ F2R x < pow2 1024 -> Prim2SF (x * c) = S754_infinity false).
Proof.
  intros Hx Hc.
  assert (Hfin : F2R x < pow2 1024 -> rounds_to (F2R x * F2R c) (Prim2SF (x * c))).
  { intros Hlt. apply (nonneg_finite_iff x Hx) in Hlt.
    rewrite FloatAxioms.mul_spec. unfold positive_finite in Hc. unfold F2R.
    destruct (Prim2SF c) as [[]|[]| |[] mc ec] eqn:Ec; try contradiction.
    apply SFmul_rounds_to; [exact Hlt|exact I]. }
  assert (Hinf : ~ F2R x < pow2 1024 -> Prim2SF (x * c) = S754_infinity false).
  { intros Hnlt. rewrite FloatAxioms.mul_spec, (nonneg_infinite x Hx Hnlt).
    unfold positive_finite in Hc.
    destruct (Prim2SF c) as [[]|[]| |[] mc ec]; try contradiction. reflexivity. }
  split; [|split; assumption].
  destruct (Rlt_dec (F2R x) (pow2 1024)) as [Hlt|Hnlt].
  - apply (rounds_to_nonneg _ _ (Hfin Hlt)).
  - unfold nonneg. rewrite (Hinf Hnlt). exact I.
Qed.

Lemma representable_F2R (x : number) :
  nonneg x -> F2R x < pow2 1024 -> representable (F2R x).
Proof.
  intros Hx Hlt. apply representable_SF2R; [apply Prim2SF_valid|].
  apply nonneg_finite_iff; assumption.
Qed.

Lemma F2R_infinity (x : number) :
  Prim2SF x = S754_infinity false -> F2R x = pow2 1024.
Proof. unfold F2R. intros ->. reflexivity. Qed.

(** Lower bounds go through a division and a multiplication by a
    positive constant. *)
Lemma div_ge (x c : number) (w : R) :
  nonneg x -> positive_finite c -> representable w ->
  w <= F2R x / F2R c -> w <= F2R (x / c).
Proof.
  intros Hx Hc Hw Hle. destruct (div_rounds_to x c Hx Hc) as (_ & Hfin & Hinf).
  destruct (Rlt_dec (F2R x) (pow2 1024)) as [Hlt|Hnlt].
  - apply (rounds_to_ge _ _ _ (Hfin Hlt) Hw Hle).
  - rewrite (F2R_infinity _ (Hinf Hnlt)). pose proof (representable_range w Hw). lra.
Qed.

Lemma mul_ge (x c : number) (w : R) :
  nonneg x -> positive_finite c -> representable w ->
  w <= F2R x * F2R c -> w <= F2R (x * c).
Proof.
  intros Hx Hc Hw Hle. destruct (mul_rounds_to x c Hx Hc) as (_ & Hfin & Hinf).
  destruct (Rlt_dec (F2R x) (pow2 1024)) as [Hlt|Hnlt].
  - apply (rounds_to_ge _ _ _ (Hfin Hlt) Hw Hle).
  - rewrite (F2R_infinity _ (Hinf Hnlt)). pose proof (representable_range w Hw). lra.
Qed.

(** Upper bounds too, below the overflow. *)
Lemma div_le (x c : number) (w : R) :
  nonneg x -> positive_finite c -> representable w -> w < pow2 971 ->
  F2R x < pow2 1024 -> F2R x / F2R c <= w -> F2R (x / c) <= w.
Proof.
  intros Hx Hc Hw Hb Hlt Hle. destruct (div_rounds_to x c Hx Hc) as (_ & Hfin & _).
  apply (rounds_to_le _ _ _ (Hfin Hlt) Hw Hle Hb).
Qed.

Lemma mul_le (x c : number) (w : R) :
  nonneg x -> positive_finite c -> representable w -> w < pow2 971 ->
  F2R x < pow2 1024 -> F2R x * F2R c <= w -> F2R (x * c) <= w.
Proof.
  intros Hx Hc Hw Hb Hlt Hle. destruct (mul_rounds_to x c Hx Hc) as (_ & Hfin & _).
  apply (rounds_to_le _ _ _ (Hfin Hlt) Hw Hle Hb).
Qed.

(** Division and multiplication by a positive constant keep the order. *)
Lemma div_mono (x y c : number) :
  nonneg x -> nonneg y -> positive_finite c ->
  F2R x <= F2R y -> F2R y < pow2 1024 -> F2R y / F2R c < pow2 971 ->
  F2R (x / c) <= F2R (y / c).
Proof.
  intros Hx Hy Hc Hle Hlt Hb. pose proof (positive_finite_F2R c Hc) as Hcp.
  destruct (Req_dec (F2R x) (F2R y)) as [Heq|Hne].
  - rewrite (nonneg_inj x y Hx Hy Heq). lra.
  - destruct (div_rounds_to x c Hx Hc) as (_ & Hfx & _).
    destruct (div_rounds_to y c Hy Hc) as (_ & Hfy & _).
    apply (rounds_to_mono (F2R x / F2R c) (F2R y / F2R c));
      auto using Prim2SF_valid; [apply Hfx; lra|].
    unfold Rdiv. apply Rmult_lt_compat_r; [apply Rinv_0_lt_compat; exact Hcp|lra].
Qed.

Lemma mul_mono (x y c : number) :
  nonneg x -> nonneg y -> positive_finite c ->
  F2R x <= F2R y -> F2R y < pow2 1024 -> F2R y * F2R c < pow2 971 ->
  F2R (x * c) <= F2R (y * c).
Proof.
  intros Hx Hy Hc Hle Hlt Hb. pose proof (positive_finite_F2R c Hc) as Hcp.
  destruct (Req_dec (F2R x) (F2R y)) as [Heq|Hne].
  - rewrite (nonneg_inj x y Hx Hy Heq). lra.
  - destruct (mul_rounds_to x c Hx Hc) as (_ & Hfx & _).
    destruct (mul_rounds_to y c Hy Hc) as (_ & Hfy & _).
    apply (rounds_to_mono (F2R x * F2R c) (F2R y * F2R c));
      auto using Prim2SF_valid; [apply Hfx; lra|].
    apply Rmult_lt_compat_r; [exact Hcp|lra].
Qed.
End Operations.

Section Constants.
Local Open Scope R_scope.

(** The value of a number that is an integer. *)
Lemma F2R_integer (x : number) (m : positive) (e q : Z) :
  Prim2SF x = S754_finite false m e -> (e <= 0)%Z -> Z.pos m = (q * 2 ^ (- e))%Z ->
  F2R x = IZR q.
Proof.
  intros Hx He Hm. unfold F2R. rewrite Hx. cbn [SF2R]. rewrite Hm, mult_IZR.
  rewrite <- pow2_IZR by lia. rewrite Rmult_assoc, <- pow2_add.
  replace (- e + e)%Z with 0%Z by lia. rewrite pow2_0. ring.
Qed.
End Constants.

Ltac F2R_constant :=
  match goal with
  | |- F2R ?x = IZR ?q =>
      let sf := eval vm_compute in (Prim2SF x) in
      match sf with
      | S754_finite false ?m ?e =>
          apply (F2R_integer x m e q); [vm_compute; reflexivity|lia|vm_compute; reflexivity]
      end
  end.

Section Round.
Local Open Scope R_scope.

Lemma F2R_0 : F2R 0 = 0.
Proof. reflexivity. Qed.

Lemma F2R_1 : F2R 1 = 1.
Proof. F2R_constant. Qed.

Lemma F2R_2 : F2R 2 = 2.
Proof. F2R_constant. Qed.

Lemma F2R_5 : F2R 5 = 5.
Proof. F2R_constant. Qed.

Lemma F2R_10 : F2R 10 = 10.
Proof. F2R_constant. Qed.

Lemma F2R_30 : F2R 30 = 30.
Proof. F2R_constant. Qed.

Lemma F2R_50 : F2R 50 = 50.
Proof. F2R_constant. Qed.

Lemma F2R_70 : F2R 70 = 70.
Proof. F2R_constant. Qed.

Lemma F2R_100 : F2R 100 = 100.
Proof. F2R_constant. Qed.

Lemma representable_small (n : Z) : (0 <= n <= 1000)%Z -> representable (IZR n) /\ IZR n < pow2 971.
Proof.
  intros Hn. split; [apply representable_integer; lia|].
  assert (pow2 10 <= pow2 971) by (apply pow2_le; lia).
  assert (IZR n < pow2 10) by (rewrite pow2_IZR by lia; apply IZR_lt; cbn; lia). lra.
Qed.

(** [Math.round] of a nonnegative number: the integer [N] with
    [N <= x + 1/2 < N + 1]; the infinity stays what it is. *)
Lemma round_nonneg (x : number) :
  nonneg x ->
  nonneg (Math.round x) /\
  exists N : Z, F2R (Math.round x) = IZR N /\ IZR N <= F2R x + 1 / 2 < IZR N + 1.
Proof.
  intros Hx. pose proof (Prim2SF_valid x) as V. unfold Math.round, F2R at 2 3.
  unfold nonneg in Hx. destruct (Prim2SF x) as [[]|[]| |[] m e] eqn:E; try contradiction.
  - split; [unfold nonneg; rewrite E; exact I|]. exists 0%Z. unfold F2R. rewrite E. cbn [SF2R].
    split; [reflexivity|lra].
  - split; [unfold nonneg; rewrite E; exact I|]. exists (2 ^ 1024)%Z. unfold F2R. rewrite E.
    cbn [SF2R]. change (pow2 emax) with (pow2 1024). rewrite <- pow2_IZR by lia.
    split; [reflexivity|lra].
  - cbn [SF2R]. destruct (Z.leb_spec 0 e) as [He|He].
    + split; [unfold nonneg; rewrite E; exact I|]. exists (Z.pos m * 2 ^ e)%Z.
      unfold F2R. rewrite E. cbn [SF2R]. rewrite mult_IZR, <- pow2_IZR by lia.
      split; [reflexivity|lra].
    + apply valid_finite in V as [Vc Vb]. pose proof (digits2_bounds m) as [_ Hm].
      assert (Hm53 : (Z.pos m < 2 ^ 53)%Z).
      { assert (2 ^ Z.pos (digits2_pos m) <= 2 ^ 53)%Z by (apply Z.pow_le_mono_r; lia). lia. }
      unfold Math.round_half_up.
      assert (Hp2 : (2 ^ (1 - e) = 2 * 2 ^ (- e))%Z).
      { replace (1 - e)%Z with (Z.succ (- e)) by lia. apply Z.pow_succ_r. lia. }
      rewrite Hp2.
      assert (HP : (2 <= 2 ^ (- e))%Z).
      { change 2%Z with (2 ^ 1)%Z at 1. apply Z.pow_le_mono_r; lia. }
      set (P := (2 ^ (- e))%Z) in *.
      pose proof (Z.div_mod (2 * Z.pos m + P) (2 * P) ltac:(lia)) as Hdm.
      pose proof (Z.mod_pos_bound (2 * Z.pos m + P) (2 * P) ltac:(lia)) as Hmod.
      set (n := ((2 * Z.pos m + P) / (2 * P))%Z) in *.
      assert (Hn0 : (0 <= n)%Z) by (apply Z.div_pos; lia).
      assert (Hn53 : (n < 2 ^ 53)%Z) by nia.
      assert (HPe : pow2 e * IZR P = 1).
      { unfold P. rewrite <- pow2_IZR by lia. rewrite <- pow2_add.
        replace (e + - e)%Z with 0%Z by lia. apply pow2_0. }
      assert (Hfloor : IZR n <= IZR (Z.pos m) * pow2 e + 1 / 2 < IZR n + 1).
      { assert (H1 : IZR n * (2 * IZR P) <= 2 * IZR (Z.pos m) + IZR P).
        { rewrite <- !mult_IZR, <- plus_IZR. apply IZR_le. lia. }
        assert (H2 : 2 * IZR (Z.pos m) + IZR P < (IZR n + 1) * (2 * IZR P)).
        { rewrite <- !mult_IZR, <- !plus_IZR, <- mult_IZR. apply IZR_lt. lia. }
        assert (HPp : 0 < IZR P) by (apply IZR_lt; lia).
        pose proof (pow2_pos e) as Hpe.
        assert (Hv : IZR (Z.pos m) = IZR (Z.pos m) * pow2 e * IZR P)
          by (rewrite Rmult_assoc, HPe; ring).
        set (v := IZR (Z.pos m) * pow2 e) in *. nra. }
      destruct (Z.eqb_spec n 0) as [Hz|Hnz].
      * split; [exact I|]. exists 0%Z. split; [reflexivity|]. rewrite Hz in Hfloor. exact Hfloor.
      * destruct (Z.ltb_spec 0 n) as [Hpos|Hneg]; [|lia].
        assert (Hsf : Prim2SF (of_uint63 (of_Z n)) = binary_normalize prec emax n 0 false).
        { rewrite of_uint63_spec, of_Z_spec. rewrite Z.mod_small; [reflexivity|].
          split; [lia|]. assert (2 ^ 53 < wB)%Z by (vm_compute; reflexivity). lia. }
        destruct (binary_normalize_integer n ltac:(lia)) as [Hnf Hval].
        split.
        -- unfold nonneg. rewrite Hsf.
           destruct (binary_normalize prec emax n 0 false) as [[]|[]| |[] m' e'];
             try contradiction; exact I.
        -- exists n. unfold F2R. rewrite Hsf, Hval. split; [reflexivity|exact Hfloor].
Qed.

(** [Math.round] keeps the order of the nonnegative numbers. *)
Lemma round_mono (x y : number) :
  nonneg x -> nonneg y -> F2R x <= F2R y -> F2R (Math.round x) <= F2R (Math.round y).
Proof.
  intros Hx Hy Hle.
  destruct (round_nonneg x Hx) as (_ & Nx & -> & Hx1 & Hx2).
  destruct (round_nonneg y Hy) as (_ & Ny & -> & Hy1 & Hy2).
  apply IZR_le. assert (IZR Nx < IZR (Ny + 1)) by (rewrite plus_IZR; lra).
  apply lt_IZR in H. lia.
Qed.

(** The rounding of a number that is at most an integer [k] is at most
    [k], and likewise from below. *)
Lemma round_le (x : number) (k : Z) :
  nonneg x -> F2R x <= IZR k -> F2R (Math.round x) <= IZR k.
Proof.
  intros Hx Hle. destruct (round_nonneg x Hx) as (_ & N & -> & H1 & H2).
  apply IZR_le. assert (IZR N < IZR (k + 1)) by (rewrite plus_IZR; lra).
  apply lt_IZR in H. lia.
Qed.

Lemma round_ge (x : number) (k : Z) :
  nonneg x -> IZR k <= F2R x -> IZR k <= F2R (Math.round x).
Proof.
  intros Hx Hle. destruct (round_nonneg x Hx) as (_ & N & -> & H1 & H2).
  apply IZR_le. assert (IZR k < IZR (N + 1)) by (rewrite plus_IZR; lra).
  apply lt_IZR in H. lia.
Qed.
End Round.

Section Clamp.
Local Open Scope R_scope.

Lemma positive_finite_nonneg (c : number) : positive_finite c -> nonneg c.
Proof.
  unfold positive_finite, nonneg. destruct (Prim2SF c) as [[]|[]| |[] m e]; auto.
Qed.

Lemma nonneg_100 : nonneg 100.
Proof. vm_compute. exact I. Qed.

Lemma nonneg_0 : nonneg 0.
Proof. vm_compute. exact I. Qed.

(** [Math.max(0, s)] is [s] for a nonnegative [s]. *)
Lemma max_0_nonneg (s : number) : nonneg s -> Math.max 0 s = s.
Proof.
  intros Hs. pose proof (nonneg_not_nan s Hs) as Hn. pose proof (nonneg_F2R s Hs) as Hr.
  unfold Math.max. rewrite Hn. cbn [is_nan orb]. change (is_nan 0) with false. cbn [orb].
  destruct (0 <? s)%float eqn:E1; [reflexivity|].
  apply (ltb_false_F2R 0 s eq_refl Hn) in E1. rewrite F2R_0 in E1.
  destruct (s <? 0)%float eqn:E2.
  - apply (ltb_F2R s 0 Hn eq_refl) in E2. rewrite F2R_0 in E2. lra.
  - change (get_sign 0) with false. cbv iota.
    apply nonneg_inj; [exact nonneg_0|exact Hs|]. rewrite F2R_0. lra.
Qed.

(** [Math.min(100, t)] is [t] up to 100 and 100 from there. *)
Lemma min_100_le (t : number) : nonneg t -> F2R t <= 100 -> Math.min 100 t = t.
Proof.
  intros Ht Hle. pose proof (nonneg_not_nan t Ht) as Hn.
  unfold Math.min. rewrite Hn. change (is_nan 100) with false. cbn [orb].
  destruct (100 <? t)%float eqn:E1.
  - apply (ltb_F2R 100 t eq_refl Hn) in E1. rewrite F2R_100 in E1. lra.
  - destruct (t <? 100)%float; [reflexivity|]. change (get_sign 100) with false. reflexivity.
Qed.

Lemma min_100_ge (t : number) : nonneg t -> 100 <= F2R t -> Math.min 100 t = 100%float.
Proof.
  intros Ht Hle. pose proof (nonneg_not_nan t Ht) as Hn.
  unfold Math.min. rewrite Hn. change (is_nan 100) with false. cbn [orb].
  destruct (100 <? t)%float eqn:E1; [reflexivity|].
  apply (ltb_false_F2R 100 t eq_refl Hn) in E1. rewrite F2R_100 in E1.
  assert (Heq : t = 100%float).
  { apply nonneg_inj; [exact Ht|exact nonneg_100|]. rewrite F2R_100. lra. }
  rewrite Heq. reflexivity.
Qed.

Lemma min_100_nonneg (t : number) :
  nonneg t -> nonneg (Math.min 100 t) /\ F2R (Math.min 100 t) <= 100.
Proof.
  intros Ht. destruct (Rle_dec (F2R t) 100) as [Hle|Hgt].
  - rewrite (min_100_le t Ht Hle). split; assumption.
  - rewrite (min_100_ge t Ht ltac:(lra)). split; [exact nonneg_100|]. rewrite F2R_100. lra.
Qed.

(** The clamp of [calculateVolatilityScore]. *)
Lemma clamp_nonneg (s : number) :
  nonneg s ->
  nonneg (Math.min 100 (Math.max 0 s)) /\
  0 <= F2R (Math.min 100 (Math.max 0 s)) <= 100 /\
  (F2R s <= 100 -> Math.min 100 (Math.max 0 s) = s).
Proof.
  intros Hs. rewrite (max_0_nonneg s Hs).
  destruct (min_100_nonneg s Hs) as [Hn Hle].
  split; [exact Hn|]. split; [pose proof (nonneg_F2R _ Hn); lra|].
  apply min_100_le. exact Hs.
Qed.
End Clamp.

(** * The volatility score *)

Section Bands.
Local Open Scope R_scope.

Lemma positive_finite_constants :
  positive_finite 2 /\ positive_finite 5 /\ positive_finite 10 /\
  positive_finite 30 /\ positive_finite 70 /\ positive_finite 100.
Proof. vm_compute. tauto. Qed.

Lemma pow2_971_large : 1000 < pow2 971.
Proof.
  assert (pow2 10 <= pow2 971) by (apply pow2_le; lia).
  assert (1000 < pow2 10) by (rewrite pow2_IZR by lia; apply IZR_lt; cbn; lia). lra.
Qed.

Lemma pow2_971_1024 : pow2 971 < pow2 1024.
Proof. apply pow2_lt. lia. Qed.

(** [x / c * k] for a nonnegative [x] below a bound [b] with [b / c <= 1]:
    the result is at most [k]. *)
Lemma scale_le (x c k : number) (b nk : Z) :
  nonneg x -> positive_finite c -> positive_finite k ->
  F2R x <= IZR b -> (0 <= b <= 1000)%Z -> IZR b <= F2R c ->
  F2R k = IZR nk -> (0 <= nk <= 1000)%Z ->
  nonneg (x / c * k) /\ F2R (x / c * k) <= IZR nk.
Proof.
  intros Hx Hc Hk Hb Hb' Hbc Hnk Hnk'.
  pose proof pow2_971_large. pose proof pow2_971_1024.
  pose proof (positive_finite_F2R c Hc) as Hcp.
  pose proof (nonneg_F2R x Hx) as Hx0.
  assert (Hb1000 : IZR b <= 1000) by (apply IZR_le; lia).
  destruct (div_rounds_to x c Hx Hc) as (Hq & _ & _).
  assert (Hq1 : F2R (x / c) <= 1).
  { apply div_le; auto.
    - apply (representable_integer 1). lia.
    - lra.
    - lra.
    - apply (Rmult_le_reg_r (F2R c)); [exact Hcp|].
      unfold Rdiv. rewrite Rmult_assoc, Rinv_l by lra. lra. }
  destruct (mul_rounds_to (x / c) k Hq Hk) as (Hy & _ & _).
  split; [exact Hy|].
  assert (Hnk0 : 0 <= IZR nk <= 1000) by (split; apply IZR_le; lia).
  apply mul_le; auto.
  - apply representable_integer. lia.
  - lra.
  - lra.
  - rewrite Hnk. pose proof (nonneg_F2R _ Hq). nra.
Qed.

(** The score of the low and medium bands is the rounded value itself:
    the clamp changes nothing. *)
Lemma band_score (x c k : number) (b nk : Z) :
  nonneg x -> positive_finite c -> positive_finite k ->
  F2R x <= IZR b -> (0 <= b <= 1000)%Z -> IZR b <= F2R c ->
  F2R k = IZR nk -> (0 <= nk <= 100)%Z ->
  let t := Math.round (x / c * k) in
  nonneg t /\ 0 <= F2R t <= IZR nk /\ Math.min 100 (Math.max 0 t) = t.
Proof.
  intros Hx Hc Hk Hb Hb' Hbc Hnk Hnk' t.
  destruct (scale_le x c k b nk Hx Hc Hk Hb Hb' Hbc Hnk ltac:(lia)) as [Hy Hyle].
  destruct (round_nonneg _ Hy) as [Ht _]. fold t in Ht.
  pose proof (round_le _ nk Hy Hyle) as Htle. fold t in Htle.
  pose proof (nonneg_F2R t Ht) as Ht0.
  split; [exact Ht|]. split; [lra|].
  apply clamp_nonneg; [exact Ht|].
  assert (IZR nk <= 100) by (apply IZR_le; lia). lra.
Qed.

(** In a band, a larger change does not score less. *)
Lemma band_mono (x y c k : number) (b nk : Z) :
  nonneg x -> nonneg y -> positive_finite c -> positive_finite k ->
  F2R x <= F2R y -> F2R y <= IZR b -> (0 <= b <= 1000)%Z -> IZR b <= F2R c ->
  F2R k = IZR nk -> (0 <= nk <= 1000)%Z ->
  F2R (Math.round (x / c * k)) <= F2R (Math.round (y / c * k)).
Proof.
  intros Hx Hy Hc Hk Hxy Hb Hb' Hbc Hnk Hnk'.
  pose proof pow2_971_large. pose proof pow2_971_1024.
  pose proof (positive_finite_F2R c Hc) as Hcp.
  pose proof (nonneg_F2R x Hx) as Hx0. pose proof (nonneg_F2R y Hy) as Hy0.
  assert (Hb1000 : IZR b <= 1000) by (apply IZR_le; lia).
  assert (Hnk0 : 0 <= IZR nk <= 1000) by (split; apply IZR_le; lia).
  destruct (div_rounds_to x c Hx Hc) as (Hqx & _ & _).
  destruct (div_rounds_to y c Hy Hc) as (Hqy & _ & _).
  assert (Hyc : F2R y / F2R c <= 1).
  { apply (Rmult_le_reg_r (F2R c)); [exact Hcp|].
    unfold Rdiv. rewrite Rmult_assoc, Rinv_l by lra. lra. }
  assert (Hq1 : F2R (y / c) <= 1).
  { apply div_le; auto; try lra. apply (representable_integer 1). lia. }
  assert (Hq : F2R (x / c) <= F2R (y / c)) by (apply div_mono; auto; lra).
  destruct (mul_rounds_to (x / c) k Hqx Hk) as (Hmx & _ & _).
  destruct (mul_rounds_to (y / c) k Hqy Hk) as (Hmy & _ & _).
  apply round_mono; auto.
  pose proof (nonneg_F2R _ Hqy).
  apply mul_mono; auto; try lra. rewrite Hnk. nra.
Qed.

(** The high band: the score is the rounding of the capped value, and is
    100 from a change of 50 on. *)
Lemma high_score (x : number) :
  nonneg x ->
  let y := (x / 10 * 100)%float in
  let s := Math.min 100 (Math.max 0 (Math.min 100 (Math.round y))) in
  nonneg s /\ 0 <= F2R s <= 100 /\
  s = Math.round (Math.min 100 y) /\
  (50 <= F2R x -> s = 100%float).
Proof.
  intros Hx y s. destruct positive_finite_constants as (_ & _ & H10 & _ & _ & H100).
  destruct (div_rounds_to x 10 Hx H10) as (Hq & _ & _).
  destruct (mul_rounds_to (x / 10) 100 Hq H100) as (Hy & _ & _). fold y in Hy.
  destruct (round_nonneg y Hy) as [Ht _].
  destruct (min_100_nonneg _ Ht) as [Hm Hmle].
  destruct (clamp_nonneg _ Hm) as (Hs & Hsr & Hsid). fold s in Hs, Hsr, Hsid.
  specialize (Hsid Hmle).
  assert (Hcase : forall (Hge : 100 <= F2R y), s = 100%float /\ Math.round (Math.min 100 y) = 100%float).
  { intros Hge. rewrite Hsid. rewrite (min_100_ge y Hy Hge). split; [|reflexivity].
    apply min_100_ge; [exact Ht|]. apply (round_ge y 100 Hy). exact Hge. }
  split; [exact Hs|]. split; [exact Hsr|]. split.
  - destruct (Rle_dec 100 (F2R y)) as [Hge|Hlt].
    + destruct (Hcase Hge) as [-> ->]. reflexivity.
    + rewrite Hsid. rewrite (min_100_le y Hy ltac:(lra)).
      apply min_100_le; [exact Ht|]. apply (round_le y 100 Hy). lra.
  - intros H50. apply Hcase.
    assert (Hq5 : 5 <= F2R (x / 10)).
    { apply div_ge; auto; [apply (representable_integer 5); lia|].
      rewrite F2R_10. lra. }
    assert (H500 : 500 <= F2R y).
    { apply mul_ge; auto; [apply (representable_integer 500); lia|].
      rewrite F2R_100. lra. }
    lra.
Qed.
End Bands.

(** C6: for a numeric change [p] with [a = |p|]: from 5 on the level is
    ['high'] and the score is [round (min (100, a / 10 * 100))], which is 100
    from 50 on; from 2 and below 5 the level is ['medium'] and the score is
    [round (a / 5 * 70)]; below 2 the level is ['low'], the score is
    [round (a / 2 * 30)], lies in [[0, 30]] and does not decrease when [a]
    grows. *)
Theorem calculateVolatilityScore_bands (p : number) :
  is_nan p = false ->
  let a := Math.abs p in
  let v := calculateVolatilityScore p in
  ((5 <=? a)%float = true ->
     level v = high /\
     score v = Math.round (Math.min 100 (a / 10 * 100)%float) /\
     ((50 <=? a)%float = true -> score v = 100%float)) /\
  ((2 <=? a)%float = true -> (a <? 5)%float = true ->
     level v = medium /\ score v = Math.round (a / 5 * 70)%float) /\
  ((a <? 2)%float = true ->
     level v = low /\ score v = Math.round (a / 2 * 30)%float /\
     (0 <=? score v)%float = true /\ (score v <=? 30)%float = true /\
     forall q, is_nan q = false -> (Math.abs q <=? a)%float = true ->
       (score (calculateVolatilityScore q) <=? score v)%float = true).
Proof.
  intros Hp a v.
  pose proof (abs_nonneg p Hp) as Ha. fold a in Ha.
  pose proof (nonneg_not_nan a Ha) as Han.
  destruct positive_finite_constants as (H2 & H5 & H10 & H30 & H70 & H100).
  assert (Hv : v = calculateVolatilityScore p) by reflexivity.
  unfold calculateVolatilityScore in Hv. fold a in Hv.
  cbn [VOLATILITY_HIGH_THRESHOLD VOLATILITY_MEDIUM_THRESHOLD CONFIG] in Hv.
  split; [|split].
  - intros H5a. rewrite H5a in Hv. rewrite Hv. cbn [score level].
    destruct (high_score a Ha) as (_ & _ & Hs & H50).
    split; [reflexivity|]. split; [exact Hs|].
    intros H50a. apply H50. apply (leb_F2R 50 a eq_refl Han) in H50a.
    rewrite F2R_50 in H50a. exact H50a.
  - intros H2a Ha5.
    apply (ltb_F2R a 5 Han eq_refl) in Ha5. rewrite F2R_5 in Ha5.
    assert (E5 : (5 <=? a)%float = false).
    { apply (leb_false_F2R 5 a eq_refl Han). rewrite F2R_5. exact Ha5. }
    rewrite E5, H2a in Hv. rewrite Hv. cbn [score level].
    destruct (band_score a 5 70 5 70 Ha H5 H70 ltac:(lra) ltac:(lia)
                ltac:(rewrite F2R_5; lra) F2R_70 ltac:(lia)) as (_ & _ & Hid).
    split; [reflexivity|exact Hid].
  - intros Ha2.
    apply (ltb_F2R a 2 Han eq_refl) in Ha2. rewrite F2R_2 in Ha2.
    assert (E5 : (5 <=? a)%float = false).
    { apply (leb_false_F2R 5 a eq_refl Han). rewrite F2R_5. lra. }
    assert (E2 : (2 <=? a)%float = false).
    { apply (leb_false_F2R 2 a eq_refl Han). rewrite F2R_2. lra. }
    rewrite E5, E2 in Hv. rewrite Hv. cbn [score level].
    destruct (band_score a 2 30 2 30 Ha H2 H30 ltac:(lra) ltac:(lia)
                ltac:(rewrite F2R_2; lra) F2R_30 ltac:(lia)) as (Ht & Htr & Hid).
    rewrite Hid. pose proof (nonneg_not_nan _ Ht) as Htn.
    split; [reflexivity|]. split; [reflexivity|]. split; [|split].
    + apply (leb_F2R 0 _ eq_refl Htn). rewrite F2R_0. lra.
    + apply (leb_F2R _ 30 Htn eq_refl). rewrite F2R_30. lra.
    + intros q Hq Hqa.
      pose proof (abs_nonneg q Hq) as Hb. pose proof (nonneg_not_nan _ Hb) as Hbn.
      apply (leb_F2R _ a Hbn Han) in Hqa.
      assert (E5' : (5 <=? Math.abs q)%float = false).
      { apply (leb_false_F2R 5 _ eq_refl Hbn). rewrite F2R_5. lra. }
      assert (E2' : (2 <=? Math.abs q)%float = false).
      { apply (leb_false_F2R 2 _ eq_refl Hbn). rewrite F2R_2. lra. }
      unfold calculateVolatilityScore.
      cbn [VOLATILITY_HIGH_THRESHOLD VOLATILITY_MEDIUM_THRESHOLD CONFIG].
      rewrite E5', E2'. cbn [score].
      destruct (band_score (Math.abs q) 2 30 2 30 Hb H2 H30 ltac:(lra) ltac:(lia)
                  ltac:(rewrite F2R_2; lra) F2R_30 ltac:(lia)) as (Ht' & _ & Hid').
      rewrite Hid'. apply (leb_F2R _ _ (nonneg_not_nan _ Ht') Htn).
      apply (band_mono _ _ 2 30 2 30); auto; try lra; try lia.
      * rewrite F2R_2. lra.
      * exact F2R_30.
Qed.

Lemma calculateVolatilityScore_bands_witness :
  is_nan 1.5 = false /\
  level (calculateVolatilityScore 1.5) = low /\
  score (calculateVolatilityScore 1.5) = Math.round (Math.abs 1.5 / 2 * 30)%float /\
  (score (calculateVolatilityScore 1.5) <=? 30)%float = true.
Proof.
  split; [reflexivity|].
  destruct (calculateVolatilityScore_bands 1.5%float eq_refl) as (_ & _ & H).
  destruct (H eq_refl) as (H1 & H2 & _ & H3 & _). repeat split; assumption.
Defined.

(** The scores of some changes, as the engine computes them. *)
Example calculateVolatilityScore_samples :
  calculateVolatilityScore 1.5 = {| score := 23; level := low |} /\
  calculateVolatilityScore (-4.99) = {| score := 70; level := medium |} /\
  calculateVolatilityScore 7.25 = {| score := 73; level := high |} /\
  calculateVolatilityScore (-62) = {| score := 100; level := high |} /\
  calculateVolatilityScore infinity = {| score := 100; level := high |}.
Proof. vm_compute. repeat split; reflexivity. Qed.


(** C1, as the code has it: for every input that is a number the score lies
    in [[0, 100]]; for the input NaN the level is ['low'] and the score is
    NaN, which is neither 0 nor in [[0, 100]]. *)
Theorem calculateVolatilityScore_range (p : number) :
  let v := calculateVolatilityScore p in
  (is_nan p = false ->
     (0 <=? score v)%float = true /\ (score v <=? 100)%float = true) /\
  (is_nan p = true ->
     level v = low /\ is_nan (score v) = true /\
     (score v =? 0)%float = false /\
     (0 <=? score v)%float = false /\ (score v <=? 100)%float = false).
Proof.
  intros v. split.
  - intros Hp. pose proof (abs_nonneg p Hp) as Ha. pose proof (nonneg_not_nan _ Ha) as Han.
    destruct positive_finite_constants as (H2 & H5 & H10 & H30 & H70 & H100).
    assert (Hs : nonneg (score v) /\ (0 <= F2R (score v) <= 100)%R).
    { unfold v, calculateVolatilityScore.
      cbn [VOLATILITY_HIGH_THRESHOLD VOLATILITY_MEDIUM_THRESHOLD CONFIG].
      destruct (5 <=? Math.abs p)%float eqn:E5; [|destruct (2 <=? Math.abs p)%float eqn:E2];
        cbn [score].
      - destruct (high_score _ Ha) as (Hn & Hr & _). split; assumption.
      - apply (leb_false_F2R 5 _ eq_refl Han) in E5. rewrite F2R_5 in E5.
        destruct (band_score _ 5 70 5 70 Ha H5 H70 ltac:(lra) ltac:(lia)
                    ltac:(rewrite F2R_5; lra) F2R_70 ltac:(lia)) as (Ht & Hr & ->).
        split; [exact Ht|lra].
      - apply (leb_false_F2R 2 _ eq_refl Han) in E2. rewrite F2R_2 in E2.
        destruct (band_score _ 2 30 2 30 Ha H2 H30 ltac:(lra) ltac:(lia)
                    ltac:(rewrite F2R_2; lra) F2R_30 ltac:(lia)) as (Ht & Hr & ->).
        split; [exact Ht|lra]. }
    destruct Hs as [Hn Hr]. pose proof (nonneg_not_nan _ Hn) as Hnn. split.
    + apply (leb_F2R 0 _ eq_refl Hnn). rewrite F2R_0. lra.
    + apply (leb_F2R _ 100 Hnn eq_refl). rewrite F2R_100. lra.
  - intros Hp. apply is_nan_eq in Hp. subst p. vm_compute. repeat split; reflexivity.
Qed.

(** C1 fails at NaN: the score is NaN, not 0. *)
Lemma calculateVolatilityScore_nan :
  calculateVolatilityScore nan = {| score := nan; level := low |} /\
  (score (calculateVolatilityScore nan) =? 0)%float = false /\
  (0 <=? score (calculateVolatilityScore nan))%float = false.
Proof. vm_compute. repeat split; reflexivity. Qed.

(** * The ranking *)

Section Subtraction.
Local Open Scope R_scope.

Lemma shl_align_snd (mx : positive) (ex ex' : Z) :
  (ex' <= ex)%Z -> snd (shl_align mx ex ex') = ex'.
Proof.
  intros H. unfold shl_align. std_names.
  destruct (ex' - ex)%Z as [|d|d] eqn:E; cbn [snd]; lia.
Qed.

(** A positive number: what [0 < x] selects. *)
Lemma positive_cases (x : number) :
  (0 <? x)%float = true ->
  (exists m e, Prim2SF x = S754_finite false m e) \/ Prim2SF x = S754_infinity false.
Proof.
  rewrite FloatAxioms.ltb_spec. unfold SFltb. change (Prim2SF 0) with (S754_zero false).
  destruct (Prim2SF x) as [[]|[]| |[] m e]; cbn; try discriminate; eauto.
Qed.

Lemma positive_nonneg (x : number) : (0 <? x)%float = true -> nonneg x /\ 0 < F2R x.
Proof.
  intros H. assert (Hn : nonneg x).
  { unfold nonneg. destruct (positive_cases x H) as [(m & e & ->)| ->]; exact I. }
  split; [exact Hn|]. apply (ltb_F2R 0 x eq_refl (nonneg_not_nan x Hn)) in H.
  rewrite F2R_0 in H. exact H.
Qed.

(** The sign of a difference of two positive numbers tells their order. *)
Lemma sub_negative (x y : number) :
  (0 <? x)%float = true -> (0 <? y)%float = true ->
  ((y - x <? 0)%float = true <-> F2R y < F2R x).
Proof.
  intros Hx Hy. pose proof (Prim2SF_valid x) as Vx. pose proof (Prim2SF_valid y) as Vy.
  rewrite FloatAxioms.ltb_spec, FloatAxioms.sub_spec. change (Prim2SF 0) with (S754_zero false).
  unfold F2R. pose proof (pow2_pos 1024) as Hinf.
  destruct (positive_cases x Hx) as [(mx & ex & Ex)|Ex],
           (positive_cases y Hy) as [(my & ey & Ey)|Ey]; rewrite Ex, Ey in *;
    cbn [SF64sub SFsub SF2R negb]; change (pow2 emax) with (pow2 1024).
  - (* two finite numbers *)
    std_names. unfold cond_Zopp.
    set (ez := Z.min ey ex).
    pose proof (shl_align_value my ey ez) as Hvy. pose proof (shl_align_value mx ex ez) as Hvx.
    rewrite shl_align_snd in Hvy, Hvx by lia.
    rewrite <- Hvy, <- Hvx. clear Hvy Hvx.
    set (ny := fst (shl_align my ey ez)). set (nx := fst (shl_align mx ex ez)).
    pose proof (pow2_pos ez) as Hpz.
    apply valid_finite in Vx as [Vx _]. apply valid_finite in Vy as [Vy _].
    assert (Hez : (-1074 <= ez)%Z) by lia.
    assert (Hord : (Z.pos ny - Z.pos nx < 0)%Z <-> IZR (Z.pos ny) * pow2 ez < IZR (Z.pos nx) * pow2 ez).
    { split; intros H.
      - apply Rmult_lt_compat_r; [exact Hpz|]. apply IZR_lt. lia.
      - apply Rmult_lt_reg_r in H; [|exact Hpz]. apply lt_IZR in H. lia. }
    destruct (Z.pos ny - Z.pos nx)%Z as [|d|d] eqn:Ed; cbn [binary_normalize].
    + cbn. split; [discriminate|]. intros H. apply Hord in H. lia.
    + pose proof (binary_round_nearest false d ez) as Hr.
      destruct (binary_round prec emax false d ez) as [s|s| |s m e]; try contradiction;
        destruct Hr as [-> _]; cbn; (split; [discriminate|]); intros H; apply Hord in H; lia.
    + pose proof (binary_round_nearest true d ez) as Hr.
      pose proof (binary_round_not_zero true true d ez Hez) as Hnz.
      destruct (binary_round prec emax true d ez) as [s|s| |s m e]; try contradiction;
        destruct Hr as [-> _]; try congruence; cbn; (split; [intros _|reflexivity]);
        apply Hord; lia.
  - cbn. pose proof (valid_finite_lt _ _ _ Vx). split; [discriminate|lra].
  - cbn. pose proof (valid_finite_lt _ _ _ Vy). split; [lra|reflexivity].
  - cbn. split; [discriminate|lra].
Qed.

Lemma eqb_F2R (x y : number) :
  is_nan x = false -> is_nan y = false ->
  ((x =? y)%float = true <-> F2R x = F2R y).
Proof.
  intros Hx Hy. destruct (compare_F2R x y Hx Hy) as (c & Hc & Hr).
  rewrite FloatAxioms.eqb_spec. unfold SFeqb. rewrite Hc.
  destruct c; split; intros H; try discriminate; try reflexivity; try lra.
Qed.
End Subtraction.

Section SortTheory.
Local Open Scope R_scope.
Context {A : Type}.
Variable comparefn : A -> A -> number.
Variable key : A -> R.
Variable P : A -> Prop.

(** The comparator orders the elements that satisfy [P] by decreasing key. *)
Hypothesis comparefn_key :
  forall x y, P x -> P y -> ((comparefn x y <? 0)%float = true <-> key y < key x).

Lemma sort_insert_perm (x : A) (l : list A) : sort_insert comparefn x l ≡ₚ x :: l.
Proof.
  induction l as [|y l IH]; cbn [sort_insert]; [reflexivity|].
  destruct (comparefn x y <? 0)%float; [reflexivity|].
  rewrite IH. apply Permutation_swap.
Qed.

Lemma sort_from_perm (todo sorted : list A) : sort_from comparefn sorted todo ≡ₚ sorted ++ todo.
Proof.
  revert sorted. induction todo as [|x todo IH]; intros sorted; cbn [sort_from].
  - rewrite app_nil_r. reflexivity.
  - rewrite IH, sort_insert_perm. rewrite (Permutation_middle sorted todo x). reflexivity.
Qed.

Lemma sort_insert_descending (x : A) (l : list A) :
  P x -> Forall P l -> descending key l -> descending key (sort_insert comparefn x l).
Proof.
  intros Hx Hl Hs. induction Hs as [|y l Hs IH Hy]; cbn [sort_insert].
  - repeat constructor.
  - apply Forall_cons in Hl as [HPy HPl].
    destruct (comparefn x y <? 0)%float eqn:E.
    + apply (comparefn_key x y Hx HPy) in E.
      constructor; [constructor; assumption|].
      constructor; [lra|]. eapply Forall_impl; [exact Hy|]. intros z Hz; cbn in Hz. lra.
    + assert (Hxy : key x <= key y).
      { apply Rnot_lt_le. intros Hlt. apply (comparefn_key x y Hx HPy) in Hlt. congruence. }
      constructor; [apply IH; exact HPl|].
      rewrite sort_insert_perm. constructor; assumption.
Qed.

Lemma sort_from_descending (todo sorted : list A) :
  Forall P todo -> Forall P sorted -> descending key sorted ->
  descending key (sort_from comparefn sorted todo).
Proof.
  revert sorted. induction todo as [|x todo IH]; intros sorted Ht Hs Hd; cbn [sort_from].
  - exact Hd.
  - apply Forall_cons in Ht as [Hx Ht]. apply IH; [exact Ht| |].
    + rewrite sort_insert_perm. constructor; assumption.
    + apply sort_insert_descending; assumption.
Qed.

Variable f : A -> bool.

(** [f] selects the elements of one key. *)
Hypothesis f_key : forall x y, P x -> P y -> f x = true -> f y = true -> key x = key y.

(** An element is inserted behind the elements of its own key. *)
Lemma sort_insert_filter (x : A) (l : list A) :
  P x -> Forall P l -> descending key l ->
  List.filter f (sort_insert comparefn x l) = List.filter f l ++ List.filter f [x].
Proof.
  intros Hx Hl Hs. induction Hs as [|y l Hs IH Hy]; cbn [sort_insert].
  - reflexivity.
  - apply Forall_cons in Hl as [HPy HPl].
    destruct (comparefn x y <? 0)%float eqn:E.
    + apply (comparefn_key x y Hx HPy) in E.
      cbn [List.filter app]. destruct (f x) eqn:Fx; [|rewrite app_nil_r; reflexivity].
      assert (Fy : f y = false).
      { destruct (f y) eqn:Fy; [|reflexivity]. pose proof (f_key x y Hx HPy Fx Fy). lra. }
      rewrite Fy.
      assert (Fl : List.filter f l = []).
      { clear IH. induction l as [|z l IHl]; [reflexivity|].
        apply Forall_cons in Hy as [Hz Hy]. apply Forall_cons in HPl as [HPz HPl].
        inversion Hs; subst. cbn [List.filter].
        destruct (f z) eqn:Fz; [|auto].
        pose proof (f_key x z Hx HPz Fx Fz). lra. }
      rewrite Fl. reflexivity.
    + cbn [List.filter]. rewrite (IH HPl). destruct (f y); reflexivity.
Qed.

Lemma sort_from_filter (todo sorted : list A) :
  Forall P todo -> Forall P sorted -> descending key sorted ->
  List.filter f (sort_from comparefn sorted todo) = List.filter f sorted ++ List.filter f todo.
Proof.
  revert sorted. induction todo as [|x todo IH]; intros sorted Ht Hs Hd; cbn [sort_from].
  - cbn. rewrite app_nil_r. reflexivity.
  - apply Forall_cons in Ht as [Hx Ht]. rewrite IH.
    + rewrite sort_insert_filter by assumption. rewrite <- app_assoc. f_equal.
      cbn [List.filter]. destruct (f x); reflexivity.
    + exact Ht.
    + rewrite sort_insert_perm. constructor; assumption.
    + apply sort_insert_descending; assumption.
Qed.
End SortTheory.

Lemma eqb_not_nan (x y : number) :
  (x =? y)%float = true -> is_nan x = false /\ is_nan y = false.
Proof.
  rewrite FloatAxioms.eqb_spec. unfold SFeqb. intros H.
  split; apply is_nan_false; intros E; rewrite E in H;
    [|destruct (Prim2SF x)]; discriminate H.
Qed.

Lemma StronglySorted_impl {A} (R1 R2 : A -> A -> Prop) (P : A -> Prop) (l : list A) :
  (forall a b, P a -> P b -> R1 a b -> R2 a b) ->
  Forall P l -> StronglySorted R1 l -> StronglySorted R2 l.
Proof.
  intros HR HP Hs. induction Hs as [|a l Hs IH Ha]; [constructor|].
  apply Forall_cons in HP as [HPa HPl]. constructor; [apply IH; exact HPl|].
  rewrite Forall_forall in *. intros b Hb. apply HR; auto.
Qed.

Lemma Array_slice0_take {A} (l : list A) (stop : Z) :
  0 <= stop -> Array_slice0 l stop = take (Z.to_nat stop) l.
Proof.
  intros Hs. unfold Array_slice0. destruct (Z.ltb_spec stop 0) as [|_]; [lia|].
  destruct (Z_le_gt_dec stop (Z.of_nat (length l))) as [Hle|Hgt].
  - rewrite Z.min_l by lia. reflexivity.
  - rewrite Z.min_r by lia. rewrite Nat2Z.id.
    rewrite !take_ge by lia. reflexivity.
Qed.

(** C7: for every limit that is not negative, [getTopGainers] returns the
    first [limit] entries of the ranking; the ranking holds exactly the
    entries whose change is above 0, in decreasing order of the change, and
    the entries of one change keep the order they came in. *)
Theorem getTopGainers_rank (analyzedData : list AnalyzedTicker) (limit : Z) :
  0 <= limit ->
  let gainers := filter (fun item => (0 <? priceChangePercent item)%float = true) analyzedData in
  let ranked := rankedGainers analyzedData in
  let top := getTopGainers analyzedData (Some limit) in
  top = take (Z.to_nat limit) ranked /\
  (length top <= Z.to_nat limit)%nat /\
  ranked ≡ₚ gainers /\
  (forall item, item ∈ ranked <->
     item ∈ analyzedData /\ (0 <? priceChangePercent item)%float = true) /\
  StronglySorted
    (fun a b => (priceChangePercent b <=? priceChangePercent a)%float = true) ranked /\
  (forall v : number,
     List.filter (fun item => (priceChangePercent item =? v)%float) ranked =
     List.filter (fun item => (priceChangePercent item =? v)%float) gainers).
Proof.
  intros Hlimit gainers ranked top.
  set (P := fun item : AnalyzedTicker => (0 <? priceChangePercent item)%float = true).
  set (key := fun item : AnalyzedTicker => F2R (priceChangePercent item)).
  set (cmp := fun a b : AnalyzedTicker => (priceChangePercent b - priceChangePercent a)%float).
  assert (Hkey : forall x y, P x -> P y -> ((cmp x y <? 0)%float = true <-> (key y < key x)%R)).
  { intros x y Hx Hy. apply sub_negative; assumption. }
  assert (HP : Forall P gainers).
  { apply Forall_forall. intros item Hi. apply list_elem_of_filter in Hi. tauto. }
  assert (Hperm : ranked ≡ₚ gainers).
  { unfold ranked, rankedGainers, Array_sort. fold gainers. rewrite sort_from_perm. reflexivity. }
  assert (HPr : Forall P ranked) by (rewrite Hperm; exact HP).
  assert (Hdesc : descending key ranked).
  { unfold ranked, rankedGainers, Array_sort. fold gainers cmp.
    apply (sort_from_descending cmp key P Hkey); [exact HP|constructor|constructor]. }
  split; [|split; [|split; [|split; [|split]]]].
  - unfold top, getTopGainers. cbn [default]. apply Array_slice0_take. exact Hlimit.
  - unfold top, getTopGainers. change (default 5 (Some limit)) with limit.
    rewrite Array_slice0_take by exact Hlimit. rewrite length_take. lia.
  - exact Hperm.
  - intros item. rewrite Hperm. unfold gainers. rewrite list_elem_of_filter. tauto.
  - apply (StronglySorted_impl (fun a b => (key b <= key a)%R) _ P); [|exact HPr|exact Hdesc].
    intros a b Ha Hb Hab. destruct (positive_nonneg _ Ha) as [Hna _].
    destruct (positive_nonneg _ Hb) as [Hnb _].
    apply leb_F2R; auto using nonneg_not_nan.
  - intros v. unfold ranked, rankedGainers, Array_sort. fold gainers cmp.
    rewrite (sort_from_filter cmp key P Hkey); [reflexivity| |exact HP|constructor|constructor].
    intros x y Hx Hy Fx Fy. destruct (eqb_not_nan _ _ Fx) as [Hxn Hvn].
    destruct (eqb_not_nan _ _ Fy) as [Hyn _].
    apply (eqb_F2R _ _ Hxn Hvn) in Fx. apply (eqb_F2R _ _ Hyn Hvn) in Fy.
    unfold key. congruence.
Qed.

Lemma getTopGainers_rank_witness :
  0 <= 1 /\
  getTopGainers sampleSnapshot (Some 1) = take 1 (rankedGainers sampleSnapshot) /\
  rankedGainers sampleSnapshot ≡ₚ
    filter (fun item => (0 <? priceChangePercent item)%float = true) sampleSnapshot.
Proof.
  assert (H : 0 <= 1) by discriminate.
  split; [exact H|].
  destruct (getTopGainers_rank sampleSnapshot 1 H) as (H1 & _ & H2 & _).
  split; assumption.
Defined.


(** * The signal of a ticker *)

Lemma F2R_3 : F2R 3 = 3%R.
Proof. F2R_constant. Qed.

Lemma F2R_minus_3 : F2R (-3) = (-3)%R.
Proof.
  pose proof F2R_3 as H. unfold F2R in *.
  change (Prim2SF 3) with (S754_finite false 6755399441055744 (-51)) in H.
  change (Prim2SF (-3)) with (S754_finite true 6755399441055744 (-51)).
  cbn [SF2R] in *. lra.
Qed.

(** C5 fails at a volume that is NaN: a change below -3.0 still gives
    PANIC_SELL, not NEUTRAL. *)
Lemma detectSignal_nan_volume_panic :
  let tickerData := sampleTicker "XUSDT" "-3.5" "n/a" in
  is_nan (parseDecimal (Raw.quoteVolume tickerData)) = true /\
  is_nan (parseDecimal (Raw.priceChangePercent tickerData)) = false /\
  type (detectSignal parseDecimal tickerData) = PANIC_SELL /\
  priority (detectSignal parseDecimal tickerData) = high /\
  type (detectSignal parseDecimal tickerData) <> NEUTRAL.
Proof. vm_compute. repeat split; try reflexivity. discriminate. Qed.

(** C5, as the code has it: the signal is WHALE_ACTIVITY with priority
    ['high'] exactly when the change is above 3.0 and the quote volume above
    1,000,000; otherwise it is PANIC_SELL with priority ['high'] exactly when
    the change is below -3.0; otherwise NEUTRAL with priority ['low'].  A
    value equal to a threshold does not pass it, and a change that is NaN
    gives NEUTRAL; a volume that is NaN never gives WHALE_ACTIVITY, but it
    does not give NEUTRAL by itself: the signal is then PANIC_SELL exactly
    when the change is below -3.0, and NEUTRAL otherwise. *)
Theorem detectSignal_thresholds (parseFloat : string -> number) (tickerData : Raw.Ticker) :
  let p := parseFloat (Raw.priceChangePercent tickerData) in
  let v := parseFloat (Raw.quoteVolume tickerData) in
  let s := detectSignal parseFloat tickerData in
  let whale := (3.0 <? p)%float = true /\ (1000000 <? v)%float = true in
  let panic := (p <? -3.0)%float = true in
  (type s = WHALE_ACTIVITY /\ priority s = high <-> whale) /\
  (type s = PANIC_SELL /\ priority s = high <-> ~ whale /\ panic) /\
  (type s = NEUTRAL /\ priority s = low <-> ~ whale /\ ~ panic) /\
  (type s = WHALE_ACTIVITY <-> whale) /\
  (type s = PANIC_SELL <-> ~ whale /\ panic) /\
  (type s = NEUTRAL <-> ~ whale /\ ~ panic) /\
  ((p =? 3.0)%float = true -> type s = NEUTRAL) /\
  ((v =? 1000000)%float = true -> type s <> WHALE_ACTIVITY) /\
  ((p =? -3.0)%float = true -> type s = NEUTRAL) /\
  (is_nan p = true -> type s = NEUTRAL /\ priority s = low) /\
  (is_nan v = true ->
     type s <> WHALE_ACTIVITY /\
     (type s = PANIC_SELL /\ priority s = high <-> panic) /\
     (type s = NEUTRAL /\ priority s = low <-> ~ panic)).
Proof.
  intros p v s whale panic.
  assert (Hpp : (3.0 <? p)%float = true -> (p <? -3.0)%float = true -> False).
  { intros H1 H2. destruct (is_nan p) eqn:Np.
    - destruct (ltb_nan p 3 Np) as [_ H]. congruence.
    - apply (ltb_F2R 3 p eq_refl Np) in H1. apply (ltb_F2R p (-3) Np eq_refl) in H2.
      rewrite F2R_3 in H1. rewrite F2R_minus_3 in H2. lra. }
  assert (E3 : (p =? 3.0)%float = true -> (3.0 <? p)%float = false /\ (p <? -3.0)%float = false).
  { intros H. destruct (eqb_not_nan _ _ H) as [Np _].
    apply (eqb_F2R p 3 Np eq_refl) in H. rewrite F2R_3 in H. split.
    - apply (ltb_false_F2R 3 p eq_refl Np). rewrite F2R_3. lra.
    - apply (ltb_false_F2R p (-3) Np eq_refl). rewrite F2R_minus_3. lra. }
  assert (Em3 : (p =? -3.0)%float = true -> (3.0 <? p)%float = false /\ (p <? -3.0)%float = false).
  { intros H. destruct (eqb_not_nan _ _ H) as [Np _].
    apply (eqb_F2R p (-3) Np eq_refl) in H. rewrite F2R_minus_3 in H. split.
    - apply (ltb_false_F2R 3 p eq_refl Np). rewrite F2R_3. lra.
    - apply (ltb_false_F2R p (-3) Np eq_refl). rewrite F2R_minus_3. lra. }
  assert (Ev : (v =? 1000000)%float = true -> (1000000 <? v)%float = false)
    by (intros H; apply (eqb_not_ltb _ _ H)).
  assert (Np := ltb_nan p). assert (Nv := ltb_nan v).
  unfold whale, panic, s, detectSignal.
  cbn [WHALE_THRESHOLD_PRICE_CHANGE WHALE_THRESHOLD_VOLUME PANIC_THRESHOLD_PRICE_CHANGE CONFIG].
  fold p v.
  destruct ((3.0 <? p)%float) eqn:E1, ((1000000 <? v)%float) eqn:E2,
    ((p <? -3.0)%float) eqn:E3'; cbn [andb type priority];
    repeat split; try tauto; try discriminate; try congruence;
    try (intros []; congruence); try (intros H; exfalso; tauto);
    try (intros H; pose proof (Np 3.0%float H); pose proof (Np (-3.0)%float H);
         intuition congruence);
    try (intros H; pose proof (Nv 1000000%float H); intuition congruence);
    try (match goal with
         | H : is_nan p = true |- _ =>
             pose proof (Np 3.0%float H); pose proof (Np (-3.0)%float H)
         end; intuition congruence);
    try (match goal with
         | H : is_nan v = true |- _ => pose proof (Nv 1000000%float H)
         end; intuition congruence);
    intuition congruence.
Qed.

(** The signals at the thresholds and next to them. *)
Example detectSignal_boundaries :
  type (detectSignal parseDecimal (sampleTicker "XUSDT" "3.0" "2000000")) = NEUTRAL /\
  type (detectSignal parseDecimal (sampleTicker "XUSDT" "3.0001" "1000001")) = WHALE_ACTIVITY /\
  type (detectSignal parseDecimal (sampleTicker "XUSDT" "3.0001" "1000000")) = NEUTRAL /\
  type (detectSignal parseDecimal (sampleTicker "XUSDT" "-3.0" "0")) = NEUTRAL /\
  type (detectSignal parseDecimal (sampleTicker "XUSDT" "-3.0001" "0")) = PANIC_SELL /\
  type (detectSignal parseDecimal (sampleTicker "XUSDT" "n/a" "2000000")) = NEUTRAL.
Proof. vm_compute. repeat split; reflexivity. Qed.


(** * The base asset *)

(** ** Strings *)

Lemma prefix_app (pat post : string) : String.prefix pat (pat +:+ post) = true.
Proof.
  induction pat as [|c pat IH]; simpl.
  - destruct post; reflexivity.
  - destruct (ascii_dec c c); [exact IH|congruence].
Qed.

Lemma prefix_inv (pat s : string) :
  String.prefix pat s = true -> exists post, s = pat +:+ post.
Proof.
  revert s. induction pat as [|c pat IH]; intros s H.
  - exists s. reflexivity.
  - destruct s as [|c' s]; simpl in H; [discriminate|].
    destruct (ascii_dec c c') as [->|]; [|discriminate].
    destruct (IH _ H) as [post ->]. exists post. reflexivity.
Qed.

Lemma string_drop_app (pat post : string) :
  string_drop (String.length pat) (pat +:+ post) = post.
Proof. induction pat as [|c pat IH]; simpl; [destruct post; reflexivity|exact IH]. Qed.

Lemma String_replace_unfold (pat rep s : string) :
  String_replace pat rep s =
    if String.prefix pat s then rep +:+ string_drop (String.length pat) s
    else match s with
         | EmptyString => EmptyString
         | String c s' => String c (String_replace pat rep s')
         end.
Proof. destruct s; reflexivity. Qed.

(** Where [pat] does not occur, nothing is replaced. *)
Lemma String_replace_absent (pat rep s : string) :
  (forall pre post, s <> pre +:+ pat +:+ post) ->
  String_replace pat rep s = s.
Proof.
  induction s as [|c s IH]; intros H; rewrite String_replace_unfold.
  - destruct (String.prefix pat EmptyString) eqn:E; [|reflexivity].
    destruct (prefix_inv _ _ E) as [post Hp]. destruct (H EmptyString post). exact Hp.
  - destruct (String.prefix pat (String c s)) eqn:E.
    + destruct (prefix_inv _ _ E) as [post Hp]. destruct (H EmptyString post). exact Hp.
    + f_equal. apply IH. intros pre post ->. apply (H (String c pre) post). reflexivity.
Qed.

(** The leftmost occurrence of [pat] is the one replaced. *)
Lemma String_replace_leftmost (pat rep pre post : string) :
  (forall pre' post', pre +:+ pat +:+ post = pre' +:+ pat +:+ post' ->
     (String.length pre <= String.length pre')%nat) ->
  String_replace pat rep (pre +:+ pat +:+ post) = pre +:+ rep +:+ post.
Proof.
  induction pre as [|c pre IH]; intros H; rewrite String_replace_unfold.
  - change (EmptyString +:+ pat +:+ post) with (pat +:+ post).
    rewrite prefix_app, string_drop_app. reflexivity.
  - destruct (String.prefix pat (String c pre +:+ pat +:+ post)) eqn:E.
    + destruct (prefix_inv _ _ E) as [post' Hp].
      specialize (H EmptyString post' Hp).
      change (S (String.length pre) <= 0)%nat in H. lia.
    + change (String c pre +:+ pat +:+ post) with (String c (pre +:+ pat +:+ post)).
      change (String c pre +:+ rep +:+ post) with (String c (pre +:+ rep +:+ post)).
      f_equal. apply IH. intros pre' post' Hp.
      specialize (H (String c pre') post' (f_equal (String c) Hp)).
      change (S (String.length pre) <= S (String.length pre'))%nat in H. lia.
Qed.


Lemma append_nil_r (s : string) : s +:+ EmptyString = s.
Proof. induction s as [|c s IH]; [reflexivity|]. change (String c (s +:+ "") = String c s). now rewrite IH. Qed.

Lemma String_endsWith_unfold (s suffix : string) :
  String_endsWith s suffix =
    String.eqb s suffix ||
    match s with
    | EmptyString => false
    | String _ s' => String_endsWith s' suffix
    end.
Proof. destruct s; reflexivity. Qed.

Lemma String_endsWith_spec (s suffix : string) :
  String_endsWith s suffix = true <-> exists pre, s = pre +:+ suffix.
Proof.
  induction s as [|c s IH]; rewrite String_endsWith_unfold.
  - rewrite orb_false_r, String.eqb_eq. split.
    + intros <-. exists EmptyString. reflexivity.
    + intros [[|c pre] H]; [exact H|discriminate].
  - rewrite orb_true_iff, String.eqb_eq, IH. split.
    + intros [<-|[pre ->]]; [exists EmptyString|exists (String c pre)]; reflexivity.
    + intros [[|c' pre] H]; [left; exact H|right].
      injection H as -> ->. exists pre. reflexivity.
Qed.

(** C2, as the code has it: [baseAsset] is the symbol without its leftmost
    ['USDT'], wherever that stands; a symbol that does not contain ['USDT'] is
    kept as it is, and a symbol whose only ['USDT'] is its end loses that
    end. *)
Theorem analyzeTicker_baseAsset (parseFloat : string -> number) (tickerData : Raw.Ticker) :
  let sym := Raw.symbol tickerData in
  let base := baseAsset (analyzeTicker parseFloat tickerData) in
  base = String_replace "USDT" "" sym /\
  ((forall pre post, sym <> pre +:+ "USDT" +:+ post) -> base = sym) /\
  (forall pre post,
     sym = pre +:+ "USDT" +:+ post ->
     (forall pre' post', sym = pre' +:+ "USDT" +:+ post' ->
        (String.length pre <= String.length pre')%nat) ->
     base = pre +:+ post) /\
  (forall pre,
     sym = pre +:+ "USDT" ->
     (forall pre' post', sym = pre' +:+ "USDT" +:+ post' -> pre' = pre) ->
     String_endsWith sym "USDT" = true /\ base = pre).
Proof.
  intros sym base. unfold base, analyzeTicker; cbn [baseAsset]. fold sym.
  assert (L : forall pre post,
     sym = pre +:+ "USDT" +:+ post ->
     (forall pre' post', sym = pre' +:+ "USDT" +:+ post' ->
        (String.length pre <= String.length pre')%nat) ->
     String_replace "USDT" "" sym = pre +:+ post).
  { intros pre post E Hmin. rewrite E. rewrite String_replace_leftmost.
    + reflexivity.
    + intros pre' post' E'. apply (Hmin pre' post'). rewrite E. exact E'. }
  split; [reflexivity|]. split; [apply String_replace_absent|]. split; [exact L|].
  intros pre E Honly. split.
  - apply String_endsWith_spec. exists pre. exact E.
  - rewrite <- (append_nil_r pre). apply L.
    + rewrite E. reflexivity.
    + intros pre' post' E'. rewrite (Honly _ _ E'). lia.
Qed.

(** C2 fails on a symbol that starts with ['USDT']: it does not end with the
    suffix, and is not kept. *)
Lemma analyzeTicker_baseAsset_not_suffix_only :
  let tickerData := sampleTicker "USDTTRY" "4.99" "2000000" in
  String_endsWith (Raw.symbol tickerData) "USDT" = false /\
  baseAsset (analyzeTicker parseDecimal tickerData) = "TRY"%string /\
  baseAsset (analyzeTicker parseDecimal tickerData) <> Raw.symbol tickerData.
Proof. cbv zeta. split; [reflexivity|]. split; [reflexivity|]. discriminate. Qed.

(** * The new signals *)

(** ** The map of the previous signals *)

Lemma previousSignals_of_snoc (l : list AnalyzedTicker) (x : AnalyzedTicker) :
  previousSignals_of (l ++ [x]) =
    if decide (type (signal x) ≠ NEUTRAL)
    then <[symbol x := type (signal x)]> (previousSignals_of l)
    else previousSignals_of l.
Proof. unfold previousSignals_of. rewrite foldl_app. reflexivity. Qed.

Lemma getActiveSignals_snoc (l : list AnalyzedTicker) (x : AnalyzedTicker) :
  getActiveSignals (l ++ [x]) =
    getActiveSignals l ++ (if decide (type (signal x) ≠ NEUTRAL) then [x] else []).
Proof.
  unfold getActiveSignals. rewrite filter_app. reflexivity.
Qed.

Lemma elem_of_getActiveSignals (l : list AnalyzedTicker) (p : AnalyzedTicker) :
  p ∈ getActiveSignals l <-> p ∈ l /\ type (signal p) ≠ NEUTRAL.
Proof. unfold getActiveSignals. rewrite list_elem_of_filter. tauto. Qed.

(** An absent key: no entry of the previous data with a signal has the symbol. *)
Lemma previousSignals_of_None (previousData : list AnalyzedTicker) (s : string) :
  previousSignals_of previousData !! s = None <->
  forall p, p ∈ previousData -> symbol p = s -> type (signal p) = NEUTRAL.
Proof.
  induction previousData as [|x l IH] using rev_ind.
  - unfold previousSignals_of; cbn. rewrite lookup_empty. split; [|reflexivity].
    intros _ p H. inversion H.
  - rewrite previousSignals_of_snoc. destruct (decide (type (signal x) ≠ NEUTRAL)) as [Hx|Hx].
    + rewrite lookup_insert_None, IH. split.
      * intros [H1 H2] p Hp Hs. apply elem_of_app in Hp as [Hp|Hp]; [eauto|].
        apply list_elem_of_singleton in Hp as ->. congruence.
      * intros H. split.
        -- intros p Hp. apply H. apply elem_of_app. left. exact Hp.
        -- intros Hs. apply Hx. apply H; [|exact Hs]. apply elem_of_app. right. constructor.
    + rewrite IH. split.
      * intros H p Hp Hs. apply elem_of_app in Hp as [Hp|Hp]; [eauto|].
        apply list_elem_of_singleton in Hp as ->.
        destruct (type (signal x)); try reflexivity; exfalso; apply Hx; discriminate.
      * intros H p Hp. apply H. apply elem_of_app. left. exact Hp.
Qed.

(** A key that is present holds the type of an entry with a signal. *)
Lemma previousSignals_of_Some (previousData : list AnalyzedTicker) (s : string) (t : SignalType) :
  previousSignals_of previousData !! s = Some t ->
  exists p, p ∈ previousData /\ symbol p = s /\ type (signal p) = t /\ t ≠ NEUTRAL.
Proof.
  induction previousData as [|x l IH] using rev_ind.
  - unfold previousSignals_of; cbn. rewrite lookup_empty. discriminate.
  - rewrite previousSignals_of_snoc. destruct (decide (type (signal x) ≠ NEUTRAL)) as [Hx|Hx].
    + rewrite lookup_insert_Some. intros [[<- <-]|[_ H]].
      * exists x. split; [apply elem_of_app; right; constructor|]. tauto.
      * destruct (IH H) as (p & Hp & Hr). exists p. split; [apply elem_of_app; left; exact Hp|exact Hr].
    + intros H. destruct (IH H) as (p & Hp & Hr). exists p.
      split; [apply elem_of_app; left; exact Hp|exact Hr].
Qed.

(** Where a symbol names at most one entry with a signal, the key holds the
    type of that entry. *)
Lemma previousSignals_of_unique (previousData : list AnalyzedTicker) (p : AnalyzedTicker) :
  NoDup (symbol <$> getActiveSignals previousData) ->
  p ∈ previousData -> type (signal p) ≠ NEUTRAL ->
  previousSignals_of previousData !! symbol p = Some (type (signal p)).
Proof.
  intros Hnd Hp Hn.
  destruct (previousSignals_of previousData !! symbol p) as [t|] eqn:E.
  - destruct (previousSignals_of_Some _ _ _ E) as (q & Hq & Hs & Ht & Hnq).
    f_equal. subst t.
    assert (Hpa : p ∈ getActiveSignals previousData) by (apply elem_of_getActiveSignals; tauto).
    assert (Hqa : q ∈ getActiveSignals previousData)
      by (apply elem_of_getActiveSignals; tauto).
    apply list_elem_of_lookup in Hpa as [i Hi]. apply list_elem_of_lookup in Hqa as [j Hj].
    assert (i = j).
    { apply (NoDup_lookup _ i j (symbol p) Hnd); rewrite list_lookup_fmap.
      - rewrite Hi. reflexivity.
      - rewrite Hj. cbn. congruence. }
    subst j. congruence.
  - exfalso. apply Hn. eapply previousSignals_of_None; eauto.
Qed.

Lemma foldl_snoc_filter {A} (P : A -> Prop) `{!forall x, Decision (P x)}
    (f : list A -> A -> list A) (l acc : list A) :
  (forall acc x, f acc x = if decide (P x) then acc ++ [x] else acc) ->
  foldl f acc l = acc ++ filter P l.
Proof.
  intros Hf. revert acc. induction l as [|x l IH]; intros acc.
  - cbn. rewrite app_nil_r. reflexivity.
  - rewrite filter_cons. cbn [foldl]. rewrite IH, Hf. destruct (decide (P x)).
    + rewrite <- app_assoc. reflexivity.
    + reflexivity.
Qed.

(** C4: for a previous set in which a symbol names at most one entry with
    a signal: against an empty previous set every entry with a signal is
    new; otherwise the new signals are the entries of the current set, in
    its order, that are reported as the specification words it; an entry
    whose symbol had the same signal before is absent, one that went from
    WHALE_ACTIVITY to PANIC_SELL or back is present, and a NEUTRAL entry is
    never present. *)
Theorem detectNewSignals_diff (previousSet currentSet : list AnalyzedTicker) :
  NoDup (symbol <$> getActiveSignals previousSet) ->
  let newSignals := detectNewSignals (Some previousSet) currentSet in
  (previousSet = [] -> newSignals = getActiveSignals currentSet) /\
  newSignals = filter (reported_as_new previousSet) currentSet /\
  (forall item p, p ∈ previousSet -> symbol p = symbol item ->
     type (signal p) ≠ NEUTRAL -> type (signal p) = type (signal item) ->
     item ∉ newSignals) /\
  (forall item p, item ∈ currentSet -> p ∈ previousSet -> symbol p = symbol item ->
     (type (signal p) = WHALE_ACTIVITY /\ type (signal item) = PANIC_SELL) \/
     (type (signal p) = PANIC_SELL /\ type (signal item) = WHALE_ACTIVITY) ->
     item ∈ newSignals) /\
  (forall item, type (signal item) = NEUTRAL -> item ∉ newSignals).
Proof.
  intros Hnd newSignals.
  assert (Hfilter : newSignals = filter (reported_as_new previousSet) currentSet).
  { subst newSignals. destruct previousSet as [|p0 l0].
    - unfold detectNewSignals, getActiveSignals. apply list_filter_iff.
      intros item. unfold reported_as_new.
      split; [intros H; split; [exact H|left; constructor]|tauto].
    - unfold detectNewSignals. cbv beta iota. revert Hnd.
      generalize (p0 :: l0). clear p0 l0. intros previousSet Hnd.
      rewrite (foldl_snoc_filter (reported_as_new previousSet)); [reflexivity|].
      intros acc item. unfold reported_as_new.
      destruct (decide (type (signal item) ≠ NEUTRAL)) as [Hi|Hi].
      + destruct (previousSignals_of previousSet !! symbol item) as [t|] eqn:E.
        * destruct (previousSignals_of_Some _ _ _ E) as (p & Hp & Hs & Ht & Hn).
          destruct (decide (t ≠ type (signal item))) as [Hd|Hd].
          -- rewrite decide_True; [reflexivity|]. split; [exact Hi|]. right.
             apply Exists_exists. exists p. split; [exact Hp|]. subst t. tauto.
          -- rewrite decide_False; [reflexivity|]. intros [_ [H|H]].
             ++ rewrite Forall_forall in H. apply Hn. subst t. apply (H p Hp Hs).
             ++ apply Exists_exists in H as (q & Hq & Hqs & Hqn & Hqd).
                pose proof (previousSignals_of_unique _ q Hnd Hq Hqn) as Hu.
                rewrite Hqs, E in Hu. apply Hqd. apply dec_stable in Hd. congruence.
        * rewrite decide_True; [reflexivity|]. split; [exact Hi|]. left.
          apply Forall_forall. intros p Hp Hs. eapply previousSignals_of_None; eauto.
      + rewrite decide_False; [reflexivity|]. tauto. }
  split; [|split; [exact Hfilter|split; [|split]]].
  - intros ->. reflexivity.
  - intros item p Hp Hs Hn Ht. rewrite Hfilter, list_elem_of_filter. intros [[_ [H|H]] _].
    + rewrite Forall_forall in H. apply Hn. apply (H p Hp Hs).
    + apply Exists_exists in H as (q & Hq & Hqs & Hqn & Hqd).
      pose proof (previousSignals_of_unique _ q Hnd Hq Hqn) as Hu.
      pose proof (previousSignals_of_unique _ p Hnd Hp Hn) as Hu'.
      rewrite Hqs in Hu. rewrite Hs in Hu'. congruence.
  - intros item p Hi Hp Hs Ht. rewrite Hfilter, list_elem_of_filter. split; [|exact Hi].
    split; [destruct Ht as [[_ ->]|[_ ->]]; discriminate|]. right.
    apply Exists_exists. exists p. split; [exact Hp|]. split; [exact Hs|].
    destruct Ht as [[-> ->]|[-> ->]]; split; discriminate.
  - intros item Hn. rewrite Hfilter, list_elem_of_filter. intros [[H _] _]. congruence.
Qed.

Lemma detectNewSignals_diff_witness :
  NoDup (symbol <$> getActiveSignals samplePrevious) /\
  detectNewSignals (Some samplePrevious) sampleSnapshot =
    filter (reported_as_new samplePrevious) sampleSnapshot.
Proof.
  assert (H : NoDup (symbol <$> getActiveSignals samplePrevious)).
  { vm_compute. apply NoDup_singleton. }
  split; [exact H|].
  destruct (detectNewSignals_diff samplePrevious sampleSnapshot H) as (_ & H1 & _).
  exact H1.
Defined.


(** * The pipeline *)

(** C8: an empty snapshot gives an empty analyzed set and an empty list of
    top gainers, and no event for new signals; that event is triggered
    exactly when there are new signals. *)
Theorem processData_empty_snapshot (parseFloat : string -> number)
    (previousAnalyzedData : list AnalyzedTicker) :
  processData parseFloat previousAnalyzedData [] =
    ([], [dataAnalyzed []; topGainersUpdated []]) /\
  forall tickerDataArray newSignals,
    newSignalsDetected newSignals ∈ (processData parseFloat previousAnalyzedData tickerDataArray).2 <->
    newSignals = detectNewSignals (Some previousAnalyzedData)
                   (analyzeTickerArray parseFloat tickerDataArray)
    /\ newSignals <> [].
Proof.
  split.
  - unfold processData. cbn. destruct previousAnalyzedData; reflexivity.
  - intros snap ns. unfold processData. cbn [snd].
    set (l := detectNewSignals _ _).
    destruct l as [|a l'] eqn:E; cbn.
    + rewrite !elem_of_cons, elem_of_nil. split.
      * intros [H|[H|[]]]; discriminate.
      * intros [-> H]. congruence.
    + rewrite !elem_of_cons, elem_of_nil. split.
      * intros [H|[H|[H|[]]]]; try discriminate. injection H as ->. split; [reflexivity|discriminate].
      * intros [-> _]. right; right; left. reflexivity.
Qed.

(** C9: after an empty snapshot the retained set is empty, and the next
    call reports every entry of its snapshot that has a signal, whatever was
    retained before the empty snapshot. *)
Theorem empty_snapshot_resets_baseline (parseFloat : string -> number)
    (previousAnalyzedData : list AnalyzedTicker) (tickerDataArray : list Raw.Ticker) :
  let afterEmpty := (processData parseFloat previousAnalyzedData []).1 in
  let analyzedData := analyzeTickerArray parseFloat tickerDataArray in
  let newSignals := detectNewSignals (Some afterEmpty) analyzedData in
  afterEmpty = [] /\
  newSignals = getActiveSignals analyzedData /\
  (forall item, item ∈ analyzedData -> type (signal item) ≠ NEUTRAL -> item ∈ newSignals) /\
  (processData parseFloat afterEmpty tickerDataArray).2 =
    [dataAnalyzed analyzedData; topGainersUpdated (getTopGainers analyzedData (Some 5))]
      ++ (if (0 <? length (getActiveSignals analyzedData))%nat
          then [newSignalsDetected (getActiveSignals analyzedData)] else []).
Proof.
  cbv zeta. cbn [processData fst snd analyzeTickerArray map].
  split; [reflexivity|]. split; [reflexivity|]. split; [|reflexivity].
  intros item Hi Hn. cbn [detectNewSignals]. unfold getActiveSignals.
  apply list_elem_of_filter. tauto.
Qed.

(** C3 fails: a negative limit is accepted, and a ranking is returned. *)
Lemma getTopGainers_negative_limit_accepted :
  let analyzedData :=
    analyzeTickerArray parseDecimal
      [sampleTicker "BTCUSDT" "4.99" "2000000"; sampleTicker "ETHUSDT" "1.5" "1000"] in
  getTopGainers analyzedData (Some (-1)) =
    [analyzeTicker parseDecimal (sampleTicker "BTCUSDT" "4.99" "2000000")].
Proof. vm_compute. reflexivity. Qed.

(** C3, as the code has it: a limit that is left out is 5; a negative limit
    is not rejected, it drops that many entries from the end of the
    ranking; [processData] always ranks with the limit 5. *)
Theorem getTopGainers_limit (parseFloat : string -> number) :
  (forall analyzedData, getTopGainers analyzedData None = getTopGainers analyzedData (Some 5)) /\
  (forall analyzedData limit, limit < 0 ->
     getTopGainers analyzedData (Some limit) =
       take (length (rankedGainers analyzedData) - Z.to_nat (- limit))
         (rankedGainers analyzedData)) /\
  (forall previousAnalyzedData tickerDataArray topGainers,
     topGainersUpdated topGainers ∈ (processData parseFloat previousAnalyzedData tickerDataArray).2 <->
     topGainers = getTopGainers (analyzeTickerArray parseFloat tickerDataArray) (Some 5)).
Proof.
  split; [reflexivity|]. split.
  - intros d limit Hl. unfold getTopGainers, Array_slice0.
    change (default 5 (Some limit)) with limit.
    destruct (Z.ltb_spec limit 0); [|lia]. f_equal. lia.
  - intros prev snap tg. unfold processData. cbn [snd].
    rewrite !elem_of_app, !elem_of_cons, elem_of_nil.
    destruct (0 <? length _)%nat; rewrite ?elem_of_cons, elem_of_nil; split.
    + intros [[H|[H|[]]]|[H|[]]]; try discriminate. congruence.
    + intros ->. left. right. left. reflexivity.
    + intros [[H|[H|[]]]|[]]; try discriminate. congruence.
    + intros ->. left. right. left. reflexivity.
Qed.

(** C10: the score is not monotone across the bands: a change of 4.99
    scores 70, the larger change 5.0 scores 50. *)
Theorem volatility_score_not_monotone :
  exists p q : number,
    is_nan p = false /\ is_nan q = false /\
    (Math.abs p <? Math.abs q)%float = true /\
    (score (calculateVolatilityScore q) <? score (calculateVolatilityScore p))%float = true /\
    Math.abs p = 4.99%float /\ score (calculateVolatilityScore p) = 70%float /\
    Math.abs q = 5.0%float /\ score (calculateVolatilityScore q) = 50%float.
Proof.
  exists 4.99%float, 5.0%float. vm_compute. repeat split; reflexivity.
Qed.


(** * Further properties of the engine *)

(** ** The volatility score, band by band *)

Lemma Prim2SF_eq (x y : number) : Prim2SF x = Prim2SF y -> x = y.
Proof. intros H. rewrite <- (SF2Prim_Prim2SF x), <- (SF2Prim_Prim2SF y), H. reflexivity. Qed.

Lemma abs_opp (x : number) : Math.abs (- x) = Math.abs x.
Proof.
  apply Prim2SF_eq. unfold Math.abs.
  rewrite !FloatAxioms.abs_spec, FloatAxioms.opp_spec.
  destruct (Prim2SF x) as [s|s| |s m e]; reflexivity.
Qed.

Section MoreNumbers.
Local Open Scope R_scope.

Lemma F2R_abs (x : number) : F2R (Math.abs x) = Rabs (F2R x).
Proof.
  unfold F2R, Math.abs. rewrite FloatAxioms.abs_spec.
  destruct (Prim2SF x) as [s|s| |s m e]; cbn [SFabs SF2R].
  - rewrite Rabs_R0. reflexivity.
  - pose proof (pow2_pos emax). destruct s.
    + rewrite Rabs_Ropp, Rabs_pos_eq by lra. reflexivity.
    + rewrite Rabs_pos_eq by lra. reflexivity.
  - rewrite Rabs_R0. reflexivity.
  - pose proof (pow2_pos e). assert (0 < IZR (Z.pos m)) by (apply IZR_lt; lia).
    assert (0 < IZR (Z.pos m) * pow2 e) by nra. destruct s.
    + rewrite Rabs_Ropp, Rabs_pos_eq by lra. reflexivity.
    + rewrite Rabs_pos_eq by lra. reflexivity.
Qed.

(** The number that stands for a small integer. *)
Lemma of_Z_value (n : Z) :
  (0 <= n < 2 ^ 53)%Z ->
  nonneg (of_uint63 (Uint63.of_Z n)) /\ F2R (of_uint63 (Uint63.of_Z n)) = IZR n.
Proof.
  intros Hn. destruct (Z.eq_dec n 0%Z) as [->|Hnz].
  - split; [vm_compute; exact I|reflexivity].
  - assert (Hsf : Prim2SF (of_uint63 (of_Z n)) = binary_normalize prec emax n 0 false).
    { rewrite of_uint63_spec, of_Z_spec. rewrite Z.mod_small; [reflexivity|].
      split; [lia|]. assert (2 ^ 53 < wB)%Z by (vm_compute; reflexivity). lia. }
    destruct (binary_normalize_integer n ltac:(lia)) as [Hnf Hval].
    split.
    + unfold nonneg. rewrite Hsf.
      destruct (binary_normalize prec emax n 0 false) as [[]|[]| |[] m' e'];
        try contradiction; exact I.
    + unfold F2R. rewrite Hsf. exact Hval.
Qed.

(** A nonnegative number whose value is a small integer is that integer. *)
Lemma nonneg_integer (x : number) (n : Z) :
  nonneg x -> F2R x = IZR n -> (0 <= n < 2 ^ 53)%Z -> x = of_uint63 (Uint63.of_Z n).
Proof.
  intros Hx Hv Hn. destruct (of_Z_value n Hn) as [Hnn Hval].
  apply nonneg_inj; [exact Hx|exact Hnn|]. rewrite Hv, Hval. reflexivity.
Qed.

(** The score as a function of the absolute change, band by band. *)
Lemma score_cases (p : number) :
  is_nan p = false ->
  let a := Math.abs p in
  let v := calculateVolatilityScore p in
  nonneg a /\
  ((5 <= F2R a /\ level v = high /\
    score v = Math.min 100 (Math.round (a / 10 * 100)%float)) \/
   (2 <= F2R a < 5 /\ level v = medium /\ score v = Math.round (a / 5 * 70)%float) \/
   (F2R a < 2 /\ level v = low /\ score v = Math.round (a / 2 * 30)%float)).
Proof.
  intros Hp a v. pose proof (abs_nonneg p Hp) as Ha. fold a in Ha.
  pose proof (nonneg_not_nan a Ha) as Han. split; [exact Ha|].
  destruct positive_finite_constants as (H2 & H5 & H10 & H30 & H70 & H100).
  unfold v, calculateVolatilityScore. fold a.
  cbn [VOLATILITY_HIGH_THRESHOLD VOLATILITY_MEDIUM_THRESHOLD CONFIG].
  destruct (5 <=? a)%float eqn:E5; [|destruct (2 <=? a)%float eqn:E2]; cbn [score level].
  - left. apply (leb_F2R 5 a eq_refl Han) in E5. rewrite F2R_5 in E5.
    split; [exact E5|]. split; [reflexivity|].
    destruct (div_rounds_to a 10 Ha H10) as (Hq & _ & _).
    destruct (mul_rounds_to (a / 10) 100 Hq H100) as (Hy & _ & _).
    destruct (round_nonneg _ Hy) as [Ht _].
    destruct (min_100_nonneg _ Ht) as [Hm Hmle].
    destruct (clamp_nonneg _ Hm) as (_ & _ & Hid). apply Hid. exact Hmle.
  - right; left. apply (leb_false_F2R 5 a eq_refl Han) in E5. rewrite F2R_5 in E5.
    apply (leb_F2R 2 a eq_refl Han) in E2. rewrite F2R_2 in E2.
    split; [lra|]. split; [reflexivity|].
    apply (band_score a 5 70 5 70 Ha H5 H70 ltac:(lra) ltac:(lia)
             ltac:(rewrite F2R_5; lra) F2R_70 ltac:(lia)).
  - right; right. apply (leb_false_F2R 2 a eq_refl Han) in E2. rewrite F2R_2 in E2.
    split; [lra|]. split; [reflexivity|].
    apply (band_score a 2 30 2 30 Ha H2 H30 ltac:(lra) ltac:(lia)
             ltac:(rewrite F2R_2; lra) F2R_30 ltac:(lia)).
Qed.

(** The scaled change of the high band, and its bounds. *)
Lemma high_scaled (a : number) :
  nonneg a -> 5 <= F2R a ->
  let y := (a / 10 * 100)%float in
  nonneg y /\ 50 <= F2R y /\
  (F2R a <= 50 -> F2R (a / 10) <= 5 /\ F2R y <= 500).
Proof.
  intros Ha H5a y. destruct positive_finite_constants as (_ & _ & H10 & _ & _ & H100).
  pose proof pow2_971_large. pose proof pow2_971_1024.
  destruct (div_rounds_to a 10 Ha H10) as (Hq & _ & _).
  destruct (mul_rounds_to (a / 10) 100 Hq H100) as (Hy & _ & _). fold y in Hy.
  assert (Hhalf : representable (1 / 2)).
  { right. exists 4503599627370496%positive, (-53)%Z. split; [vm_compute; reflexivity|].
    change (Z.pos 4503599627370496) with (2 ^ 52)%Z. rewrite <- pow2_IZR by lia.
    rewrite <- pow2_add. change (52 + -53)%Z with (-1)%Z.
    pose proof (pow2_succ (-1)) as E. change (-1 + 1)%Z with 0%Z in E.
    rewrite pow2_0 in E. lra. }
  assert (Hq5 : 1 / 2 <= F2R (a / 10)).
  { apply div_ge; auto. rewrite F2R_10. lra. }
  split; [exact Hy|]. split.
  - apply mul_ge; auto; [apply (representable_integer 50); lia|]. rewrite F2R_100. lra.
  - intros H50. assert (Hq' : F2R (a / 10) <= 5).
    { apply div_le; auto; [apply (representable_integer 5); lia|lra|lra|].
      rewrite F2R_10. lra. }
    split; [exact Hq'|].
    apply mul_le; auto; [apply (representable_integer 500); lia|lra|lra|].
    rewrite F2R_100. lra.
Qed.
End MoreNumbers.


Section ScoreBounds.
Local Open Scope R_scope.

Lemma F2R_28 : F2R 28 = 28.
Proof. F2R_constant. Qed.

Lemma F2R_42 : F2R 42 = 42.
Proof. F2R_constant. Qed.

(** The score of the medium band from a change [c] of the band on. *)
Lemma medium_score_ge (a c : number) :
  nonneg a -> nonneg c -> F2R c <= F2R a -> F2R a <= 5 ->
  F2R (Math.round (c / 5 * 70)) <= F2R (Math.round (a / 5 * 70)).
Proof.
  intros Ha Hc Hca Ha5.
  destruct positive_finite_constants as (H2 & H5 & H10 & H30 & H70 & H100).
  apply (band_mono c a 5 70 5 70); auto; try lra; try lia.
  - rewrite F2R_5. lra.
  - exact F2R_70.
Qed.

(** The value of the score, band by band. *)
Lemma score_bounds (p : number) :
  is_nan p = false ->
  let a := Math.abs p in
  let v := calculateVolatilityScore p in
  nonneg (score v) /\
  ((5 <= F2R a /\ level v = high /\ 50 <= F2R (score v) <= 100) \/
   (2 <= F2R a < 5 /\ level v = medium /\ 28 <= F2R (score v) <= 70) \/
   (F2R a < 2 /\ level v = low /\ 0 <= F2R (score v) <= 30)).
Proof.
  intros Hp a v.
  destruct positive_finite_constants as (H2 & H5 & H10 & H30 & H70 & H100).
  destruct (score_cases p Hp) as (Ha & [(Hr & Hl & Hs)|[(Hr & Hl & Hs)|(Hr & Hl & Hs)]]);
    fold a in Ha, Hr, Hs; fold v in Hl, Hs; rewrite Hs.
  - destruct (high_scaled a Ha Hr) as (Hy & Hy50 & _).
    destruct (round_nonneg _ Hy) as [Ht _].
    pose proof (round_ge _ 50 Hy Hy50) as Ht50.
    destruct (min_100_nonneg _ Ht) as [Hm Hmle]. split; [exact Hm|]. left.
    split; [exact Hr|]. split; [exact Hl|]. split; [|exact Hmle].
    destruct (Rle_dec (F2R (Math.round (a / 10 * 100))) 100) as [Hle|Hgt].
    + rewrite (min_100_le _ Ht Hle). exact Ht50.
    + rewrite (min_100_ge _ Ht ltac:(lra)). rewrite F2R_100. lra.
  - destruct (band_score a 5 70 5 70 Ha H5 H70 ltac:(lra) ltac:(lia)
                ltac:(rewrite F2R_5; lra) F2R_70 ltac:(lia)) as (Ht & Htr & _).
    split; [exact Ht|]. right; left. split; [exact Hr|]. split; [exact Hl|].
    split; [|lra].
    assert (H2n : nonneg 2) by (apply positive_finite_nonneg; exact H2).
    pose proof (medium_score_ge a 2 Ha H2n ltac:(rewrite F2R_2; lra) ltac:(lra)) as Hm.
    change (Math.round (2 / 5 * 70)) with 28%float in Hm. rewrite F2R_28 in Hm. exact Hm.
  - destruct (band_score a 2 30 2 30 Ha H2 H30 ltac:(lra) ltac:(lia)
                ltac:(rewrite F2R_2; lra) F2R_30 ltac:(lia)) as (Ht & Htr & _).
    split; [exact Ht|]. right; right. split; [exact Hr|]. split; [exact Hl|]. exact Htr.
Qed.
End ScoreBounds.

(** X1: the score does not depend on the direction of the change: a fall
    scores what the rise of the same size scores, level and all (NaN
    included). *)
Theorem calculateVolatilityScore_even (p : number) :
  calculateVolatilityScore (- p) = calculateVolatilityScore p.
Proof. unfold calculateVolatilityScore. rewrite abs_opp. reflexivity. Qed.

(** X2: the score of a numeric change is one of the integers 0, 1, ..., 100. *)
Theorem calculateVolatilityScore_integer (p : number) :
  is_nan p = false ->
  exists n : Z, 0 <= n <= 100 /\
    score (calculateVolatilityScore p) = of_uint63 (Uint63.of_Z n).
Proof.
  intros Hp.
  destruct positive_finite_constants as (H2 & H5 & H10 & H30 & H70 & H100).
  assert (Hint : forall t : number, nonneg t -> (0 <= F2R t <= 100)%R ->
            (exists N : Z, F2R t = IZR N) ->
            exists n : Z, 0 <= n <= 100 /\ t = of_uint63 (Uint63.of_Z n)).
  { intros t Ht [Hlo Hhi] [N HN]. exists N. rewrite HN in Hlo, Hhi.
    apply le_IZR in Hlo, Hhi. split; [lia|].
    apply nonneg_integer; [exact Ht|exact HN|]. split; [lia|].
    assert (100 < 2 ^ 53) by (vm_compute; reflexivity). lia. }
  destruct (score_bounds p Hp) as (Hn & Hb).
  assert (Hr : (0 <= F2R (score (calculateVolatilityScore p)) <= 100)%R).
  { destruct Hb as [(_ & _ & H)|[(_ & _ & H)|(_ & _ & H)]]; lra. }
  apply Hint; [exact Hn|exact Hr|].
  destruct (score_cases p Hp) as (Ha & [(Hr' & Hl & Hs)|[(Hr' & Hl & Hs)|(Hr' & Hl & Hs)]]);
    rewrite Hs.
  - destruct (high_scaled _ Ha Hr') as (Hy & _ & _).
    destruct (round_nonneg _ Hy) as (Ht & N & HN & _).
    destruct (Rle_dec (F2R (Math.round (Math.abs p / 10 * 100))) 100) as [Hle|Hgt].
    + rewrite (min_100_le _ Ht Hle). exists N. exact HN.
    + rewrite (min_100_ge _ Ht ltac:(lra)). exists 100. exact F2R_100.
  - destruct (band_score _ 5 70 5 70 Ha H5 H70 ltac:(lra) ltac:(lia)
                ltac:(rewrite F2R_5; lra) F2R_70 ltac:(lia)) as (Ht & _ & _).
    destruct (div_rounds_to _ 5 Ha H5) as (Hq & _ & _).
    destruct (mul_rounds_to _ 70 Hq H70) as (Hy & _ & _).
    destruct (round_nonneg _ Hy) as (_ & N & HN & _). exists N. exact HN.
  - destruct (div_rounds_to _ 2 Ha H2) as (Hq & _ & _).
    destruct (mul_rounds_to _ 30 Hq H30) as (Hy & _ & _).
    destruct (round_nonneg _ Hy) as (_ & N & HN & _). exists N. exact HN.
Qed.

Lemma calculateVolatilityScore_integer_witness :
  is_nan 7.25 = false /\
  exists n : Z, 0 <= n <= 100 /\
    score (calculateVolatilityScore 7.25) = of_uint63 (Uint63.of_Z n).
Proof.
  split; [reflexivity|]. apply (calculateVolatilityScore_integer 7.25%float). reflexivity.
Defined.

(** X3: the level tells where the score of a numeric change lies: at most 30
    for ['low'], from 28 to 70 for ['medium'], from 50 to 100 for ['high'];
    so a score below 28 is ['low'] and a score above 70 is ['high']. *)
Theorem volatility_level_score (p : number) :
  is_nan p = false ->
  let v := calculateVolatilityScore p in
  (level v = low -> (0 <=? score v)%float = true /\ (score v <=? 30)%float = true) /\
  (level v = medium -> (28 <=? score v)%float = true /\ (score v <=? 70)%float = true) /\
  (level v = high -> (50 <=? score v)%float = true /\ (score v <=? 100)%float = true) /\
  ((score v <? 28)%float = true -> level v = low) /\
  ((70 <? score v)%float = true -> level v = high).
Proof.
  intros Hp v. destruct (score_bounds p Hp) as (Hn & Hb). fold v in Hn, Hb.
  pose proof (nonneg_not_nan _ Hn) as Hnn.
  assert (L0 := leb_F2R 0 (score v) eq_refl Hnn). rewrite F2R_0 in L0.
  assert (L28 := leb_F2R 28 (score v) eq_refl Hnn). rewrite F2R_28 in L28.
  assert (L50 := leb_F2R 50 (score v) eq_refl Hnn). rewrite F2R_50 in L50.
  assert (U30 := leb_F2R (score v) 30 Hnn eq_refl). rewrite F2R_30 in U30.
  assert (U70 := leb_F2R (score v) 70 Hnn eq_refl). rewrite F2R_70 in U70.
  assert (U100 := leb_F2R (score v) 100 Hnn eq_refl). rewrite F2R_100 in U100.
  assert (S28 := ltb_F2R (score v) 28 Hnn eq_refl). rewrite F2R_28 in S28.
  assert (S70 := ltb_F2R 70 (score v) eq_refl Hnn). rewrite F2R_70 in S70.
  destruct Hb as [(_ & Hl & H)|[(_ & Hl & H)|(_ & Hl & H)]]; rewrite Hl;
    repeat split; try discriminate; try tauto;
    try (intros _; split; [apply L0 || apply L28 || apply L50|
                           apply U30 || apply U70 || apply U100]; lra);
    intros Hc; apply S28 in Hc || apply S70 in Hc; lra.
Qed.

Lemma volatility_level_score_witness :
  is_nan (-4.99) = false /\
  (level (calculateVolatilityScore (-4.99)) = medium ->
   (28 <=? score (calculateVolatilityScore (-4.99)))%float = true /\
   (score (calculateVolatilityScore (-4.99)) <=? 70)%float = true).
Proof.
  split; [reflexivity|].
  destruct (volatility_level_score (-4.99)%float eq_refl) as (_ & H & _). exact H.
Defined.

(** X4: among the changes of one level, a larger change never scores less. *)
Theorem calculateVolatilityScore_monotone_in_level (p q : number) :
  is_nan p = false -> is_nan q = false ->
  (Math.abs q <=? Math.abs p)%float = true ->
  level (calculateVolatilityScore q) = level (calculateVolatilityScore p) ->
  (score (calculateVolatilityScore q) <=? score (calculateVolatilityScore p))%float = true.
Proof.
  intros Hp Hq Hqp Hlevel.
  destruct positive_finite_constants as (H2 & H5 & H10 & H30 & H70 & H100).
  pose proof pow2_971_large. pose proof pow2_971_1024.
  destruct (score_bounds p Hp) as (Hnp & Hbp). destruct (score_bounds q Hq) as (Hnq & Hbq).
  apply (leb_F2R _ _ (nonneg_not_nan _ Hnq) (nonneg_not_nan _ Hnp)).
  destruct (score_cases p Hp) as (Ha & Hcp). destruct (score_cases q Hq) as (Hb & Hcq).
  apply (leb_F2R _ _ (nonneg_not_nan _ Hb) (nonneg_not_nan _ Ha)) in Hqp.
  destruct Hcp as [(Hrp & Hlp & Hsp)|[(Hrp & Hlp & Hsp)|(Hrp & Hlp & Hsp)]];
    destruct Hcq as [(Hrq & Hlq & Hsq)|[(Hrq & Hlq & Hsq)|(Hrq & Hlq & Hsq)]];
    try congruence.
  - (* high *)
    destruct (Rle_dec (F2R (Math.abs p)) 50) as [H50|H50].
    + rewrite Hsp, Hsq.
      destruct (high_scaled _ Ha Hrp) as (Hy & _ & Hyb). destruct (Hyb H50) as [Hq5 Hy500].
      destruct (high_scaled _ Hb Hrq) as (Hz & _ & _).
      destruct (div_rounds_to _ 10 Ha H10) as (Hda & _ & _).
      destruct (div_rounds_to _ 10 Hb H10) as (Hdb & _ & _).
      assert (Hd : (F2R (Math.abs q / 10) <= F2R (Math.abs p / 10))%R).
      { apply div_mono; auto; [lra|]. rewrite F2R_10. lra. }
      assert (Hm : (F2R (Math.abs q / 10 * 100) <= F2R (Math.abs p / 10 * 100))%R).
      { apply mul_mono; auto; [lra|]. rewrite F2R_100. lra. }
      pose proof (round_mono _ _ Hz Hy Hm) as Hr.
      destruct (round_nonneg _ Hy) as [Hty _]. destruct (round_nonneg _ Hz) as [Htz _].
      destruct (min_100_nonneg _ Htz) as [_ Hzle].
      destruct (Rle_dec (F2R (Math.round (Math.abs p / 10 * 100))) 100) as [Hle|Hgt].
      * rewrite (min_100_le _ Hty Hle). rewrite (min_100_le _ Htz ltac:(lra)). exact Hr.
      * rewrite (min_100_ge _ Hty ltac:(lra)). rewrite F2R_100. exact Hzle.
    + assert (Hs100 : score (calculateVolatilityScore p) = 100%float).
      { rewrite Hsp. destruct (high_score _ Ha) as (_ & _ & _ & Hsat).
        destruct (high_scaled _ Ha Hrp) as (Hy & _ & _).
        destruct (round_nonneg _ Hy) as [Hty _].
        destruct (min_100_nonneg _ Hty) as [Hm Hmle].
        destruct (clamp_nonneg _ Hm) as (_ & _ & Hid).
        rewrite <- (Hid Hmle). apply Hsat. lra. }
      rewrite Hs100, F2R_100.
      destruct Hbq as [(_ & _ & Hx)|[(_ & _ & Hx)|(_ & _ & Hx)]]; lra.
  - (* medium *)
    rewrite Hsp, Hsq. apply medium_score_ge; auto; lra.
  - (* low *)
    rewrite Hsp, Hsq. apply (band_mono _ _ 2 30 2 30); auto; try lra; try lia.
    + rewrite F2R_2. lra.
    + exact F2R_30.
Qed.

Lemma calculateVolatilityScore_monotone_in_level_witness :
  is_nan (-4.99) = false /\ is_nan 2.5 = false /\
  (Math.abs 2.5 <=? Math.abs (-4.99))%float = true /\
  level (calculateVolatilityScore 2.5) = level (calculateVolatilityScore (-4.99)) /\
  (score (calculateVolatilityScore 2.5) <=? score (calculateVolatilityScore (-4.99)))%float = true.
Proof.
  split; [reflexivity|]. split; [reflexivity|]. split; [reflexivity|]. split; [reflexivity|].
  apply (calculateVolatilityScore_monotone_in_level (-4.99)%float 2.5%float); reflexivity.
Defined.


(** ** The analysis of a snapshot *)

(** A signal that is not NEUTRAL comes from a change beyond 3 percent. *)
Lemma detectSignal_active (parseFloat : string -> number) (tickerData : Raw.Ticker) :
  let p := parseFloat (Raw.priceChangePercent tickerData) in
  let s := detectSignal parseFloat tickerData in
  (type s = WHALE_ACTIVITY -> (3 <? p)%float = true) /\
  (type s = PANIC_SELL -> (p <? -3)%float = true) /\
  (type s ≠ NEUTRAL -> is_nan p = false /\ (3 < Rabs (F2R p))%R).
Proof.
  intros p s.
  assert (Hw : (3 <? p)%float = true -> is_nan p = false /\ (3 < Rabs (F2R p))%R).
  { intros H. destruct (is_nan p) eqn:Np.
    - destruct (ltb_nan p 3 Np) as [_ H']. congruence.
    - split; [reflexivity|]. apply (ltb_F2R 3 p eq_refl Np) in H. rewrite F2R_3 in H.
      rewrite Rabs_pos_eq; lra. }
  assert (Hs : (p <? -3)%float = true -> is_nan p = false /\ (3 < Rabs (F2R p))%R).
  { intros H. destruct (is_nan p) eqn:Np.
    - destruct (ltb_nan p (-3) Np) as [H' _]. congruence.
    - split; [reflexivity|]. apply (ltb_F2R p (-3) Np eq_refl) in H. rewrite F2R_minus_3 in H.
      rewrite Rabs_left; lra. }
  unfold s, detectSignal.
  cbn [WHALE_THRESHOLD_PRICE_CHANGE WHALE_THRESHOLD_VOLUME PANIC_THRESHOLD_PRICE_CHANGE CONFIG].
  fold p.
  destruct (3 <? p)%float eqn:E1;
    destruct (1000000 <? parseFloat (Raw.quoteVolume tickerData))%float eqn:E2;
    destruct (p <? -3)%float eqn:E3; cbn [andb type];
    repeat split; try discriminate; try congruence; auto;
    first [apply Hw; reflexivity | apply Hs; reflexivity].
Qed.

(** X5: an entry with a signal is never of low volatility: its level is
    ['medium'] or ['high'] and its score is at least 42. *)
Theorem active_signal_volatility (parseFloat : string -> number) (tickerData : Raw.Ticker) :
  let item := analyzeTicker parseFloat tickerData in
  type (signal item) ≠ NEUTRAL ->
  level (volatility item) ≠ low /\ (42 <=? score (volatility item))%float = true.
Proof.
  intros item Hs. cbn [item analyzeTicker signal volatility] in *.
  set (p := parseFloat (Raw.priceChangePercent tickerData)) in *.
  destruct (detectSignal_active parseFloat tickerData) as (_ & _ & H).
  destruct (H Hs) as [Hp H3]. fold p in Hp, H3. clear H.
  rewrite <- F2R_abs in H3.
  destruct positive_finite_constants as (H2 & H5 & H10 & H30 & H70 & H100).
  destruct (score_bounds p Hp) as (Hn & Hb).
  destruct (score_cases p Hp) as (Ha & Hc).
  assert (H42 : (42 <= F2R (score (calculateVolatilityScore p)))%R).
  { destruct Hc as [(Hr & Hl & Hsc)|[(Hr & Hl & Hsc)|(Hr & Hl & Hsc)]].
    - destruct Hb as [(_ & _ & Hx)|[(Hx & _)|(Hx & _)]]; lra.
    - rewrite Hsc.
      assert (H3n : nonneg 3) by (vm_compute; exact I).
      pose proof (medium_score_ge (Math.abs p) 3 Ha H3n ltac:(rewrite F2R_3; lra) ltac:(lra)) as Hm.
      change (Math.round (3 / 5 * 70)) with 42%float in Hm. rewrite F2R_42 in Hm. exact Hm.
    - lra. }
  split.
  - destruct Hb as [(_ & -> & _)|[(_ & -> & _)|(_ & _ & Hx)]]; try discriminate. lra.
  - apply (leb_F2R 42 _ eq_refl (nonneg_not_nan _ Hn)). rewrite F2R_42. exact H42.
Qed.

Lemma active_signal_volatility_witness :
  type (signal (analyzeTicker parseDecimal (sampleTicker "ETHUSDT" "-3.5" "500000"))) ≠ NEUTRAL /\
  level (volatility (analyzeTicker parseDecimal (sampleTicker "ETHUSDT" "-3.5" "500000"))) ≠ low.
Proof.
  assert (H : type (signal (analyzeTicker parseDecimal (sampleTicker "ETHUSDT" "-3.5" "500000")))
              ≠ NEUTRAL) by (vm_compute; discriminate).
  split; [exact H|].
  exact (proj1 (active_signal_volatility parseDecimal (sampleTicker "ETHUSDT" "-3.5" "500000") H)).
Defined.

(** ** The analyzed array *)

Lemma elem_of_analyzeTickerArray (parseFloat : string -> number)
    (tickerDataArray : list Raw.Ticker) (item : AnalyzedTicker) :
  item ∈ analyzeTickerArray parseFloat tickerDataArray <->
  exists tickerData, item = analyzeTicker parseFloat tickerData /\ tickerData ∈ tickerDataArray.
Proof. unfold analyzeTickerArray. apply list_elem_of_fmap. Qed.

(** X6: the analysis keeps the tickers, their order and their number: the raw
    tickers are read back from the analyzed array, so two snapshots with
    the same analysis are the same snapshot. *)
Theorem analyzeTickerArray_raw (parseFloat : string -> number) :
  (forall tickerDataArray,
     raw <$> analyzeTickerArray parseFloat tickerDataArray = tickerDataArray /\
     symbol <$> analyzeTickerArray parseFloat tickerDataArray = Raw.symbol <$> tickerDataArray /\
     length (analyzeTickerArray parseFloat tickerDataArray) = length tickerDataArray) /\
  (forall a b, analyzeTickerArray parseFloat a = analyzeTickerArray parseFloat b -> a = b) /\
  (forall a b, analyzeTickerArray parseFloat (a ++ b) =
                 analyzeTickerArray parseFloat a ++ analyzeTickerArray parseFloat b).
Proof.
  assert (Hraw : forall l, raw <$> analyzeTickerArray parseFloat l = l).
  { intros l. unfold analyzeTickerArray. rewrite <- list_fmap_compose.
    induction l as [|t l IH]; [reflexivity|]. cbn. rewrite IH. reflexivity. }
  split; [|split].
  - intros l. split; [apply Hraw|]. split.
    + unfold analyzeTickerArray. rewrite <- list_fmap_compose. reflexivity.
    + unfold analyzeTickerArray. apply length_map.
  - intros a b H. rewrite <- (Hraw a), <- (Hraw b), H. reflexivity.
  - intros a b. unfold analyzeTickerArray. apply map_app.
Qed.

(** ** The ranking and the signals *)

Lemma elem_of_Array_slice0 {A} (l : list A) (stop : Z) (x : A) :
  x ∈ Array_slice0 l stop -> x ∈ l.
Proof. unfold Array_slice0. apply subseteq_take. Qed.

Lemma Array_slice0_sublist {A} (l : list A) (stop : Z) : Array_slice0 l stop `sublist_of` l.
Proof. unfold Array_slice0. apply sublist_take. Qed.

Lemma elem_of_rankedGainers (analyzedData : list AnalyzedTicker) (item : AnalyzedTicker) :
  item ∈ rankedGainers analyzedData <->
  item ∈ analyzedData /\ (0 <? priceChangePercent item)%float = true.
Proof.
  unfold rankedGainers, Array_sort. rewrite sort_from_perm. cbn [app].
  rewrite list_elem_of_filter. tauto.
Qed.

(** X7: whatever the limit, every top gainer of an analyzed snapshot has a
    change above 0 and so is never a PANIC_SELL entry; and every
    WHALE_ACTIVITY entry of the snapshot is in the ranking. *)
Theorem getTopGainers_signals (parseFloat : string -> number)
    (tickerDataArray : list Raw.Ticker) :
  let analyzedData := analyzeTickerArray parseFloat tickerDataArray in
  (forall limit item, item ∈ getTopGainers analyzedData limit ->
     item ∈ analyzedData /\
     (0 <? priceChangePercent item)%float = true /\
     type (signal item) ≠ PANIC_SELL) /\
  (forall item, item ∈ analyzedData -> type (signal item) = WHALE_ACTIVITY ->
     item ∈ rankedGainers analyzedData /\
     item ∈ getTopGainers analyzedData (Some (Z.of_nat (length analyzedData)))).
Proof.
  intros analyzedData.
  assert (Hsig : forall item, item ∈ analyzedData ->
            (type (signal item) = WHALE_ACTIVITY -> (3 <? priceChangePercent item)%float = true) /\
            (type (signal item) = PANIC_SELL -> (priceChangePercent item <? -3)%float = true)).
  { intros item Hi. apply elem_of_analyzeTickerArray in Hi as (t & -> & _).
    cbn [analyzeTicker signal priceChangePercent].
    destruct (detectSignal_active parseFloat t) as (Hw & Hp & _). split; assumption. }
  split.
  - intros limit item Hi. unfold getTopGainers in Hi. apply elem_of_Array_slice0 in Hi.
    apply elem_of_rankedGainers in Hi as [Hi Hpos]. split; [exact Hi|]. split; [exact Hpos|].
    intros Hp. apply (Hsig item Hi) in Hp.
    destruct (positive_nonneg _ Hpos) as [Hn H0].
    apply (ltb_F2R _ (-3) (nonneg_not_nan _ Hn) eq_refl) in Hp. rewrite F2R_minus_3 in Hp. lra.
  - intros item Hi Hw. apply (Hsig item Hi) in Hw.
    assert (Hpos : (0 <? priceChangePercent item)%float = true).
    { destruct (is_nan (priceChangePercent item)) eqn:Np.
      - destruct (ltb_nan _ 3 Np) as [_ H']. congruence.
      - apply (ltb_F2R 3 _ eq_refl Np) in Hw. rewrite F2R_3 in Hw.
        apply (ltb_F2R 0 _ eq_refl Np). rewrite F2R_0. lra. }
    assert (Hr : item ∈ rankedGainers analyzedData) by (apply elem_of_rankedGainers; tauto).
    split; [exact Hr|]. unfold getTopGainers.
    change (default 5 (Some ?n)) with n.
    rewrite Array_slice0_take by lia. rewrite Nat2Z.id, take_ge; [exact Hr|].
    unfold rankedGainers, Array_sort. rewrite sort_from_perm. cbn [app].
    apply length_filter.
Qed.


(** ** The new signals, for every previous set *)

Lemma detectNewSignals_pushed (previousData currentData : list AnalyzedTicker) :
  detectNewSignals (Some previousData) currentData =
    filter (pushed (previousSignals_of previousData)) currentData.
Proof.
  destruct previousData as [|p0 l0].
  - unfold detectNewSignals, getActiveSignals. apply list_filter_iff.
    intros item. unfold pushed, previousSignals_of. cbn [foldl]. rewrite lookup_empty.
    split; [intros H; split; [exact H|discriminate]|tauto].
  - unfold detectNewSignals. cbv beta iota.
    generalize (previousSignals_of (p0 :: l0)). intros previousSignals.
    rewrite (foldl_snoc_filter (pushed previousSignals)); [reflexivity|].
    intros acc item. destruct (decide (pushed previousSignals item)) as [[Hi Hl]|Hnp].
    + rewrite decide_True by exact Hi.
      destruct (previousSignals !! symbol item) as [t|] eqn:E; [|reflexivity].
      rewrite decide_True; [reflexivity|congruence].
    + destruct (decide (type (signal item) ≠ NEUTRAL)) as [Hi|Hi]; [|reflexivity].
      destruct (previousSignals !! symbol item) as [t|] eqn:E.
      * destruct (decide (t ≠ type (signal item))) as [Hd|Hd]; [|reflexivity].
        exfalso. apply Hnp. split; [exact Hi|]. rewrite E. congruence.
      * exfalso. apply Hnp. split; [exact Hi|]. rewrite E. discriminate.
Qed.

Lemma previousSignals_of_active (previousData : list AnalyzedTicker) :
  previousSignals_of (getActiveSignals previousData) = previousSignals_of previousData.
Proof.
  induction previousData as [|x l IH] using rev_ind; [reflexivity|].
  rewrite getActiveSignals_snoc, previousSignals_of_snoc.
  destruct (decide (type (signal x) ≠ NEUTRAL)) as [Hx|Hx].
  - rewrite previousSignals_of_snoc, decide_True by exact Hx. rewrite IH. reflexivity.
  - rewrite app_nil_r. exact IH.
Qed.

Lemma detectNewSignals_active (previousData : option (list AnalyzedTicker))
    (currentData : list AnalyzedTicker) :
  detectNewSignals previousData currentData `sublist_of` getActiveSignals currentData.
Proof.
  destruct previousData as [previousData|]; [|reflexivity].
  rewrite detectNewSignals_pushed. unfold getActiveSignals.
  rewrite <- (list_filter_filter_l (pushed (previousSignals_of previousData))
                (fun item => type (signal item) ≠ NEUTRAL)).
  - apply sublist_filter.
  - intros item [H _]. exact H.
Qed.

(** X10: whatever the previous set is (absent, empty, or with several entries
    of one symbol), the new signals are entries of the current set that have
    a signal, in the order of the current set and without repetition of an
    entry: NEUTRAL entries are never reported and nothing is made up. *)
Theorem detectNewSignals_sublist (previousData : option (list AnalyzedTicker))
    (currentData : list AnalyzedTicker) :
  detectNewSignals previousData currentData `sublist_of` getActiveSignals currentData /\
  detectNewSignals previousData currentData `sublist_of` currentData /\
  (length (detectNewSignals previousData currentData) <= length (getActiveSignals currentData))%nat /\
  (forall item, item ∈ detectNewSignals previousData currentData ->
     item ∈ currentData /\ type (signal item) ≠ NEUTRAL).
Proof.
  pose proof (detectNewSignals_active previousData currentData) as Hs.
  split; [exact Hs|]. split; [|split].
  - etransitivity; [exact Hs|]. unfold getActiveSignals. apply sublist_filter.
  - apply sublist_length, Hs.
  - intros item Hi. apply elem_of_getActiveSignals.
    eapply sublist_subseteq; [exact Hs|exact Hi].
Qed.

(** X11: the NEUTRAL entries of the previous set have no influence: the new
    signals are those against the entries of the previous set that have a
    signal; in particular a previous set without any signal behaves as a
    first run. *)
Theorem detectNewSignals_previous_active (previousData currentData : list AnalyzedTicker) :
  detectNewSignals (Some previousData) currentData =
    detectNewSignals (Some (getActiveSignals previousData)) currentData /\
  (getActiveSignals previousData = [] ->
   detectNewSignals (Some previousData) currentData = getActiveSignals currentData) /\
  detectNewSignals None currentData = detectNewSignals (Some []) currentData.
Proof.
  split; [|split].
  - rewrite !detectNewSignals_pushed, previousSignals_of_active. reflexivity.
  - intros H. rewrite detectNewSignals_pushed, <- previousSignals_of_active, H. 
    unfold getActiveSignals. apply list_filter_iff. intros item. unfold pushed, previousSignals_of.
    cbn [foldl]. rewrite lookup_empty. split; [tauto|]. intros Hn. split; [exact Hn|discriminate].
  - reflexivity.
Qed.

(** A snapshot compared with itself has no new signal, as long as a
    symbol names at most one of its entries with a signal. *)
Lemma detectNewSignals_same (analyzedData : list AnalyzedTicker) :
  NoDup (symbol <$> getActiveSignals analyzedData) ->
  detectNewSignals (Some analyzedData) analyzedData = [].
Proof.
  intros Hnd. rewrite detectNewSignals_pushed. apply elem_of_nil_inv. intros item Hi.
  apply list_elem_of_filter in Hi as [[Hn Hl] Hi].
  apply Hl. apply previousSignals_of_unique; assumption.
Qed.

Lemma fmap_sublist {A B} (f : A -> B) (l1 l2 : list A) :
  l1 `sublist_of` l2 -> f <$> l1 `sublist_of` f <$> l2.
Proof.
  induction 1 as [|x l1 l2 _ IH|x l1 l2 _ IH]; cbn.
  - constructor.
  - apply sublist_skip. exact IH.
  - apply sublist_cons. exact IH.
Qed.

Lemma NoDup_active_symbols (parseFloat : string -> number) (tickerDataArray : list Raw.Ticker) :
  NoDup (Raw.symbol <$> tickerDataArray) ->
  NoDup (symbol <$> getActiveSignals (analyzeTickerArray parseFloat tickerDataArray)).
Proof.
  intros Hnd. eapply sublist_NoDup; [exact Hnd|].
  replace (Raw.symbol <$> tickerDataArray)
    with (symbol <$> analyzeTickerArray parseFloat tickerDataArray).
  - apply fmap_sublist. unfold getActiveSignals. apply sublist_filter.
  - unfold analyzeTickerArray. rewrite <- list_fmap_compose. reflexivity.
Qed.

(** X12: a snapshot with distinct symbols that is processed twice in a row
    triggers no event for new signals the second time: the second call
    triggers the two other events only, with the same payloads as the
    first. *)
Theorem processData_same_snapshot (parseFloat : string -> number)
    (previousAnalyzedData : list AnalyzedTicker) (tickerDataArray : list Raw.Ticker) :
  NoDup (Raw.symbol <$> tickerDataArray) ->
  let first := processData parseFloat previousAnalyzedData tickerDataArray in
  let second := processData parseFloat first.1 tickerDataArray in
  let analyzedData := analyzeTickerArray parseFloat tickerDataArray in
  second = (analyzedData,
            [dataAnalyzed analyzedData;
             topGainersUpdated (getTopGainers analyzedData (Some 5))]) /\
  second.1 = first.1 /\
  (forall newSignals, newSignalsDetected newSignals ∉ second.2).
Proof.
  intros Hnd first second analyzedData.
  assert (Hsecond : second = (analyzedData,
            [dataAnalyzed analyzedData;
             topGainersUpdated (getTopGainers analyzedData (Some 5))])).
  { unfold second, first, processData. cbn [fst]. fold analyzedData.
    rewrite (detectNewSignals_same analyzedData (NoDup_active_symbols _ _ Hnd)).
    reflexivity. }
  split; [exact Hsecond|]. split; [rewrite Hsecond; reflexivity|].
  intros newSignals. rewrite Hsecond. cbn [snd].
  rewrite !elem_of_cons, elem_of_nil. intros [H|[H|[]]]; discriminate.
Qed.

Lemma processData_same_snapshot_witness :
  let snapshot := [sampleTicker "BTCUSDT" "4.99" "2000000";
                   sampleTicker "ETHUSDT" "-3.5" "500000"] in
  NoDup (Raw.symbol <$> snapshot) /\
  forall newSignals,
    newSignalsDetected newSignals ∉
      (processData parseDecimal (processData parseDecimal [] snapshot).1 snapshot).2.
Proof.
  assert (H : NoDup (Raw.symbol <$> [sampleTicker "BTCUSDT" "4.99" "2000000";
                                     sampleTicker "ETHUSDT" "-3.5" "500000"])).
  { cbn. apply NoDup_cons. split; [|apply NoDup_singleton].
    intros Hin. apply list_elem_of_singleton in Hin. discriminate. }
  split; [exact H|].
  exact (proj2 (proj2 (processData_same_snapshot parseDecimal [] _ H))).
Defined.

(** X13: what a call of [processData] triggers and retains, in general: the
    analyzed array (one entry per ticker) is retained and is the payload of
    the first event; the second event carries at most 5 entries of it; a
    third event, if there is one, is the last, and carries a list that is
    not empty of entries of the analyzed array that have a signal. *)
Theorem processData_events (parseFloat : string -> number)
    (previousAnalyzedData : list AnalyzedTicker) (tickerDataArray : list Raw.Ticker) :
  let result := processData parseFloat previousAnalyzedData tickerDataArray in
  let analyzedData := analyzeTickerArray parseFloat tickerDataArray in
  result.1 = analyzedData /\
  length analyzedData = length tickerDataArray /\
  exists topGainers rest,
    result.2 = dataAnalyzed analyzedData :: topGainersUpdated topGainers :: rest /\
    (length topGainers <= 5)%nat /\
    topGainers ⊆ analyzedData /\
    (rest = [] \/
     exists newSignals,
       rest = [newSignalsDetected newSignals] /\ newSignals <> [] /\
       newSignals `sublist_of` getActiveSignals analyzedData).
Proof.
  intros result analyzedData. split; [reflexivity|]. split.
  { unfold analyzedData, analyzeTickerArray. apply length_map. }
  exists (getTopGainers analyzedData (Some 5)).
  exists (if (0 <? length (detectNewSignals (Some previousAnalyzedData) analyzedData))%nat
          then [newSignalsDetected (detectNewSignals (Some previousAnalyzedData) analyzedData)]
          else []).
  split; [reflexivity|]. split; [|split].
  - unfold getTopGainers. change (default 5 (Some 5)) with 5.
    rewrite Array_slice0_take by lia. rewrite length_take. lia.
  - intros item Hi. unfold getTopGainers in Hi. apply elem_of_Array_slice0 in Hi.
    apply elem_of_rankedGainers in Hi. tauto.
  - pose proof (detectNewSignals_active (Some previousAnalyzedData) analyzedData) as Hs.
    destruct (detectNewSignals (Some previousAnalyzedData) analyzedData) as [|x l] eqn:E.
    + left. reflexivity.
    + right. exists (x :: l). split; [reflexivity|]. split; [discriminate|exact Hs].
Qed.


(** ** Sorting what is sorted *)

Section SortedInput.
Local Open Scope R_scope.
Context {A : Type}.
Variable comparefn : A -> A -> number.
Variable key : A -> R.
Variable P : A -> Prop.

Hypothesis comparefn_key :
  forall x y, P x -> P y -> ((comparefn x y <? 0)%float = true <-> key y < key x).

Lemma descending_app_inv (l1 l2 : list A) :
  descending key (l1 ++ l2) ->
  descending key l1 /\ descending key l2 /\
  forall x y, x ∈ l1 -> y ∈ l2 -> key y <= key x.
Proof.
  induction l1 as [|a l1 IH]; cbn [app]; intros H.
  - split; [constructor|]. split; [exact H|]. intros x y Hx. inversion Hx.
  - inversion H as [|? ? Hs Ha]; subst. destruct (IH Hs) as (H1 & H2 & H3).
    rewrite Forall_forall in Ha. split; [|split; [exact H2|]].
    + constructor; [exact H1|]. apply Forall_forall. intros z Hz. apply Ha.
      apply elem_of_app. left. exact Hz.
    + intros x y Hx Hy. apply elem_of_cons in Hx as [->|Hx]; [|eauto].
      apply Ha. apply elem_of_app. right. exact Hy.
Qed.

(** An element that exceeds no element of the list is inserted last. *)
Lemma sort_insert_last (x : A) (l : list A) :
  P x -> Forall P l -> (forall y, y ∈ l -> key x <= key y) ->
  sort_insert comparefn x l = l ++ [x].
Proof.
  intros Hx Hl Hk. induction l as [|y l IH]; cbn [sort_insert app]; [reflexivity|].
  apply Forall_cons in Hl as [Hy Hl].
  destruct (comparefn x y <? 0)%float eqn:E.
  - apply (comparefn_key x y Hx Hy) in E.
    pose proof (Hk y ltac:(left)). lra.
  - rewrite IH; [reflexivity|exact Hl|]. intros z Hz. apply Hk. right. exact Hz.
Qed.

(** A list that is in order already is left as it is. *)
Lemma sort_from_sorted (todo sorted : list A) :
  Forall P (sorted ++ todo) -> descending key (sorted ++ todo) ->
  sort_from comparefn sorted todo = sorted ++ todo.
Proof.
  revert sorted. induction todo as [|x todo IH]; intros sorted HP Hd; cbn [sort_from].
  - rewrite app_nil_r. reflexivity.
  - assert (E : sorted ++ x :: todo = (sorted ++ [x]) ++ todo)
      by (rewrite <- app_assoc; reflexivity).
    rewrite sort_insert_last.
    + rewrite IH; [symmetry; exact E|rewrite <- E; exact HP|rewrite <- E; exact Hd].
    + rewrite Forall_forall in HP. apply HP. apply elem_of_app. right. left.
    + apply Forall_app in HP as [HP _]. exact HP.
    + intros y Hy. destruct (descending_app_inv _ _ Hd) as (_ & _ & H). apply H; [exact Hy|left].
Qed.

(** Two lists in order that hold the same elements, no two of one key,
    are the same list. *)
Lemma descending_perm_eq (l1 l2 : list A) :
  descending key l1 -> descending key l2 -> l1 ≡ₚ l2 ->
  (forall x y, x ∈ l1 -> y ∈ l1 -> key x = key y -> x = y) ->
  l1 = l2.
Proof.
  revert l2. induction l1 as [|x t1 IH]; intros l2 H1 H2 Hp Hinj.
  - apply Permutation_nil_l. exact Hp.
  - destruct l2 as [|y t2]; [apply Permutation_nil_r in Hp; discriminate|].
    inversion H1 as [|? ? Hs1 Hx]; subst. inversion H2 as [|? ? Hs2 Hy]; subst.
    rewrite Forall_forall in Hx, Hy.
    assert (Hxy : key x <= key y).
    { assert (Hin : x ∈ y :: t2) by (rewrite <- Hp; left).
      apply elem_of_cons in Hin as [->|Hin]; [lra|apply Hy; exact Hin]. }
    assert (Hyx : key y <= key x).
    { assert (Hin : y ∈ x :: t1) by (rewrite Hp; left).
      apply elem_of_cons in Hin as [->|Hin]; [lra|apply Hx; exact Hin]. }
    assert (Heq : x = y).
    { apply Hinj; [left|rewrite Hp; left|lra]. }
    subst y. f_equal. apply IH; [exact Hs1|exact Hs2| |].
    + eapply Permutation_cons_inv. exact Hp.
    + intros a b Ha Hb. apply Hinj; right; assumption.
Qed.
End SortedInput.

(** ** The ranking, once more *)

Section Ranking.
Local Open Scope R_scope.

Lemma rankedGainers_comparefn (x y : AnalyzedTicker) :
  gains x -> gains y ->
  ((priceChangePercent y - priceChangePercent x <? 0)%float = true <->
   F2R (priceChangePercent y) < F2R (priceChangePercent x)).
Proof. intros Hx Hy. apply sub_negative; assumption. Qed.

Lemma rankedGainers_perm (analyzedData : list AnalyzedTicker) :
  rankedGainers analyzedData ≡ₚ filter gains analyzedData.
Proof. unfold rankedGainers, Array_sort. rewrite sort_from_perm. reflexivity. Qed.

Lemma rankedGainers_gains (analyzedData : list AnalyzedTicker) :
  Forall gains (rankedGainers analyzedData).
Proof.
  rewrite rankedGainers_perm. apply Forall_forall. intros item Hi.
  apply list_elem_of_filter in Hi. tauto.
Qed.

Lemma rankedGainers_descending (analyzedData : list AnalyzedTicker) :
  descending (fun item => F2R (priceChangePercent item)) (rankedGainers analyzedData).
Proof.
  unfold rankedGainers, Array_sort.
  apply (sort_from_descending _ _ gains rankedGainers_comparefn); [|constructor|constructor].
  apply Forall_forall. intros item Hi. apply list_elem_of_filter in Hi. tauto.
Qed.

Lemma filter_all {A} (P : A -> Prop) `{!forall x, Decision (P x)} (l : list A) :
  Forall P l -> filter P l = l.
Proof.
  induction 1 as [|x l Hx _ IH]; [reflexivity|].
  rewrite filter_cons_True by exact Hx. rewrite IH. reflexivity.
Qed.

(** A list of gainers in decreasing order is its own ranking. *)
Lemma rankedGainers_sorted (l : list AnalyzedTicker) :
  Forall gains l -> descending (fun item => F2R (priceChangePercent item)) l ->
  rankedGainers l = l.
Proof.
  intros HP Hd. unfold rankedGainers, Array_sort.
  rewrite (filter_all (fun item => (0 <? priceChangePercent item)%float = true)) by exact HP.
  apply (sort_from_sorted _ _ gains rankedGainers_comparefn l []); assumption.
Qed.
End Ranking.

(** X8: the top gainers are ranked already: ranking them again changes
    nothing, and the top [k] of the top [k'] are the top [k] of the whole
    when [k <= k']. *)
Theorem getTopGainers_again (analyzedData : list AnalyzedTicker) :
  rankedGainers (rankedGainers analyzedData) = rankedGainers analyzedData /\
  (forall limit,
     rankedGainers (getTopGainers analyzedData limit) = getTopGainers analyzedData limit) /\
  (forall k k', 0 <= k <= k' ->
     getTopGainers (getTopGainers analyzedData (Some k')) (Some k) =
       getTopGainers analyzedData (Some k)).
Proof.
  assert (Htake : forall n, rankedGainers (take n (rankedGainers analyzedData)) =
                              take n (rankedGainers analyzedData)).
  { intros n. apply rankedGainers_sorted.
    - apply Forall_take, rankedGainers_gains.
    - pose proof (rankedGainers_descending analyzedData) as Hd.
      rewrite <- (take_drop n (rankedGainers analyzedData)) in Hd.
      apply descending_app_inv in Hd. tauto. }
  split; [|split].
  - apply rankedGainers_sorted; [apply rankedGainers_gains|apply rankedGainers_descending].
  - intros limit. unfold getTopGainers, Array_slice0. apply Htake.
  - intros k k' Hk. unfold getTopGainers at 1 3.
    change (default 5 (Some k)) with k.
    rewrite !Array_slice0_take by lia.
    unfold getTopGainers. change (default 5 (Some k')) with k'.
    rewrite Array_slice0_take by lia. rewrite Htake, take_take. f_equal. lia.
Qed.

(** X9: when no two gainers have the same change, the ranking and the top
    gainers do not depend on the order of the entries in the snapshot. *)
Theorem rankedGainers_order_independent (analyzedData analyzedData' : list AnalyzedTicker) :
  analyzedData ≡ₚ analyzedData' ->
  NoDup (priceChangePercent <$>
           filter (fun item => (0 <? priceChangePercent item)%float = true) analyzedData) ->
  rankedGainers analyzedData = rankedGainers analyzedData' /\
  forall limit, getTopGainers analyzedData limit = getTopGainers analyzedData' limit.
Proof.
  intros Hp Hnd.
  assert (Hr : rankedGainers analyzedData = rankedGainers analyzedData').
  { apply (descending_perm_eq (fun item => F2R (priceChangePercent item))).
    - apply rankedGainers_descending.
    - apply rankedGainers_descending.
    - rewrite !rankedGainers_perm. rewrite Hp. reflexivity.
    - intros x y Hx Hy Hk.
      pose proof (rankedGainers_gains analyzedData) as HP. rewrite Forall_forall in HP.
      destruct (positive_nonneg _ (HP x Hx)) as [Hnx _].
      destruct (positive_nonneg _ (HP y Hy)) as [Hny _].
      pose proof (nonneg_inj _ _ Hnx Hny Hk) as Heq.
      rewrite rankedGainers_perm in Hx, Hy.
      apply list_elem_of_lookup in Hx as [i Hi]. apply list_elem_of_lookup in Hy as [j Hj].
      assert (i = j).
      { apply (NoDup_lookup _ i j (priceChangePercent x) Hnd); rewrite list_lookup_fmap.
        - unfold gains in Hi. rewrite Hi. reflexivity.
        - unfold gains in Hj. rewrite Hj. cbn. congruence. }
      subst j. unfold gains in *. congruence. }
  split; [exact Hr|]. intros limit. unfold getTopGainers. rewrite Hr. reflexivity.
Qed.

Lemma rankedGainers_order_independent_witness :
  reverse sampleSnapshot ≡ₚ sampleSnapshot /\
  NoDup (priceChangePercent <$>
           filter (fun item => (0 <? priceChangePercent item)%float = true)
             (reverse sampleSnapshot)) /\
  rankedGainers (reverse sampleSnapshot) = rankedGainers sampleSnapshot.
Proof.
  assert (Hp : reverse sampleSnapshot ≡ₚ sampleSnapshot) by apply reverse_Permutation.
  assert (Hnd : NoDup (priceChangePercent <$>
                   filter (fun item => (0 <? priceChangePercent item)%float = true)
                     (reverse sampleSnapshot))).
  { vm_compute. apply NoDup_cons. split; [|apply NoDup_singleton].
    intros Hin. apply list_elem_of_singleton in Hin.
    apply (f_equal Prim2SF) in Hin. vm_compute in Hin. discriminate. }
  split; [exact Hp|]. split; [exact Hnd|].
  exact (proj1 (rankedGainers_order_independent _ _ Hp Hnd)).
Defined.


(** * The API client *)

Section Volumes.
Local Open Scope R_scope.

Lemma nonneg_zero (x : number) :
  nonneg x -> (0 <? x)%float = false -> Prim2SF x = S754_zero false.
Proof.
  unfold nonneg. rewrite FloatAxioms.ltb_spec. change (Prim2SF 0) with (S754_zero false).
  destruct (Prim2SF x) as [[]|[]| |[] m e]; cbn; try contradiction; try discriminate; reflexivity.
Qed.

(** The sign of a difference of two nonnegative numbers tells their order. *)
Lemma sub_negative_nonneg (x y : number) :
  nonneg x -> nonneg y ->
  ((y - x <? 0)%float = true <-> F2R y < F2R x).
Proof.
  intros Hx Hy.
  destruct (0 <? x)%float eqn:Px; destruct (0 <? y)%float eqn:Py.
  - apply sub_negative; assumption.
  - pose proof (nonneg_zero y Hy Py) as Ey. destruct (positive_nonneg x Px) as [_ Hx0].
    rewrite FloatAxioms.ltb_spec, FloatAxioms.sub_spec. change (Prim2SF 0) with (S754_zero false).
    unfold F2R in *. rewrite Ey.
    destruct (positive_cases x Px) as [(m & e & Ex)|Ex]; rewrite Ex in *;
      cbn; split; auto.
  - pose proof (nonneg_zero x Hx Px) as Ex. destruct (positive_nonneg y Py) as [_ Hy0].
    rewrite FloatAxioms.ltb_spec, FloatAxioms.sub_spec. change (Prim2SF 0) with (S754_zero false).
    unfold F2R in *. rewrite Ex.
    destruct (positive_cases y Py) as [(m & e & Ey)|Ey]; rewrite Ey in *;
      cbn; (split; [discriminate|]); cbn in Hy0; lra.
  - pose proof (nonneg_zero x Hx Px) as Ex. pose proof (nonneg_zero y Hy Py) as Ey.
    rewrite FloatAxioms.ltb_spec, FloatAxioms.sub_spec. change (Prim2SF 0) with (S754_zero false).
    unfold F2R. rewrite Ex, Ey. cbn. split; [discriminate|lra].
Qed.
End Volumes.

(** ** The pairs a request delivers *)

Section Pairs.
Variable parseFloat : string -> number.

Local Abbreviation against_USDT := (fun item : Raw.Ticker => String_endsWith (Raw.symbol item) "USDT" = true).
Local Abbreviation by_volume :=
  (fun a b : Raw.Ticker =>
     (parseFloat (Raw.quoteVolume b) - parseFloat (Raw.quoteVolume a))%float).

Lemma usdtPairs_take (data : list Raw.Ticker) :
  APIClient.usdtPairs parseFloat data =
    take 100 (Array_sort by_volume (filter against_USDT data)).
Proof. unfold APIClient.usdtPairs. apply Array_slice0_take. lia. Qed.

Lemma sorted_pairs_perm (data : list Raw.Ticker) :
  Array_sort by_volume (filter against_USDT data) ≡ₚ filter against_USDT data.
Proof. unfold Array_sort. rewrite sort_from_perm. reflexivity. Qed.
End Pairs.

(** X14: whatever the volumes are (even not numbers), the pairs delivered are
    tickers of the response, each as many times as it is there at most, all
    with a symbol that ends in USDT, and at most 100 of them; with 100
    such tickers or fewer in the response, none is lost. *)
Theorem usdtPairs_selects (parseFloat : string -> number) (data : list Raw.Ticker) :
  let usdtPairs := APIClient.usdtPairs parseFloat data in
  let against_USDT := fun item : Raw.Ticker => String_endsWith (Raw.symbol item) "USDT" = true in
  usdtPairs ⊆+ data /\
  (length usdtPairs <= 100)%nat /\
  (forall item, item ∈ usdtPairs -> item ∈ data /\ against_USDT item) /\
  ((length (filter against_USDT data) <= 100)%nat -> usdtPairs ≡ₚ filter against_USDT data).
Proof.
  intros usdtPairs against_USDT. unfold usdtPairs. rewrite usdtPairs_take.
  pose proof (sorted_pairs_perm parseFloat data) as Hperm.
  split; [|split; [|split]].
  - transitivity (filter against_USDT data); [|apply sublist_submseteq, sublist_filter].
    etransitivity; [apply sublist_submseteq, sublist_take|].
    apply Permutation_submseteq, Hperm.
  - rewrite length_take. lia.
  - intros item Hi. apply subseteq_take in Hi. rewrite Hperm in Hi.
    apply list_elem_of_filter in Hi. tauto.
  - intros Hlen. rewrite take_ge; [exact Hperm|]. rewrite Hperm. exact Hlen.
Qed.

(** X15: when the quote volumes of the pairs against USDT are numbers that are
    not negative, the pairs delivered are in decreasing order of volume, and
    no pair that is left out has a larger volume than one that is kept. *)
Theorem usdtPairs_by_volume (parseFloat : string -> number) (data : list Raw.Ticker) :
  let volume_of := fun item : Raw.Ticker => parseFloat (Raw.quoteVolume item) in
  let against_USDT := fun item : Raw.Ticker => String_endsWith (Raw.symbol item) "USDT" = true in
  let usdtPairs := APIClient.usdtPairs parseFloat data in
  Forall (fun item => nonneg (volume_of item)) (filter against_USDT data) ->
  StronglySorted (fun a b => (volume_of b <=? volume_of a)%float = true) usdtPairs /\
  exists leftOut,
    usdtPairs ++ leftOut ≡ₚ filter against_USDT data /\
    forall kept item, kept ∈ usdtPairs -> item ∈ leftOut ->
      (volume_of item <=? volume_of kept)%float = true.
Proof.
  intros volume_of against_USDT usdtPairs Hvol.
  set (P := fun item : Raw.Ticker => nonneg (volume_of item)).
  set (key := fun item : Raw.Ticker => F2R (volume_of item)).
  set (cmp := fun a b : Raw.Ticker =>
                (parseFloat (Raw.quoteVolume b) - parseFloat (Raw.quoteVolume a))%float).
  assert (Hkey : forall x y, P x -> P y -> ((cmp x y <? 0)%float = true <-> (key y < key x)%R)).
  { intros x y Hx Hy. apply sub_negative_nonneg; assumption. }
  set (sorted := Array_sort cmp (filter against_USDT data)).
  assert (Hperm : sorted ≡ₚ filter against_USDT data) by apply sorted_pairs_perm.
  assert (HP : Forall P sorted) by (rewrite Hperm; exact Hvol).
  assert (Hdesc : descending key sorted).
  { unfold sorted, Array_sort.
    apply (sort_from_descending cmp key P Hkey); [exact Hvol|constructor|constructor]. }
  assert (Htake : usdtPairs = take 100 sorted) by apply usdtPairs_take.
  assert (Hle : forall a b, P a -> P b -> (key b <= key a)%R ->
                  (volume_of b <=? volume_of a)%float = true).
  { intros a b Ha Hb Hab. apply leb_F2R; auto using nonneg_not_nan. }
  rewrite <- (take_drop 100 sorted) in Hdesc, HP.
  apply Forall_app in HP as [HP1 HP2].
  destruct (descending_app_inv key _ _ Hdesc) as (Hd1 & _ & Hcut).
  rewrite Htake. split.
  - apply (StronglySorted_impl (fun a b => (key b <= key a)%R) _ P); [|exact HP1|exact Hd1].
    intros a b Ha Hb. apply Hle; assumption.
  - exists (drop 100 sorted). split; [rewrite take_drop; exact Hperm|].
    intros kept item Hk Hi. rewrite Forall_forall in HP1, HP2.
    apply Hle; [apply HP1; exact Hk|apply HP2; exact Hi|]. apply Hcut; assumption.
Qed.

Lemma usdtPairs_by_volume_witness :
  let data := [sampleTicker "ETHUSDT" "0.5" "500000"; sampleTicker "ETHBTC" "0.1" "900";
               sampleTicker "BTCUSDT" "3.5" "2000000"; sampleTicker "OLDUSDT" "0" "0"] in
  Forall (fun item => nonneg (parseDecimal (Raw.quoteVolume item)))
    (filter (fun item : Raw.Ticker => String_endsWith (Raw.symbol item) "USDT" = true) data) /\
  StronglySorted
    (fun a b => (parseDecimal (Raw.quoteVolume b) <=? parseDecimal (Raw.quoteVolume a))%float = true)
    (APIClient.usdtPairs parseDecimal data).
Proof.
  assert (H : Forall (fun item => nonneg (parseDecimal (Raw.quoteVolume item)))
    (filter (fun item : Raw.Ticker => String_endsWith (Raw.symbol item) "USDT" = true)
       [sampleTicker "ETHUSDT" "0.5" "500000"; sampleTicker "ETHBTC" "0.1" "900";
        sampleTicker "BTCUSDT" "3.5" "2000000"; sampleTicker "OLDUSDT" "0" "0"])).
  { replace (filter _ _) with
      [sampleTicker "ETHUSDT" "0.5" "500000"; sampleTicker "BTCUSDT" "3.5" "2000000";
       sampleTicker "OLDUSDT" "0" "0"] by (vm_compute; reflexivity).
    repeat (constructor; [vm_compute; exact I|]). constructor. }
  split; [exact H|].
  exact (proj1 (usdtPairs_by_volume parseDecimal _ H)).
Defined.

(** The delivery on the sample response: the pair against BTC is left
    out, the others come by decreasing volume. *)
Example usdtPairs_sample :
  Raw.symbol <$>
    APIClient.usdtPairs parseDecimal
      [sampleTicker "ETHUSDT" "0.5" "500000"; sampleTicker "ETHBTC" "0.1" "900";
       sampleTicker "BTCUSDT" "3.5" "2000000"; sampleTicker "OLDUSDT" "0" "0"]
  = ["BTCUSDT"; "ETHUSDT"; "OLDUSDT"].
Proof. vm_compute. reflexivity. Qed.


(** ** The runs of the client *)

Section Runs.
Import APIClient.
Variable parseFloat : string -> number.

Lemma run_cons (s : Step) (steps : list Step) (st : State * Timers) :
  run parseFloat (s :: steps) st =
    ((run parseFloat steps (step parseFloat s st).1).1,
     (step parseFloat s st).2 ++ (run parseFloat steps (step parseFloat s st).1).2).
Proof.
  cbn [run]. destruct (step parseFloat s st) as [st1 e1]. cbn [fst snd].
  destruct (run parseFloat steps st1) as [st2 e2]. reflexivity.
Qed.

Lemma retriesScheduled_app (e1 e2 : list Effect) :
  retriesScheduled (e1 ++ e2) = (retriesScheduled e1 + retriesScheduled e2)%nat.
Proof. unfold retriesScheduled. rewrite List.filter_app, length_app. reflexivity. Qed.

Lemma received_app (e1 e2 : list Effect) : received (e1 ++ e2) = received e1 ++ received e2.
Proof. unfold received. apply omap_app. Qed.

(** One completion that fails: the count goes up by one, and a retry is
    scheduled when the new count is below [MAX_RETRIES]. *)
Lemma failure_step (s : Step) (state : State) (timers : Timers) :
  failure s ->
  let r := step parseFloat s (state, timers) in
  retryCount r.1.1 = retryCount state + 1 /\
  r.1.2 = timers /\
  pollingInterval r.1.1 = pollingInterval state /\
  isPolling r.1.1 = isPolling state /\
  retriesScheduled r.2 = (if retryCount state + 1 <? 3 then 1%nat else 0%nat) /\
  received r.2 = [].
Proof.
  destruct s as [| |[]|[]]; cbn [failure]; try contradiction; intros _;
    cbn [step processTickerData retryCallback fetchTickerData fetchFailed fst snd
         retryCount pollingInterval isPolling MAX_RETRIES CONFIG];
    destruct (retryCount state + 1 <? 3); repeat split; reflexivity.
Qed.

Lemma failure_streak_from (steps : list Step) (state : State) (timers : Timers) :
  Forall failure steps -> 0 <= retryCount state ->
  let r := run parseFloat steps (state, timers) in
  retryCount r.1.1 = retryCount state + Z.of_nat (length steps) /\
  retriesScheduled r.2 =
    Z.to_nat (Z.min (Z.of_nat (length steps)) (Z.max 0 (2 - retryCount state))) /\
  received r.2 = [].
Proof.
  intros Hf. revert state timers. induction Hf as [|s steps Hs _ IH]; intros state timers Hc.
  - cbn. split; [lia|]. split; [|reflexivity].
    unfold retriesScheduled. cbn. lia.
  - rewrite run_cons. cbn [fst snd].
    destruct (failure_step s state timers Hs) as (H1 & H2 & _ & _ & H3 & H4).
    destruct (step parseFloat s (state, timers)) as [[state1 timers1] e1]. cbn [fst snd] in *.
    destruct (IH state1 timers1 ltac:(lia)) as (I1 & I2 & I3).
    rewrite retriesScheduled_app, received_app, H3, H4, I1, I2, I3, H1.
    split; [cbn [length]; lia|]. split; [|reflexivity].
    cbn [length]. destruct (Z.ltb_spec (retryCount state + 1) 3); lia.
Qed.
End Runs.

(** X16: a streak of failures, from a count of 0: after [n] requests that
    fail in a row the count is [n], and 2 retries have been scheduled at
    most, one after each of the first two failures ([MAX_RETRIES] is 3);
    nothing is delivered. *)
Theorem failure_streak (parseFloat : string -> number) (steps : list APIClient.Step)
    (state : APIClient.State) (timers : Timers) :
  Forall failure steps -> APIClient.retryCount state = 0 ->
  let r := APIClient.run parseFloat steps (state, timers) in
  APIClient.retryCount r.1.1 = Z.of_nat (length steps) /\
  retriesScheduled r.2 = Nat.min (length steps) 2 /\
  received r.2 = [].
Proof.
  intros Hf Hc. destruct (failure_streak_from parseFloat steps state timers Hf ltac:(lia))
    as (H1 & H2 & H3).
  split; [rewrite H1, Hc; lia|]. split; [rewrite H2, Hc; lia|exact H3].
Qed.

Lemma failure_streak_witness :
  let steps := [APIClient.pollCompletes (APIClient.responseNotOk 503);
                APIClient.retryCompletes (APIClient.fetchRejected "Failed to fetch");
                APIClient.retryCompletes (APIClient.jsonRejected "Unexpected token");
                APIClient.pollCompletes (APIClient.responseNotOk 503)] in
  Forall failure steps /\
  retriesScheduled
    (APIClient.run parseDecimal steps
       (APIClient.initialState, {| intervals := []; nextHandle := 1 |})).2 = 2%nat.
Proof.
  assert (H : Forall failure
                [APIClient.pollCompletes (APIClient.responseNotOk 503);
                 APIClient.retryCompletes (APIClient.fetchRejected "Failed to fetch");
                 APIClient.retryCompletes (APIClient.jsonRejected "Unexpected token");
                 APIClient.pollCompletes (APIClient.responseNotOk 503)])
    by (repeat constructor).
  split; [exact H|].
  exact (proj1 (proj2 (failure_streak parseDecimal _ APIClient.initialState
                         {| intervals := []; nextHandle := 1 |} H eq_refl))).
Defined.

(** X17: in every run, the data that reach the engine are those of the polls
    that succeed, one event for each, in order: a retry delivers nothing,
    even when its request succeeds, and neither does a call of
    [startPolling] or [stopPolling]. *)
Theorem run_delivers (parseFloat : string -> number) (steps : list APIClient.Step)
    (st : APIClient.State * Timers) :
  received (APIClient.run parseFloat steps st).2 = delivered parseFloat steps.
Proof.
  revert st. induction steps as [|s steps IH]; intros st; [reflexivity|].
  rewrite run_cons. cbn [snd]. rewrite received_app, IH. destruct st as [state timers].
  unfold delivered. cbn [omap list_omap].
  destruct s as [| |f|f]; cbn [APIClient.step].
  - unfold APIClient.startPolling. destruct (APIClient.isPolling state); reflexivity.
  - reflexivity.
  - destruct f; unfold APIClient.processTickerData, APIClient.fetchTickerData,
      APIClient.fetchFailed; cbn [fst snd];
      try (destruct (_ <? _)); reflexivity.
  - destruct f; unfold APIClient.retryCallback, APIClient.fetchTickerData,
      APIClient.fetchFailed; cbn [fst snd];
      try (destruct (_ <? _)); reflexivity.
Qed.

(** After a request that succeeds the count of the failures is 0 again. *)
Example retry_count_reset :
  APIClient.retryCount
    (APIClient.run parseDecimal
       [APIClient.pollCompletes (APIClient.responseNotOk 503);
        APIClient.retryCompletes (APIClient.responseJson [])]
       (APIClient.initialState, {| intervals := []; nextHandle := 1 |})).1.1 = 0.
Proof. reflexivity. Qed.


(** ** The polling and the timers *)

Section Polling.
Import APIClient.
Variable parseFloat : string -> number.
Variable timers0 : Timers.

Hypothesis timers0_wf : Forall (fun h => (h < nextHandle timers0)%positive) (intervals timers0).

Lemma filter_older (h : positive) :
  (nextHandle timers0 <= h)%positive ->
  filter (fun h' => h' ≠ h) (intervals timers0) = intervals timers0.
Proof.
  intros Hh. apply filter_all. eapply Forall_impl; [exact timers0_wf|].
  intros h' Hlt. cbn in *. lia.
Qed.

Lemma step_polling_inv (s : Step) (st : State * Timers) :
  polling_inv timers0 st -> polling_inv timers0 (step parseFloat s st).1.
Proof.
  destruct st as [state timers]. unfold polling_inv. cbn [fst snd].
  intros (Hi & Hp & Hn & Hh).
  destruct s as [| |f|f]; cbn [step].
  - unfold startPolling, setInterval. destruct (isPolling state) eqn:E; cbn [fst snd].
    + unfold ownInterval in *. tauto.
    + assert (Hnone : pollingInterval state = None).
      { destruct (pollingInterval state); [|reflexivity].
        assert (false = true) by (apply Hp; discriminate). discriminate. }
      unfold ownInterval in *. rewrite Hnone in Hi. cbn [pollingInterval isPolling intervals nextHandle].
      rewrite app_nil_r in Hi. rewrite Hi.
      split; [reflexivity|]. split; [split; [discriminate|reflexivity]|].
      split; [lia|]. intros h [= <-]. lia.
  - unfold stopPolling, ownInterval in *. cbn [fst snd pollingInterval isPolling].
    split; [|split; [split; [discriminate|congruence]|split; [|discriminate]]].
    + rewrite app_nil_r. destruct (pollingInterval state) as [h|].
      * cbn [clearInterval intervals]. rewrite Hi, filter_app, filter_older by (apply Hh; reflexivity).
        rewrite filter_cons_False, filter_nil by (intros H; apply H; reflexivity).
        apply app_nil_r.
      * rewrite Hi. apply app_nil_r.
    + destruct (pollingInterval state); [cbn [clearInterval nextHandle]|]; exact Hn.
  - destruct f; unfold processTickerData, fetchTickerData, fetchFailed, ownInterval in *;
      cbn [fst snd pollingInterval isPolling]; tauto.
  - destruct f; unfold retryCallback, fetchTickerData, fetchFailed, ownInterval in *;
      cbn [fst snd pollingInterval isPolling]; tauto.
Qed.

Lemma run_polling_inv (steps : list Step) (st : State * Timers) :
  polling_inv timers0 st -> polling_inv timers0 (run parseFloat steps st).1.
Proof.
  revert st. induction steps as [|s steps IH]; intros st Hst; [exact Hst|].
  rewrite run_cons. cbn [fst]. apply IH, step_polling_inv, Hst.
Qed.
End Polling.

(** X18: in every run from the initial state, the module never holds more
    than one interval and never clears an interval that is not its own: the
    intervals of the window are those that were there, followed by the one
    of the module while it is polling (a second call of [startPolling] sets
    none, [stopPolling] clears it), and [isPollingActive] tells whether the
    module holds one. *)
Theorem polling_timers (parseFloat : string -> number) (steps : list APIClient.Step)
    (timers0 : Timers) :
  Forall (fun h => (h < nextHandle timers0)%positive) (intervals timers0) ->
  let r := APIClient.run parseFloat steps (APIClient.initialState, timers0) in
  intervals r.1.2 = intervals timers0 ++ ownInterval r.1.1 /\
  (length (ownInterval r.1.1) <= 1)%nat /\
  (APIClient.isPollingActive r.1.1 = true <-> ownInterval r.1.1 <> []) /\
  (APIClient.isPollingActive r.1.1 = false -> intervals r.1.2 = intervals timers0).
Proof.
  intros Hwf r.
  assert (H0 : polling_inv timers0 (APIClient.initialState, timers0)).
  { unfold polling_inv, ownInterval. cbn. rewrite app_nil_r.
    split; [reflexivity|]. split; [split; [discriminate|congruence]|].
    split; [lia|discriminate]. }
  destruct (run_polling_inv parseFloat timers0 Hwf steps _ H0) as (Hi & Hp & _ & _).
  fold r in Hi, Hp. unfold APIClient.isPollingActive.
  assert (Hown : ownInterval r.1.1 <> [] <-> APIClient.pollingInterval r.1.1 <> None).
  { unfold ownInterval. destruct (APIClient.pollingInterval r.1.1); split; congruence. }
  split; [exact Hi|]. split; [|split].
  - unfold ownInterval. destruct (APIClient.pollingInterval r.1.1); cbn; lia.
  - rewrite Hown. exact Hp.
  - intros Hf. rewrite Hi.
    destruct (ownInterval r.1.1) eqn:E; [apply app_nil_r|].
    assert (APIClient.isPolling r.1.1 = true) by (apply Hp, Hown; discriminate). congruence.
Qed.

Lemma polling_timers_witness :
  let timers0 := {| intervals := [3%positive]; nextHandle := 7 |} in
  let steps := [APIClient.callStartPolling; APIClient.callStartPolling;
                APIClient.pollCompletes (APIClient.responseNotOk 503);
                APIClient.callStopPolling; APIClient.callStartPolling] in
  Forall (fun h => (h < nextHandle timers0)%positive) (intervals timers0) /\
  intervals (APIClient.run parseDecimal steps (APIClient.initialState, timers0)).1.2 =
    intervals timers0 ++
    ownInterval (APIClient.run parseDecimal steps (APIClient.initialState, timers0)).1.1.
Proof.
  assert (H : Forall (fun h => (h < nextHandle {| intervals := [3%positive]; nextHandle := 7 |})%positive)
                (intervals {| intervals := [3%positive]; nextHandle := 7 |}))
    by (repeat constructor).
  split; [exact H|].
  exact (proj1 (polling_timers parseDecimal _ _ H)).
Defined.

(** The run of the witness: two starts set one interval, the stop clears
    it, the next start sets a new one. *)
Example polling_sample :
  let r := APIClient.run parseDecimal
             [APIClient.callStartPolling; APIClient.callStartPolling;
              APIClient.callStopPolling; APIClient.callStartPolling]
             (APIClient.initialState, {| intervals := [3%positive]; nextHandle := 7 |}) in
  intervals r.1.2 = [3; 8]%positive /\
  r.2 = [APIClient.connectionStatus "connecting"; APIClient.processTickerDataCalled;
         APIClient.connectionStatus "connecting"; APIClient.processTickerDataCalled].
Proof. vm_compute. split; reflexivity. Qed.

(** ** The status of the connection *)

Lemma filter_status_removed (l : list string) :
  filter (fun c => c ∈ statusClasses) (filter (fun c => c ∉ statusClasses) l) = [].
Proof.
  rewrite list_filter_filter. apply elem_of_nil_inv. intros c Hc.
  apply list_elem_of_filter in Hc. tauto.
Qed.

Lemma filter_status_kept (l : list string) :
  filter (fun c => c ∉ statusClasses) (filter (fun c => c ∉ statusClasses) l) =
  filter (fun c => c ∉ statusClasses) l.
Proof. apply list_filter_filter_l. tauto. Qed.

Lemma addClass_status (name : string) (el : Element) :
  name ∈ statusClasses ->
  let el' := addClass name (removeClass statusClasses el) in
  filter (fun c => c ∈ statusClasses) (classes el') = [name] /\
  filter (fun c => c ∉ statusClasses) (classes el') =
    filter (fun c => c ∉ statusClasses) (classes el) /\
  innerHTML el' = innerHTML el.
Proof.
  intros Hn. unfold addClass, removeClass. cbn [classes innerHTML].
  destruct (decide (name ∈ filter (fun c => c ∉ statusClasses) (classes el))) as [Hin|Hout].
  - apply list_elem_of_filter in Hin. tauto.
  - cbn [classes innerHTML]. rewrite !filter_app, filter_status_removed, filter_status_kept.
    rewrite filter_cons_True by exact Hn.
    rewrite filter_cons_False by tauto. rewrite !filter_nil, app_nil_r. auto.
Qed.

(** X19: after [updateConnectionStatus] the element has one class of the
    connection status at most, whatever it had before: the class of the
    status for a status that is known, none for any other, which leaves the
    markup as it was; the other classes are kept as they are. *)
Theorem updateConnectionStatus_classes (status : string) (element : Element) :
  let element' := APIClient.updateConnectionStatus status element in
  filter (fun c => c ∉ statusClasses) (classes element') =
    filter (fun c => c ∉ statusClasses) (classes element) /\
  filter (fun c => c ∈ statusClasses) (classes element') =
    (if decide (status ∈ ["connected"; "connecting"; "error"])
     then ["status-" +:+ status] else []) /\
  (length (filter (fun c => c ∈ statusClasses) (classes element')) <= 1)%nat /\
  (status ∉ ["connected"; "connecting"; "error"] -> innerHTML element' = innerHTML element).
Proof.
  intros element'.
  assert (H : filter (fun c => c ∉ statusClasses) (classes element') =
                filter (fun c => c ∉ statusClasses) (classes element) /\
              filter (fun c => c ∈ statusClasses) (classes element') =
                (if decide (status ∈ ["connected"; "connecting"; "error"])
                 then ["status-" +:+ status] else []) /\
              (status ∉ ["connected"; "connecting"; "error"] ->
               innerHTML element' = innerHTML element)).
  { unfold element', APIClient.updateConnectionStatus. fold statusClasses.
    destruct (String.eqb_spec status "connected") as [->|H1];
      [|destruct (String.eqb_spec status "connecting") as [->|H2];
        [|destruct (String.eqb_spec status "error") as [->|H3]]].
    - destruct (addClass_status "status-connected" element) as (Ha & Hb & _);
        [unfold statusClasses; set_solver|].
      cbn [html classes]. rewrite Ha, Hb. rewrite decide_True by set_solver.
      split; [reflexivity|]. split; [reflexivity|]. intros Hn. exfalso. apply Hn. set_solver.
    - destruct (addClass_status "status-connecting" element) as (Ha & Hb & _);
        [unfold statusClasses; set_solver|].
      cbn [html classes]. rewrite Ha, Hb. rewrite decide_True by set_solver.
      split; [reflexivity|]. split; [reflexivity|]. intros Hn. exfalso. apply Hn. set_solver.
    - destruct (addClass_status "status-error" element) as (Ha & Hb & _);
        [unfold statusClasses; set_solver|].
      cbn [html classes]. rewrite Ha, Hb. rewrite decide_True by set_solver.
      split; [reflexivity|]. split; [reflexivity|]. intros Hn. exfalso. apply Hn. set_solver.
    - unfold removeClass. cbn [classes innerHTML].
      rewrite filter_status_kept, filter_status_removed.
      rewrite decide_False; [auto|].
      rewrite !elem_of_cons, elem_of_nil. tauto. }
  destruct H as (H1 & H2 & H3). split; [exact H1|]. split; [exact H2|]. split; [|exact H3].
  rewrite H2. destruct (decide _); cbn; lia.
Qed.


(** * The page stream *)

(** X20: the class of the change of a row agrees with its signal: a
    WHALE_ACTIVITY row is ['price-up'], a PANIC_SELL row is ['price-down'],
    so a ['price-neutral'] row (a change of 0 or one that is not a number)
    is NEUTRAL; and every top gainer, whatever the limit, is ['price-up']. *)
Theorem getPriceChangeClass_signal (parseFloat : string -> number) (tickerData : Raw.Ticker) :
  let item := analyzeTicker parseFloat tickerData in
  let class := UIStream.getPriceChangeClass (priceChangePercent item) in
  (type (signal item) = WHALE_ACTIVITY -> class = "price-up") /\
  (type (signal item) = PANIC_SELL -> class = "price-down") /\
  (class = "price-neutral" -> type (signal item) = NEUTRAL) /\
  (is_nan (priceChangePercent item) = true -> class = "price-neutral") /\
  (forall analyzedData limit gainer, gainer ∈ getTopGainers analyzedData limit ->
     UIStream.getPriceChangeClass (priceChangePercent gainer) = "price-up").
Proof.
  intros item class. cbn [item analyzeTicker signal priceChangePercent] in *.
  set (p := parseFloat (Raw.priceChangePercent tickerData)) in *.
  destruct (detectSignal_active parseFloat tickerData) as (Hw & Hp & _). fold p in Hw, Hp.
  assert (Hup : (3 <? p)%float = true -> class = "price-up").
  { intros H. unfold class, UIStream.getPriceChangeClass.
    destruct (is_nan p) eqn:Np; [destruct (ltb_nan p 3 Np); congruence|].
    apply (ltb_F2R 3 p eq_refl Np) in H. rewrite F2R_3 in H.
    assert (E : (0 <? p)%float = true) by (apply (ltb_F2R 0 p eq_refl Np); rewrite F2R_0; lra).
    rewrite E. reflexivity. }
  assert (Hdown : (p <? -3)%float = true -> class = "price-down").
  { intros H. unfold class, UIStream.getPriceChangeClass.
    destruct (is_nan p) eqn:Np; [destruct (ltb_nan p (-3) Np); congruence|].
    apply (ltb_F2R p (-3) Np eq_refl) in H. rewrite F2R_minus_3 in H.
    assert (E0 : (0 <? p)%float = false)
      by (apply (ltb_false_F2R 0 p eq_refl Np); rewrite F2R_0; lra).
    assert (E1 : (p <? 0)%float = true) by (apply (ltb_F2R p 0 Np eq_refl); rewrite F2R_0; lra).
    rewrite E0, E1. reflexivity. }
  split; [auto|]. split; [auto|]. split; [|split].
  - intros Hc. destruct (type (detectSignal parseFloat tickerData)) eqn:E; [| |reflexivity].
    + rewrite (Hup (Hw eq_refl)) in Hc. discriminate.
    + rewrite (Hdown (Hp eq_refl)) in Hc. discriminate.
  - intros Np. unfold class, UIStream.getPriceChangeClass.
    destruct (ltb_nan p 0 Np) as [-> ->]. reflexivity.
  - intros analyzedData limit gainer Hg. unfold getTopGainers in Hg.
    apply elem_of_Array_slice0, elem_of_rankedGainers in Hg as [_ Hg].
    unfold UIStream.getPriceChangeClass. rewrite Hg. reflexivity.
Qed.

(** ** The panel of the logs *)

Section Logs.
Import UIStream.

Abbreviation shown := (filter (fun node : LogNode => node ≠ waiting)).

Lemma take_app_take {A} (n : nat) (a b : list A) :
  take n (a ++ take n b) = take n (a ++ b).
Proof. rewrite !take_app, take_take. f_equal. f_equal. lia. Qed.

Lemma addSignalLog_take (timeStr : string) (cryptoData : AnalyzedTicker)
    (signalLogs : list LogNode) :
  addSignalLog timeStr cryptoData signalLogs =
    take 50 (logItem timeStr cryptoData :: shown signalLogs).
Proof.
  unfold addSignalLog. destruct (Nat.ltb_spec 50 (length (logItem timeStr cryptoData :: shown signalLogs))).
  - reflexivity.
  - rewrite take_ge by lia. reflexivity.
Qed.

Lemma shown_take (n : nat) (l : list LogNode) : shown (take n (shown l)) = take n (shown l).
Proof.
  apply filter_all. apply Forall_take, Forall_forall. intros node Hn.
  apply list_elem_of_filter in Hn. tauto.
Qed.

Lemma onNewSignalsDetected_cons (x : string * AnalyzedTicker)
    (newSignals : list (string * AnalyzedTicker)) (signalLogs : list LogNode) :
  onNewSignalsDetected (x :: newSignals) signalLogs =
    onNewSignalsDetected newSignals (addSignalLog x.1 x.2 signalLogs).
Proof. destruct x. reflexivity. Qed.

Lemma onNewSignalsDetected_take (newSignals : list (string * AnalyzedTicker))
    (signalLogs : list LogNode) :
  newSignals <> [] ->
  onNewSignalsDetected newSignals signalLogs =
    take 50 (reverse ((fun x => logItem x.1 x.2) <$> newSignals) ++ shown signalLogs).
Proof.
  revert signalLogs. induction newSignals as [|x rest IH]; intros signalLogs Hne; [congruence|].
  rewrite onNewSignalsDetected_cons, addSignalLog_take.
  destruct rest as [|y rest'].
  - reflexivity.
  - rewrite IH by discriminate.
    change (shown (take 50 (logItem x.1 x.2 :: shown signalLogs)))
      with (shown (take 50 (shown (logItem x.1 x.2 :: signalLogs)))).
    rewrite shown_take. change (shown (logItem x.1 x.2 :: signalLogs))
      with (logItem x.1 x.2 :: shown signalLogs).
    rewrite take_app_take. rewrite (fmap_cons _ x), (reverse_cons _ (logItem x.1 x.2)).
    rewrite <- app_assoc. reflexivity.
Qed.
End Logs.

(** X21: the panel after [addSignalLog]: the new entry comes first, the line
    that awaits a signal is gone, and 50 entries are kept at most, the
    newest; after the signals of one event, the last of them comes first,
    and the panel holds the 50 newest entries since it was cleared. *)
Theorem addSignalLog_panel (timeStr : string) (cryptoData : AnalyzedTicker)
    (signalLogs : list UIStream.LogNode) :
  let shown := filter (fun node : UIStream.LogNode => node ≠ UIStream.waiting) in
  let signalLogs' := UIStream.addSignalLog timeStr cryptoData signalLogs in
  signalLogs' = take 50 (UIStream.logItem timeStr cryptoData :: shown signalLogs) /\
  head signalLogs' = Some (UIStream.logItem timeStr cryptoData) /\
  (length signalLogs' <= 50)%nat /\
  (UIStream.waiting ∉ signalLogs') /\
  (forall newSignals, newSignals <> [] ->
     UIStream.onNewSignalsDetected newSignals signalLogs =
       take 50 (reverse ((fun x => UIStream.logItem x.1 x.2) <$> newSignals)
                  ++ shown signalLogs)) /\
  (forall newSignals, newSignals <> [] ->
     UIStream.onNewSignalsDetected newSignals (UIStream.clearLogs signalLogs) =
       take 50 (reverse ((fun x => UIStream.logItem x.1 x.2) <$> newSignals))).
Proof.
  intros shown signalLogs'. unfold signalLogs'. rewrite addSignalLog_take.
  split; [reflexivity|]. split; [reflexivity|]. split; [|split; [|split]].
  - rewrite length_take. lia.
  - intros Hw. apply subseteq_take in Hw. apply elem_of_cons in Hw as [Hw|Hw]; [discriminate|].
    apply list_elem_of_filter in Hw. tauto.
  - intros newSignals Hne. apply onNewSignalsDetected_take. exact Hne.
  - intros newSignals Hne. rewrite onNewSignalsDetected_take by exact Hne.
    unfold UIStream.clearLogs. cbn. rewrite app_nil_r. reflexivity.
Qed.

(** X22: the entries the engine reports are labelled as they should be: every
    entry of a [newSignalsDetected] event is a WHALE_ACTIVITY entry, logged
    with the class ['signal-log-whale'] and the message of a strong buy, or
    a PANIC_SELL entry, logged with the class ['signal-log-panic'] and the
    message of a downturn; the class of a panic never falls on a NEUTRAL
    entry. *)
Theorem signalClass_of_new_signal (parseFloat : string -> number)
    (previousAnalyzedData : list AnalyzedTicker) (tickerDataArray : list Raw.Ticker)
    (newSignals : list AnalyzedTicker) (signalData : AnalyzedTicker) :
  newSignalsDetected newSignals ∈
    (processData parseFloat previousAnalyzedData tickerDataArray).2 ->
  signalData ∈ newSignals ->
  (type (signal signalData) = WHALE_ACTIVITY /\
   UIStream.signalClass signalData = "signal-log-whale" /\
   message (signal signalData) = "WHALE ACTIVITY - Strong Buy Signal") \/
  (type (signal signalData) = PANIC_SELL /\
   UIStream.signalClass signalData = "signal-log-panic" /\
   message (signal signalData) = "PANIC SELL - Market Downturn").
Proof.
  intros He Hi.
  assert (Hns : newSignals = detectNewSignals (Some previousAnalyzedData)
                               (analyzeTickerArray parseFloat tickerDataArray)).
  { unfold processData in He. cbn [snd] in He.
    apply elem_of_app in He as [He|He].
    - rewrite !elem_of_cons, elem_of_nil in He. destruct He as [He|[He|[]]]; discriminate.
    - destruct (0 <? length _)%nat; [|inversion He].
      apply list_elem_of_singleton in He. congruence. }
  subst newSignals.
  pose proof (detectNewSignals_active (Some previousAnalyzedData)
                (analyzeTickerArray parseFloat tickerDataArray)) as Hsub.
  assert (Hia : signalData ∈ getActiveSignals (analyzeTickerArray parseFloat tickerDataArray))
    by (eapply sublist_subseteq; [exact Hsub|exact Hi]).
  apply elem_of_getActiveSignals in Hia as [Hin Hact].
  apply elem_of_analyzeTickerArray in Hin as (t & -> & _).
  unfold UIStream.signalClass. cbn [analyzeTicker signal] in *.
  revert Hact. unfold detectSignal.
  destruct (_ && _); [|destruct (_ <? _)%float]; cbn [type message]; intros Hact.
  - left. repeat split; reflexivity.
  - right. repeat split; reflexivity.
  - congruence.
Qed.

Lemma signalClass_of_new_signal_witness :
  let snapshot := [sampleTicker "BTCUSDT" "4.99" "2000000";
                   sampleTicker "ETHUSDT" "-3.5" "500000"] in
  let signalData := analyzeTicker parseDecimal (sampleTicker "ETHUSDT" "-3.5" "500000") in
  newSignalsDetected (analyzeTickerArray parseDecimal snapshot) ∈
    (processData parseDecimal [] snapshot).2 /\
  signalData ∈ analyzeTickerArray parseDecimal snapshot /\
  UIStream.signalClass signalData = "signal-log-panic" /\
  type (signal signalData) = PANIC_SELL.
Proof.
  assert (He : newSignalsDetected
                 (analyzeTickerArray parseDecimal
                    [sampleTicker "BTCUSDT" "4.99" "2000000";
                     sampleTicker "ETHUSDT" "-3.5" "500000"]) ∈
               (processData parseDecimal []
                  [sampleTicker "BTCUSDT" "4.99" "2000000";
                   sampleTicker "ETHUSDT" "-3.5" "500000"]).2).
  { vm_compute. right; right; left. }
  assert (Hi : analyzeTicker parseDecimal (sampleTicker "ETHUSDT" "-3.5" "500000") ∈
               analyzeTickerArray parseDecimal
                 [sampleTicker "BTCUSDT" "4.99" "2000000";
                  sampleTicker "ETHUSDT" "-3.5" "500000"]).
  { cbn [analyzeTickerArray map]. right; left. }
  split; [exact He|]. split; [exact Hi|].
  destruct (signalClass_of_new_signal parseDecimal [] _ _ _ He Hi) as [(Ht & _)|(Ht & Hc & _)].
  - vm_compute in Ht. discriminate Ht.
  - split; [exact Hc|exact Ht].
Defined.

(** ** The chart *)

Lemma StronglySorted_fmap {A B} (f : A -> B) (R : B -> B -> Prop) (l : list A) :
  StronglySorted (fun a b => R (f a) (f b)) l -> StronglySorted R (f <$> l).
Proof.
  induction 1 as [|a l _ IH Ha]; cbn; constructor; [exact IH|].
  apply Forall_fmap. exact Ha.
Qed.

(** X23: the chart after a [topGainersUpdated] event of the engine, when the
    canvas is on the page or the chart exists: one label per bar, 5 bars at
    most, every bar above 0, the bars in decreasing order; without a canvas
    and without a chart the event leaves no chart. *)
Theorem updateChart_top_gainers (parseFloat : string -> number)
    (previousAnalyzedData : list AnalyzedTicker) (tickerDataArray : list Raw.Ticker)
    (topGainers : list AnalyzedTicker) (canvas : bool) (chartInstance : option UIStream.Chart) :
  topGainersUpdated topGainers ∈
    (processData parseFloat previousAnalyzedData tickerDataArray).2 ->
  let chartInstance' := UIStream.updateChart canvas topGainers chartInstance in
  (canvas = true \/ chartInstance <> None ->
   exists chart, chartInstance' = Some chart /\
     UIStream.labels chart = baseAsset <$> topGainers /\
     UIStream.data chart = priceChangePercent <$> topGainers /\
     length (UIStream.labels chart) = length (UIStream.data chart) /\
     (length (UIStream.data chart) <= 5)%nat /\
     Forall (fun bar => (0 <? bar)%float = true) (UIStream.data chart) /\
     StronglySorted (fun a b => (b <=? a)%float = true) (UIStream.data chart)) /\
  (canvas = false -> chartInstance = None -> chartInstance' = None).
Proof.
  intros He chartInstance'.
  assert (Htg : topGainers = take 5 (rankedGainers (analyzeTickerArray parseFloat tickerDataArray))).
  { unfold processData in He. cbn [snd] in He. apply elem_of_app in He as [He|He].
    - rewrite !elem_of_cons, elem_of_nil in He. destruct He as [He|[He|[]]]; [discriminate|].
      injection He as ->. unfold getTopGainers. change (default 5 (Some 5)) with 5.
      apply Array_slice0_take. lia.
    - destruct (0 <? length _)%nat; [|inversion He].
      apply list_elem_of_singleton in He. discriminate. }
  set (ranked := rankedGainers (analyzeTickerArray parseFloat tickerDataArray)) in *.
  assert (Hg : Forall gains topGainers).
  { rewrite Htg. apply Forall_take, rankedGainers_gains. }
  assert (Hd : descending (fun item => F2R (priceChangePercent item)) topGainers).
  { pose proof (rankedGainers_descending (analyzeTickerArray parseFloat tickerDataArray)) as H.
    fold ranked in H. rewrite <- (take_drop 5 ranked) in H.
    apply descending_app_inv in H. rewrite Htg. tauto. }
  split.
  - intros Hc.
    assert (Hsome : chartInstance' =
              Some {| UIStream.labels := baseAsset <$> topGainers;
                      UIStream.data := priceChangePercent <$> topGainers |}).
    { unfold chartInstance', UIStream.updateChart, UIStream.initializeChart.
      destruct chartInstance as [c|]; [reflexivity|].
      destruct Hc as [->|Hc]; [reflexivity|congruence]. }
    eexists. split; [exact Hsome|]. cbn [UIStream.labels UIStream.data].
    split; [reflexivity|]. split; [reflexivity|]. split; [rewrite !length_fmap; reflexivity|].
    split; [|split].
    + rewrite length_fmap, Htg, length_take. lia.
    + apply Forall_fmap. exact Hg.
    + apply StronglySorted_fmap.
      apply (StronglySorted_impl (fun a b => (F2R (priceChangePercent b) <= F2R (priceChangePercent a))%R)
               _ gains); [|exact Hg|exact Hd].
      intros a b Ha Hb Hab. destruct (positive_nonneg _ Ha) as [Hna _].
      destruct (positive_nonneg _ Hb) as [Hnb _].
      apply leb_F2R; auto using nonneg_not_nan.
  - intros -> ->. reflexivity.
Qed.

Lemma updateChart_top_gainers_witness :
  let snapshot := [sampleTicker "BNBUSDT" "1.5" "1000"; sampleTicker "BTCUSDT" "4.99" "2000000"] in
  let topGainers := getTopGainers (analyzeTickerArray parseDecimal snapshot) (Some 5) in
  topGainersUpdated topGainers ∈ (processData parseDecimal [] snapshot).2 /\
  UIStream.labels <$> UIStream.updateChart true topGainers None = Some ["BTC"; "BNB"].
Proof.
  assert (He : topGainersUpdated
                 (getTopGainers
                    (analyzeTickerArray parseDecimal
                       [sampleTicker "BNBUSDT" "1.5" "1000";
                        sampleTicker "BTCUSDT" "4.99" "2000000"]) (Some 5)) ∈
               (processData parseDecimal []
                  [sampleTicker "BNBUSDT" "1.5" "1000";
                   sampleTicker "BTCUSDT" "4.99" "2000000"]).2).
  { unfold processData. cbn [snd]. apply elem_of_app. left. right; left. }
  split; [exact He|].
  destruct (proj1 (updateChart_top_gainers parseDecimal [] _ _ true None He) (or_introl eq_refl))
    as (chart & Hc & Hl & _).
  rewrite Hc. cbn [fmap option_fmap option_map]. rewrite Hl. vm_compute. reflexivity.
Defined.
